(** * CppLiveTuner: a shallow embedding of [include/LiveTuner.h]

    The development follows the header top-down: error values, the
    retrying file reader, the watcher configuration and the wait/notify
    plumbing of [FileWatcher], the vendored picojson parser, the key-value
    parser, and the [Params] orchestrator.  Every C++ function is a Rocq
    function of the same name; what the operating system answers (file
    existence, sizes, clock readings, read results) is passed in as an
    explicit observation, and what the code does to the outside (sleeping,
    logging, invoking a callback, writing a file) is returned as data. *)

From Stdlib Require Import ZArith QArith Qabs String Ascii List Lia Bool.
From Stdlib Require PrimFloat FloatOps SpecFloat Uint63.
From stdpp Require Import gmap strings list fin_maps pretty.

Local Open Scope Z_scope.
Local Open Scope string_scope.

(** ** Error handling (LiveTuner.h, [ErrorType], [ErrorInfo], [LogLevel]) *)

Module Err.

(** [enum class ErrorType]; the enumerator [None] is spelled
    [ErrorType_None] because [None] is taken by [option]. *)
Inductive ErrorType : Set :=
| ErrorType_None
| FileNotFound
| FileAccessDenied
| FileEmpty
| FileReadError
| ParseError
| InvalidFormat
| Timeout
| WatcherError
| Unknown.

(** [struct ErrorInfo]; [timestamp] is the reading of the system clock
    taken by the constructor, the default constructor leaves the epoch. *)
Record ErrorInfo : Set := mkErrorInfo {
  type : ErrorType;
  message : string;
  file_path : string;
  timestamp : Z
}.

(** [ErrorInfo() = default]. *)
Definition ErrorInfo_default : ErrorInfo :=
  {| type := ErrorType_None; message := ""; file_path := ""; timestamp := 0 |}.

(** [ErrorInfo(ErrorType t, std::string msg, std::string path)], with the
    value returned by [system_clock::now()] as [now]. *)
Definition ErrorInfo_make (t : ErrorType) (msg path : string) (now : Z) : ErrorInfo :=
  {| type := t; message := msg; file_path := path; timestamp := now |}.

(** [explicit operator bool() const]. *)
Definition has_error (e : ErrorInfo) : bool :=
  match type e with ErrorType_None => false | _ => true end.

Definition type_to_string (t : ErrorType) : string :=
  match t with
  | ErrorType_None => "None"
  | FileNotFound => "FileNotFound"
  | FileAccessDenied => "FileAccessDenied"
  | FileEmpty => "FileEmpty"
  | FileReadError => "FileReadError"
  | ParseError => "ParseError"
  | InvalidFormat => "InvalidFormat"
  | Timeout => "Timeout"
  | WatcherError => "WatcherError"
  | Unknown => "Unknown"
  end.

Definition to_string (e : ErrorInfo) : string :=
  match type e with
  | ErrorType_None => "No error"
  | t =>
      "[" ++ type_to_string t ++ "] "
      ++ (if String.eqb (file_path e) "" then "" else file_path e ++ ": ")
      ++ message e
  end.

Inductive LogLevel : Set := Debug | Info | Warning | Error.

(** One call of [internal::log(level, message)]. *)
Definition LogEntry : Set := (LogLevel * string)%type.

End Err.

(** ** RetryingFileReader ([internal::read_file_with_retry]) *)

Module Retry.
Import Err.
Import PrimFloat.

(** [struct FileReadRetryConfig].  [max_retries] is an [int], a value
    between [int_min] and [int_max] below; [retry_delay] is a count of
    milliseconds, [backoff_multiplier] a [double], here a binary64 number
    of the kernel. *)
Record FileReadRetryConfig : Set := mkRetryConfig {
  max_retries : Z;
  retry_delay : Z;
  backoff_multiplier : PrimFloat.float
}.

(** [FileReadRetryConfig{}]. *)
Definition FileReadRetryConfig_default : FileReadRetryConfig :=
  {| max_retries := 3; retry_delay := 5; backoff_multiplier := 1.5%float |}.

(** The conversion of [delay.count()], a signed 64-bit count, to
    [double]. *)
Definition to_double (n : Z) : PrimFloat.float :=
  if (n <? 0)%Z then PrimFloat.opp (PrimFloat.of_uint63 (Uint63.of_Z (- n)))
  else PrimFloat.of_uint63 (Uint63.of_Z n).

Definition int_min : Z := - 2 ^ 31.
Definition int_max : Z := 2 ^ 31 - 1.

(** [static_cast<int>(x)] on a [double]: truncation toward zero.  The
    C++ conversion is undefined for a NaN, an infinity or a value outside
    the range of [int]; those give [int_min] here, which is what the
    x86-64 conversion instruction produces. *)
Definition static_cast_int (x : PrimFloat.float) : Z :=
  match FloatOps.Prim2SF x with
  | SpecFloat.S754_zero _ => 0
  | SpecFloat.S754_finite s m e =>
      let mag := if (0 <=? e)%Z then (Zpos m * 2 ^ e)%Z else (Zpos m / 2 ^ (- e))%Z in
      let v := if s then (- mag)%Z else mag in
      if (int_min <=? v)%Z && (v <=? int_max)%Z then v else int_min
  | _ => int_min
  end.

(** The update of [delay] in the loop head:
    [milliseconds(static_cast<int>(delay.count() * backoff_multiplier))]. *)
Definition next_delay (cfg : FileReadRetryConfig) (delay : Z) : Z :=
  static_cast_int (PrimFloat.mul (to_double delay) (backoff_multiplier cfg)).

(** What [content.assign(istreambuf_iterator ...)] did in one attempt. *)
Inductive ReadOutcome : Set :=
| ReadThrowsStd (what : string)
| ReadThrowsUnknown
| ReadCompleted (content : string) (good_or_eof : bool).

(** What the file system answers during one attempt, in the order in which
    the loop body asks. *)
Record AttemptObs : Set := mkAttemptObs {
  obs_exists : bool;                 (* std::filesystem::exists(path, ec) *)
  obs_exists_ec : option string;     (* ec.message() when ec is set *)
  obs_file_size : string + Z;        (* inl: ec.message(); inr: file_size *)
  obs_open : bool;                   (* the ifstream opened *)
  obs_read : ReadOutcome;
  obs_clock : Z                      (* system_clock::now() for ErrorInfo *)
}.

(** The body of the [for] loop after the sleep: either the attempt ends the
    function with a content, or it leaves a new [last_error]; the log lines
    are those the body writes. *)
Definition attempt_body (path_str : string) (attempt : Z) (o : AttemptObs)
  : (ErrorInfo + string) * list LogEntry :=
  let fail (t : ErrorType) (msg : string) (lvl : option LogLevel)
      : (ErrorInfo + string) * list LogEntry :=
    let e := ErrorInfo_make t msg path_str (obs_clock o) in
    (inl e, match lvl with Some l => [(l, to_string e)] | None => [] end) in
  let first_only := if (attempt =? 0)%Z then Some Warning else None in
  if negb (obs_exists o) then
    fail FileNotFound "File does not exist" first_only
  else match obs_exists_ec o with
  | Some m => fail FileAccessDenied ("Cannot access file: " ++ m) first_only
  | None =>
    match obs_file_size o with
    | inl m => fail FileReadError ("Cannot get file size: " ++ m) (Some Debug)
    | inr size =>
      if (size =? 0)%Z then fail FileEmpty "File is empty" (Some Debug)
      else if negb (obs_open o) then
        fail FileAccessDenied "Cannot open file for reading" (Some Debug)
      else match obs_read o with
      | ReadThrowsStd what =>
          fail FileReadError ("Exception during file read: " ++ what) (Some Debug)
      | ReadThrowsUnknown =>
          fail FileReadError "Unknown exception during file read" (Some Debug)
      | ReadCompleted content ok =>
          if ok then
            if negb (String.eqb content "") then (inr content, [])
            else fail FileEmpty "File content is empty after read" (Some Debug)
          else fail FileReadError "File stream in bad state after read" (Some Debug)
      end
    end
  end.

(** What the call does besides computing: [sleep_for(delay)] and
    [log(level, message)], in program order. *)
Inductive Effect : Set :=
| Slept (ms : Z)
| Logged (e : LogEntry).

(** The result of the call: the returned optional, the value written
    through [error_out], and the effects.

    [attempt] and [max_retries] are [int]s.  With
    [max_retries == INT_MAX] the loop test never fails; when the attempt
    numbered [INT_MAX] has failed as well, [++attempt] overflows: the
    behaviour of the call is undefined from there on and the call has not
    returned.  [rr_overflow] tells that this point was reached;
    [rr_effects] then holds what the call had done up to it, [rr_content]
    is empty and [rr_error_out] is the [last_error] of the failed attempt,
    which has not been written through [error_out].  It takes
    [max_retries == INT_MAX] and [2 ^ 31] failed attempts to get there;
    [Params::load_file] and [LiveTuner::try_get] below are embedded for
    the calls of the reader that return, and read the other fields
    only. *)
Record ReadResult : Set := mkReadResult {
  rr_content : option string;
  rr_error_out : ErrorInfo;
  rr_effects : list Effect;
  rr_overflow : bool
}.

(** The [for (attempt = 0; attempt <= max_retries; ++attempt)] loop, by
    recursion on the number [n] of values of [attempt] still to go
    through.  [obs] gives the observation of each attempt, [eff] the
    effects so far.  The counter is kept in [Z]: a value above [INT_MAX]
    at the loop test means that the [++attempt] before it has overflowed.
    Otherwise the loop test ends the loop, and [config.max_retries + 1] in
    the last log line is an [int] sum in range. *)
Fixpoint retry_loop (cfg : FileReadRetryConfig) (path_str : string)
    (obs : Z -> AttemptObs) (n : nat) (attempt : Z) (delay : Z)
    (last_error : ErrorInfo) (eff : list Effect) : ReadResult :=
  match n with
  | O =>
      if (int_max <? attempt)%Z then
        (* ++attempt with attempt == INT_MAX *)
        {| rr_content := None;
           rr_error_out := last_error;
           rr_effects := eff;
           rr_overflow := true |}
      else
        (* All retries failed *)
        {| rr_content := None;
           rr_error_out := last_error;
           rr_effects := (eff ++
             (if has_error last_error
              then [Logged (Error, "Failed to read file after "
                                   ++ pretty (max_retries cfg + 1)
                                   ++ " attempts: " ++ to_string last_error)%string]
              else []))%list;
           rr_overflow := false |}
  | S n' =>
      let '(delay', eff') :=
        if (0 <? attempt)%Z then (next_delay cfg delay, (eff ++ [Slept delay])%list)
        else (delay, eff) in
      match attempt_body path_str attempt (obs attempt) with
      | (inr content, l) =>
          {| rr_content := Some content;
             rr_error_out := ErrorInfo_default;
             rr_effects := (eff' ++ map Logged l)%list;
             rr_overflow := false |}
      | (inl e, l) =>
          retry_loop cfg path_str obs n' (attempt + 1) delay' e
                     (eff' ++ map Logged l)%list
      end
  end.

(** How many values [attempt] goes through when every attempt fails:
    those from [0] to [max_retries], none when [max_retries] is negative.
    This is a count of loop rounds, not an [int] computed by the source. *)
Definition attempts_of (cfg : FileReadRetryConfig) : nat :=
  Z.to_nat (Z.succ (max_retries cfg)).

Definition read_file_with_retry (path_str : string) (cfg : FileReadRetryConfig)
    (obs : Z -> AttemptObs) : ReadResult :=
  retry_loop cfg path_str obs (attempts_of cfg) 0 (retry_delay cfg)
             ErrorInfo_default [].

(** The durations passed to [sleep_for], in order, and their sum, in
    milliseconds. *)
Fixpoint sleeps (eff : list Effect) : list Z :=
  match eff with
  | [] => []
  | Slept ms :: eff' => ms :: sleeps eff'
  | Logged _ :: eff' => sleeps eff'
  end.

Definition total_sleep (r : ReadResult) : Z :=
  fold_right Z.add 0 (sleeps (rr_effects r)).

(** The failure an attempt leaves in [last_error], if it fails. *)
Definition attempt_error (path_str : string) (obs : Z -> AttemptObs) (a : Z)
  : option ErrorInfo :=
  match fst (attempt_body path_str a (obs a)) with
  | inl e => Some e
  | inr _ => None
  end.

(** The content an attempt returns, if it succeeds. *)
Definition attempt_content (path_str : string) (obs : Z -> AttemptObs) (a : Z)
  : option string :=
  match fst (attempt_body path_str a (obs a)) with
  | inl _ => None
  | inr c => Some c
  end.

End Retry.

(** ** FileWatcher: configuration, overflow handling, wait/notify *)

Module Watcher.

(** [size_t] is an unsigned 64-bit integer; products wrap around. *)
Definition size_max : Z := 2 ^ 64.
Definition size_mul (a b : Z) : Z := (a * b) mod size_max.

(** [struct FileWatcherConfig], over the type [U] of whatever the user's
    overflow callback acts on.  [on_buffer_overflow] is a [std::function],
    empty ([None]) unless the user sets it; a call can return or throw. *)
Record FileWatcherConfig (U : Type) : Type := mkWatcherConfig {
  buffer_size : Z;
  auto_grow_buffer : bool;
  max_buffer_size : Z;
  on_buffer_overflow : option (Z -> Z -> U -> U * bool)
}.
Arguments mkWatcherConfig {U}.
Arguments buffer_size {U}.
Arguments auto_grow_buffer {U}.
Arguments max_buffer_size {U}.
Arguments on_buffer_overflow {U}.

(** [static constexpr size_t min_buffer_size = 4096]. *)
Definition min_buffer_size : Z := 4096.

(** The default member initialisers. *)
Definition FileWatcherConfig_default {U} : FileWatcherConfig U :=
  mkWatcherConfig 65536 true 1048576 None.

(** [void FileWatcherConfig::validate()]: two clamps, in this order. *)
Definition validate {U} (c : FileWatcherConfig U) : FileWatcherConfig U :=
  let bs1 := if (buffer_size c <? min_buffer_size)%Z then min_buffer_size
             else buffer_size c in
  let bs2 := if (max_buffer_size c <? bs1)%Z then max_buffer_size c else bs1 in
  mkWatcherConfig bs2 (auto_grow_buffer c) (max_buffer_size c) (on_buffer_overflow c).

(** The invariant of the data model:
    [min_buffer_size <= buffer_size <= max_buffer_size]. *)
Definition buffer_invariant {U} (c : FileWatcherConfig U) : Prop :=
  (min_buffer_size <= buffer_size c)%Z /\ (buffer_size c <= max_buffer_size c)%Z.

(** The two atomics of [class FileWatcher] with the stored configuration. *)
Record FileWatcher (U : Type) : Type := mkFileWatcher {
  running_ : bool;
  change_detected_ : bool;
  config_ : FileWatcherConfig U
}.
Arguments mkFileWatcher {U}.
Arguments running_ {U}.
Arguments change_detected_ {U}.
Arguments config_ {U}.

(** [FileWatcher::FileWatcher(const FileWatcherConfig& config)]. *)
Definition FileWatcher_new {U} (config : FileWatcherConfig U) : FileWatcher U :=
  mkFileWatcher false false (validate config).

(** [FileWatcher::set_config]: effective only when not watching. *)
Definition set_config {U} (w : FileWatcher U) (config : FileWatcherConfig U)
  : FileWatcher U :=
  if negb (running_ w)
  then mkFileWatcher (running_ w) (change_detected_ w) (validate config)
  else w.

(** *** The directory-change worker ([start_native], Windows variant) *)

(** [ERROR_NOTIFY_ENUM_DIR] of winerror.h. *)
Definition ERROR_NOTIFY_ENUM_DIR : Z := 1022.

(** What one iteration of the worker's [while (running_.load())] loop
    meets.  [ReadFailed error resize_ok]: [ReadDirectoryChangesW] returned
    [FALSE] with [GetLastError() = error]; [resize_ok] tells whether
    [buffer.resize] succeeded, should the branch reach it.
    [Signalled ok bytes names]: the overlapped event fired,
    [GetOverlappedResult] answered [ok] with [bytes] bytes and the record
    list carries [names].  [WaitOther]: the wait ended on the stop event or
    failed. *)
Inductive IterObs : Set :=
| ReadFailed (error : Z) (resize_ok : bool)
| Signalled (overlapped_ok : bool) (bytes_returned : Z) (names : list string)
| WaitOther.

(** The worker's local state and what it has done so far: the size of
    [buffer], [impl_->current_buffer_size], the calls made to
    [on_buffer_overflow] (oldest first), the number of [notify_change()]
    calls, and the user's state. *)
Record Worker (U : Type) : Type := mkWorker {
  buffer : Z;
  current_buffer_size : Z;
  overflow_calls : list (Z * Z);
  notifications : nat;
  user : U
}.
Arguments mkWorker {U}.
Arguments buffer {U}.
Arguments current_buffer_size {U}.
Arguments overflow_calls {U}.
Arguments notifications {U}.
Arguments user {U}.

(** The worker as the thread body starts it:
    [buffer(config_.buffer_size)]. *)
Definition worker_start {U} (cfg : FileWatcherConfig U) (u : U) : Worker U :=
  mkWorker (buffer_size cfg) (buffer_size cfg) [] 0%nat u.

(** The branch [error == ERROR_NOTIFY_ENUM_DIR]. *)
Definition on_overflow {U} (cfg : FileWatcherConfig U) (resize_ok : bool)
    (w : Worker U) : Worker U :=
  if auto_grow_buffer cfg then
    let current_size := buffer w in
    let new_size := Z.min (size_mul current_size 2) (max_buffer_size cfg) in
    if (current_size <? new_size)%Z then
      (* try { resize; store; callback } catch (...) {} *)
      if resize_ok then
        match on_buffer_overflow cfg with
        | Some cb =>
            mkWorker new_size new_size
                     (overflow_calls w ++ [(current_size, new_size)])%list
                     (notifications w) (fst (cb current_size new_size (user w)))
        | None =>
            mkWorker new_size new_size (overflow_calls w) (notifications w) (user w)
        end
      else w
    else w
  else w.

(** One iteration of the loop; [None] is [break]. *)
Definition worker_iter {U} (cfg : FileWatcherConfig U) (filename : string)
    (o : IterObs) (w : Worker U) : option (Worker U) :=
  let notify (w : Worker U) :=
    mkWorker (buffer w) (current_buffer_size w) (overflow_calls w)
             (S (notifications w)) (user w) in
  match o with
  | ReadFailed error resize_ok =>
      if (error =? ERROR_NOTIFY_ENUM_DIR)%Z then Some (on_overflow cfg resize_ok w)
      else None
  | Signalled ok bytes names =>
      if ok then
        if (bytes =? 0)%Z then Some (notify w)
        else if existsb (String.eqb filename) names then Some (notify w)
        else Some w
      else Some w
  | WaitOther => None
  end.

(** The loop over the successive observations; it also ends when the list
    does, which stands for [running_] having become false. *)
Fixpoint worker_loop {U} (cfg : FileWatcherConfig U) (filename : string)
    (os : list IterObs) (w : Worker U) : Worker U :=
  match os with
  | [] => w
  | o :: os' =>
      match worker_iter cfg filename o w with
      | Some w' => worker_loop cfg filename os' w'
      | None => w
      end
  end.

(** An observation that does not concern [filename]: an overflow or a
    failed read, a failed overlapped result, or records that name other
    files only. *)
Definition about_other_files (filename : string) (o : IterObs) : Prop :=
  match o with
  | Signalled ok bytes names =>
      ok = false \/ (bytes <> 0%Z /\ existsb (String.eqb filename) names = false)
  | _ => True
  end.

(** *** wait_for_change, notify_change and stop as interleaved threads

    The threads share [running_] and [change_detected_].  Every write of
    [change_detected_] happens with [cv_mtx_] held, and the waiter holds
    [cv_mtx_] whenever it is not blocked inside [cv_.wait_for], so each
    constructor below is one atomic step. *)

Record Flags : Set := mkFlags {
  f_running : bool;
  f_change_detected : bool
}.

(** Where the thread inside [wait_for_change(timeout)] is. *)
Inductive WaiterPc : Set :=
| WEntry              (* before taking the lock *)
| WBlocked            (* inside cv_.wait_for, lock released *)
| WReturned (r : bool).

(** Where the thread inside [stop()] is. *)
Inductive StopPc : Set :=
| SEntry              (* before [if (!running_.load())] *)
| SLoaded             (* before [running_.store(false)] *)
| SStored             (* before the locked [change_detected_.store(true)] *)
| SFlagged            (* before [cv_.notify_all()] *)
| SNotified           (* before [stop_native()] and [join()] *)
| SReturned.

Record Sys : Set := mkSys {
  flags : Flags;
  waiter : WaiterPc;
  stopper : StopPc
}.

(** The scheduler's choices.  [WaiterStep timed_out]: the waiter runs; when
    it is blocked this is a wake-up (by notification, spuriously, or, with
    [timed_out], because the timeout elapsed).  [StopStep]: the thread in
    [stop()] runs its next step.  [WorkerNotify]: the worker runs the
    locked store of [notify_change()]. *)
Inductive Action : Set :=
| WaiterStep (timed_out : bool)
| StopStep
| WorkerNotify.

(** The predicate of both waits: [change_detected_ || !running_]. *)
Definition wait_pred (f : Flags) : bool :=
  f_change_detected f || negb (f_running f).

(** The tail of [wait_for_change] once [wait_for] has returned [result]. *)
Definition after_wait (result : bool) (f : Flags) : Flags * bool :=
  if result && f_change_detected f
  then (mkFlags (f_running f) false, true)
  else (f, false).

(** [cv_.wait_for(lock, timeout, pred)] at a wake-up, with the lock taken
    again: [None] when the thread blocks again, [Some result] when the
    wait returns (on a timeout it returns [pred()]). *)
Definition wait_for_point (timed_out : bool) (f : Flags) : option bool :=
  if wait_pred f then Some true
  else if timed_out then Some false
  else None.

Definition waiter_step (timed_out : bool) (pc : WaiterPc) (f : Flags)
  : option (WaiterPc * Flags) :=
  match pc with
  | WEntry =>
      if f_change_detected f
      then Some (WReturned true, mkFlags (f_running f) false)
      else if wait_pred f
      then (* [wait_for] tests the predicate before it blocks *)
        let '(f', r) := after_wait true f in Some (WReturned r, f')
      else Some (WBlocked, f)
  | WBlocked =>
      match wait_for_point timed_out f with
      | Some result => let '(f', r) := after_wait result f in Some (WReturned r, f')
      | None => Some (WBlocked, f)
      end
  | WReturned _ => None
  end.

Definition stop_step (pc : StopPc) (f : Flags) : option (StopPc * Flags) :=
  match pc with
  | SEntry => if negb (f_running f) then Some (SReturned, f) else Some (SLoaded, f)
  | SLoaded => Some (SStored, mkFlags false (f_change_detected f))
  | SStored => Some (SFlagged, mkFlags (f_running f) true)
  | SFlagged => Some (SNotified, f)
  | SNotified => Some (SReturned, f)
  | SReturned => None
  end.

(** One scheduled step; [None] when the chosen thread cannot move. *)
Definition step (a : Action) (s : Sys) : option Sys :=
  match a with
  | WaiterStep t =>
      match waiter_step t (waiter s) (flags s) with
      | Some (pc, f) => Some (mkSys f pc (stopper s))
      | None => None
      end
  | StopStep =>
      match stop_step (stopper s) (flags s) with
      | Some (pc, f) => Some (mkSys f (waiter s) pc)
      | None => None
      end
  | WorkerNotify =>
      Some (mkSys (mkFlags (f_running (flags s)) true) (waiter s) (stopper s))
  end.

Fixpoint run (sched : list Action) (s : Sys) : option Sys :=
  match sched with
  | [] => Some s
  | a :: sched' =>
      match step a s with
      | Some s' => run sched' s'
      | None => None
      end
  end.

(** *** The polling worker ([watch_polling]) *)

(** [std::filesystem::file_time_type::min()], the initial
    [last_modify_time]. *)
Definition last_write_time_min : Z := - 2 ^ 63.

Definition min_interval : Z := 10.
Definition max_interval : Z := 500.

(** The locals of [watch_polling] and what it has done so far: the number
    of [notify_change()] calls and the intervals handed to
    [cv_.wait_for], oldest first. *)
Record Poller : Set := mkPoller {
  last_modify_time : Z;
  poll_interval : Z;
  no_change_count : Z;
  poll_notifications : nat;
  poll_waits : list Z
}.

(** The locals as declared: [poll_interval{50}], [no_change_count = 0]. *)
Definition poller_start : Poller := mkPoller last_write_time_min 50 0 0 [].

(** One pass of the [while (running_.load())] loop.  The observation is
    what [last_write_time(file_path_, ec)] gives: [None] when [ec] is
    set.  [no_change_count] is an [int] in the source and is counted in
    [Z] here, so the model describes the runs in which it stays below
    [INT_MAX]. *)
Definition poll_iter (o : option Z) (p : Poller) : Poller :=
  let changed :=
    match o with
    | Some current_time => negb (current_time =? last_modify_time p)%Z
    | None => false
    end in
  if changed then
    mkPoller (default (last_modify_time p) o) min_interval 0
             (S (poll_notifications p)) (poll_waits p ++ [min_interval])%list
  else
    let count := (no_change_count p + 1)%Z in
    let interval :=
      if (10 <? count)%Z && (poll_interval p <? max_interval)%Z
      then Z.min (poll_interval p * 2) max_interval
      else poll_interval p in
    mkPoller (last_modify_time p) interval count (poll_notifications p)
             (poll_waits p ++ [interval])%list.

(** The loop over the successive observations; the end of the list stands
    for [running_] having become false. *)
Definition poll_loop (os : list (option Z)) (p : Poller) : Poller :=
  fold_left (fun p o => poll_iter o p) os p.

(** The interval that [k] polls without a change lead to, starting from
    [start]: unchanged for the first ten, then doubled at every poll up to
    [max_interval]. *)
Definition quiet_interval (start : Z) (k : nat) : Z :=
  if (k <=? 10)%nat then start
  else Z.min (start * 2 ^ Z.of_nat (k - 10)) max_interval.

(** A poll that sees no change with respect to the modify-time [t] seen
    last: the stat failed, or it gave [t] again. *)
Definition quiet_for (t : Z) (o : option Z) : Prop := o = None \/ o = Some t.

(** Schedules in which only the waiting thread runs. *)
Definition is_waiter_step (a : Action) : bool :=
  match a with WaiterStep _ => true | _ => false end.

End Watcher.

(** ** What the C and C++ standard libraries provide

    [strtod], [std::to_string(double)] and the stream extraction
    [operator>>] belong to the platform, not to this repository.  The
    embedding takes them as an interface. *)

Class LibC : Type := mkLibC {
  (** the values of type [double] *)
  double : Type;
  (** [strtod(s, &endp)]: the value and the number of characters used *)
  strtod : string -> double * nat;
  (** [std::to_string(double)] *)
  double_to_string : double -> string;
  (** [std::isnan] and [std::isinf] on a [double] *)
  isnan : double -> bool;
  isinf : double -> bool;
  (** the values of type [float] *)
  float : Type;
  (** [iss >> temp] on a fresh [std::istringstream] over the argument, for
      [float], [double] and [int]: the value read and the characters left
      in the stream, or [None] when the extraction fails *)
  extract_float : string -> option (float * string);
  extract_double : string -> option (double * string);
  extract_int : string -> option (Z * string)
}.

(** Characters as the [int] values [getc] returns, and back
    ([static_cast<char>]). *)
Definition code (a : ascii) : Z := Z.of_N (N_of_ascii a).
Definition to_char (z : Z) : ascii := ascii_of_N (Z.to_N (z mod 256)).
Definition push_back (s : string) (c : ascii) : string := s ++ String c "".

(** ** Exceptions

    How a call ends: it returns a result, or an exception leaves it.  The
    exception that crosses the functions below without being caught is the
    [std::overflow_error] that picojson's [value::value(double)] throws
    when it is given a NaN or an infinity. *)
Inductive Completion (A : Type) : Type :=
| Returns (a : A)
| Throws.

Arguments Returns {A} a.
Arguments Throws {A}.

(** ** Vendored picojson: [input], the [_parse_*] functions, [parse] *)

Module picojson.
Section WithLibC.
Context `{LibC}.

(** [class value]: the tagged union, without [PICOJSON_USE_INT64]. *)
#[warnings="-register-all"]
Inductive value : Type :=
| null
| boolean (b : bool)
| number (n : double)
| string_ (s : string)
| array (a : list value)
| object (o : gmap string value).

Definition DEFAULT_MAX_DEPTHS : Z := 100.

(** [class input<Iter>]: [cur_] is the range from the iterator [cur_] to
    [end_]. *)
Record input : Set := mkInput {
  cur_ : list ascii;
  consumed_ : bool;
  line_ : Z
}.

Definition input_new (s : string) : input :=
  mkInput (list_ascii_of_string s) false 1.

Definition getc (i : input) : Z * input :=
  let i1 :=
    if consumed_ i then
      match cur_ i with
      | c :: rest =>
          mkInput rest true (if (code c =? 10)%Z then line_ i + 1 else line_ i)
      | [] => i
      end
    else i in
  match cur_ i1 with
  | [] => (-1, mkInput [] false (line_ i1))
  | c :: _ => (code c, mkInput (cur_ i1) true (line_ i1))
  end.

Definition ungetc (i : input) : input :=
  mkInput (cur_ i) false (line_ i).

(** The characters not read yet. *)
Definition unread (i : input) : nat :=
  if consumed_ i then pred (length (cur_ i)) else length (cur_ i).

Definition is_ws (ch : Z) : bool :=
  (ch =? 32)%Z || (ch =? 9)%Z || (ch =? 10)%Z || (ch =? 13)%Z.

(** [skip_ws]: the [while (1)] loop, run for at most [fuel] rounds. *)
Fixpoint skip_ws_loop (fuel : nat) (i : input) : option input :=
  match fuel with
  | O => None
  | S f =>
      let '(ch, i1) := getc i in
      if is_ws ch then skip_ws_loop f i1 else Some (ungetc i1)
  end.

Definition skip_ws (i : input) : option input :=
  skip_ws_loop (S (length (cur_ i))) i.

Definition expect (expected : Z) (i : input) : option (bool * input) :=
  match skip_ws i with
  | None => None
  | Some i1 =>
      let '(ch, i2) := getc i1 in
      if (ch =? expected)%Z then Some (true, i2) else Some (false, ungetc i2)
  end.

(** [match(pattern)]. *)
Fixpoint match_ (pattern : list ascii) (i : input) : bool * input :=
  match pattern with
  | [] => (true, i)
  | p :: ps =>
      let '(ch, i1) := getc i in
      if (ch =? code p)%Z then match_ ps i1 else (false, ungetc i1)
  end.

(** [_parse_quadhex]: the [for (i = 0; i < 4; i++)] loop. *)
Fixpoint quadhex_loop (n : nat) (uni_ch : Z) (i : input) : Z * input :=
  match n with
  | O => (uni_ch, i)
  | S n' =>
      let '(hex, i1) := getc i in
      if (hex =? -1)%Z then (-1, i1)
      else if (48 <=? hex)%Z && (hex <=? 57)%Z then
        quadhex_loop n' (uni_ch * 16 + (hex - 48)) i1
      else if (65 <=? hex)%Z && (hex <=? 70)%Z then
        quadhex_loop n' (uni_ch * 16 + (hex - (65 - 10))) i1
      else if (97 <=? hex)%Z && (hex <=? 102)%Z then
        quadhex_loop n' (uni_ch * 16 + (hex - (97 - 10))) i1
      else (-1, ungetc i1)
  end.

Definition _parse_quadhex (i : input) : Z * input := quadhex_loop 4 0 i.

(** The UTF-8 encoding at the end of [_parse_codepoint]. *)
Definition push_utf8 (out : string) (uni_ch : Z) : string :=
  if (uni_ch <? 128)%Z then push_back out (to_char uni_ch)
  else
    let out1 :=
      if (uni_ch <? 2048)%Z then
        push_back out (to_char (Z.lor 192 (Z.shiftr uni_ch 6)))
      else
        let out2 :=
          if (uni_ch <? 65536)%Z then
            push_back out (to_char (Z.lor 224 (Z.shiftr uni_ch 12)))
          else
            push_back
              (push_back out (to_char (Z.lor 240 (Z.shiftr uni_ch 18))))
              (to_char (Z.lor 128 (Z.land (Z.shiftr uni_ch 12) 63))) in
        push_back out2 (to_char (Z.lor 128 (Z.land (Z.shiftr uni_ch 6) 63))) in
    push_back out1 (to_char (Z.lor 128 (Z.land uni_ch 63))).

Definition _parse_codepoint (out : string) (i : input) : bool * string * input :=
  let '(uni_ch, i1) := _parse_quadhex i in
  if (uni_ch =? -1)%Z then (false, out, i1)
  else if (55296 <=? uni_ch)%Z && (uni_ch <=? 57343)%Z then
    if (56320 <=? uni_ch)%Z then (false, out, i1)
    else
      let '(c1, i2) := getc i1 in
      if negb (c1 =? 92)%Z then (false, out, ungetc i2)
      else
        let '(c2, i3) := getc i2 in
        if negb (c2 =? 117)%Z then (false, out, ungetc i3)
        else
          let '(second, i4) := _parse_quadhex i3 in
          if negb ((56320 <=? second)%Z && (second <=? 57343)%Z) then (false, out, i4)
          else
            let u := Z.lor (Z.shiftl (uni_ch - 55296) 10)
                           (Z.land (second - 56320) 1023) + 65536 in
            (true, push_utf8 out u, i4)
  else (true, push_utf8 out uni_ch, i1).

(** The [switch] over the character after a backslash, [u] apart. *)
Definition escape (ch : Z) : option ascii :=
  if (ch =? 34)%Z then Some (to_char 34)
  else if (ch =? 92)%Z then Some (to_char 92)
  else if (ch =? 47)%Z then Some (to_char 47)
  else if (ch =? 98)%Z then Some (to_char 8)
  else if (ch =? 102)%Z then Some (to_char 12)
  else if (ch =? 110)%Z then Some (to_char 10)
  else if (ch =? 114)%Z then Some (to_char 13)
  else if (ch =? 116)%Z then Some (to_char 9)
  else None.

Fixpoint _parse_string_loop (fuel : nat) (out : string) (i : input)
  : option (bool * string * input) :=
  match fuel with
  | O => None
  | S f =>
      let '(ch, i1) := getc i in
      if (ch <? 32)%Z then Some (false, out, ungetc i1)
      else if (ch =? 34)%Z then Some (true, out, i1)
      else if (ch =? 92)%Z then
        let '(ch2, i2) := getc i1 in
        if (ch2 =? -1)%Z then Some (false, out, i2)
        else match escape ch2 with
        | Some c => _parse_string_loop f (push_back out c) i2
        | None =>
            if (ch2 =? 117)%Z then
              let '(ok, out', i3) := _parse_codepoint out i2 in
              if ok then _parse_string_loop f out' i3 else Some (false, out', i3)
            else Some (false, out, i2)
        end
      else _parse_string_loop f (push_back out (to_char ch)) i1
  end.

Definition _parse_string (out : string) (i : input) : option (bool * string * input) :=
  _parse_string_loop (S (length (cur_ i))) out i.

Definition is_number_char (ch : Z) : bool :=
  ((48 <=? ch)%Z && (ch <=? 57)%Z) || (ch =? 43)%Z || (ch =? 45)%Z
  || (ch =? 101)%Z || (ch =? 69)%Z || (ch =? 46)%Z.

Fixpoint _parse_number_loop (fuel : nat) (num_str : string) (i : input)
  : option (string * input) :=
  match fuel with
  | O => None
  | S f =>
      let '(ch, i1) := getc i in
      if is_number_char ch then _parse_number_loop f (push_back num_str (to_char ch)) i1
      else Some (num_str, ungetc i1)
  end.

Definition _parse_number (i : input) : option (string * input) :=
  _parse_number_loop (S (length (cur_ i))) "" i.

(** [value::value(double n)]: [std::overflow_error] for a NaN or an
    infinity, the number otherwise. *)
Definition value_of_double (n : double) : Completion value :=
  if isnan n || isinf n then Throws else Returns (number n).

(** The parser of one nested value, as [parse_array_item] and
    [parse_object_item] hand it to [_parse]: from the slot's old value and
    the input to the verdict, the slot's new value and the input, unless
    an exception leaves the call. *)
Definition item_parser : Type :=
  value -> input -> option (Completion (bool * value * input)).

(** The [do ... while (in.expect(','))] loop of [_parse_array] with the
    final [in.expect(']') && ctx.parse_array_stop(idx)]. *)
Fixpoint array_items (item : item_parser) (fuel : nat) (a : list value) (i : input)
  : option (Completion (bool * value * input)) :=
  match fuel with
  | O => None
  | S f =>
      (* parse_array_item: a.push_back(value()), then _parse on a.back() *)
      match item null i with
      | None => None
      | Some Throws => Some Throws
      | Some (Returns (ok, v, i1)) =>
          let a' := (a ++ [v])%list in
          if negb ok then Some (Returns (false, array a', i1))
          else match expect 44 i1 with
          | None => None
          | Some (true, i2) => array_items item f a' i2
          | Some (false, i2) =>
              match expect 93 i2 with
              | None => None
              | Some (b, i3) => Some (Returns (b, array a', i3))
              end
          end
      end
  end.

(** [_parse_array] on a [default_parse_context] with [depths_ = depths]
    whose [*out_] holds [out]; [item d] parses an item in a context of
    depth [d]. *)
Definition _parse_array (item : Z -> item_parser) (depths : Z) (out : value)
    (i : input) : option (Completion (bool * value * input)) :=
  (* parse_array_start *)
  if (depths =? 0)%Z then Some (Returns (false, out, i))
  else
    let depths1 := depths - 1 in
    match expect 93 i with
    | None => None
    | Some (true, i1) => Some (Returns (true, array [], i1))
    | Some (false, i1) =>
        array_items (item depths1) (S (length (cur_ i1))) [] i1
    end.

(** The [do ... while (in.expect(','))] loop of [_parse_object]. *)
Fixpoint object_items (item : item_parser) (fuel : nat) (o : gmap string value)
    (i : input) : option (Completion (bool * value * input)) :=
  match fuel with
  | O => None
  | S f =>
      match expect 34 i with
      | None => None
      | Some (false, i1) => Some (Returns (false, object o, i1))
      | Some (true, i1) =>
          match _parse_string "" i1 with
          | None => None
          | Some (false, _, i2) => Some (Returns (false, object o, i2))
          | Some (true, key, i2) =>
              match expect 58 i2 with
              | None => None
              | Some (false, i3) => Some (Returns (false, object o, i3))
              | Some (true, i3) =>
                  (* parse_object_item: _parse on o[key] *)
                  match item (default null (o !! key)) i3 with
                  | None => None
                  | Some Throws => Some Throws
                  | Some (Returns (ok, v, i4)) =>
                      let o' := <[key := v]> o in
                      if negb ok then Some (Returns (false, object o', i4))
                      else match expect 44 i4 with
                      | None => None
                      | Some (true, i5) => object_items item f o' i5
                      | Some (false, i5) =>
                          match expect 125 i5 with
                          | None => None
                          | Some (b, i6) => Some (Returns (b, object o', i6))
                          end
                      end
                  end
              end
          end
      end
  end.

(** [_parse_object]; [parse_object_start] tests [depths_] and does not
    lower it. *)
Definition _parse_object (item : Z -> item_parser) (depths : Z) (out : value)
    (i : input) : option (Completion (bool * value * input)) :=
  if (depths =? 0)%Z then Some (Returns (false, out, i))
  else
    match expect 125 i with
    | None => None
    | Some (true, i1) => Some (Returns (true, object ∅, i1))
    | Some (false, i1) =>
        object_items (item depths) (S (length (cur_ i1))) ∅ i1
    end.

(** [_parse(ctx, in)]; [fuel] bounds the nesting of recursive calls.  In
    the number branch [ctx.set_number(f)] builds [value(f)], which throws
    for a NaN or an infinity; nothing in picojson catches that. *)
Fixpoint _parse (fuel : nat) (depths : Z) (out : value) (i : input)
  : option (Completion (bool * value * input)) :=
  match fuel with
  | O => None
  | S f =>
      match skip_ws i with
      | None => None
      | Some i0 =>
          let '(ch, i1) := getc i0 in
          if (ch =? 110)%Z then
            let '(m, i2) := match_ (list_ascii_of_string "ull") i1 in
            Some (Returns (if m then (true, null, i2) else (false, out, i2)))
          else if (ch =? 102)%Z then
            let '(m, i2) := match_ (list_ascii_of_string "alse") i1 in
            Some (Returns (if m then (true, boolean false, i2) else (false, out, i2)))
          else if (ch =? 116)%Z then
            let '(m, i2) := match_ (list_ascii_of_string "rue") i1 in
            Some (Returns (if m then (true, boolean true, i2) else (false, out, i2)))
          else if (ch =? 34)%Z then
            match _parse_string "" i1 with
            | None => None
            | Some (ok, s, i2) => Some (Returns (ok, string_ s, i2))
            end
          else if (ch =? 91)%Z then _parse_array (_parse f) depths out i1
          else if (ch =? 123)%Z then _parse_object (_parse f) depths out i1
          else if ((48 <=? ch)%Z && (ch <=? 57)%Z) || (ch =? 45)%Z then
            match _parse_number (ungetc i1) with
            | None => None
            | Some (num_str, i2) =>
                if String.eqb num_str "" then Some (Returns (false, out, i2))
                else
                  let '(f, used) := strtod num_str in
                  if Nat.eqb used (String.length num_str)
                  then
                    (* ctx.set_number(f): *out_ = value(f) *)
                    match value_of_double f with
                    | Throws => Some Throws
                    | Returns v => Some (Returns (true, v, i2))
                    end
                  else Some (Returns (false, out, i2))
            end
          else Some (Returns (false, out, ungetc i1))
      end
  end.

(** The tail of the error message: the rest of the current line. *)
Fixpoint near_loop (fuel : nat) (err : string) (i : input) : option (string * input) :=
  match fuel with
  | O => None
  | S f =>
      let '(ch, i1) := getc i in
      if (ch =? -1)%Z || (ch =? 10)%Z then Some (err, i1)
      else if (32 <=? ch)%Z then near_loop f (push_back err (to_char ch)) i1
      else near_loop f err i1
  end.

(** [std::string parse(value &out, const std::string &s)]: the error
    message (empty on success) and the value left in [out], which starts
    as [null]; the exception of [_parse] goes through. *)
Definition parse (s : string) : option (Completion (string * value)) :=
  let i := input_new s in
  match _parse (S (String.length s)) DEFAULT_MAX_DEPTHS null i with
  | None => None
  | Some Throws => Some Throws
  | Some (Returns (true, v, _)) => Some (Returns ("", v))
  | Some (Returns (false, v, i1)) =>
      match near_loop (S (S (length (cur_ i1))))
                      ("syntax error at line " ++ pretty (line_ i1) ++ " near: ") i1 with
      | None => None
      | Some (err, _) => Some (Returns (err, v))
      end
  end.

(** *** Serialisation of strings

    [snprintf(buf, sizeof(buf), "\\u%04x", c & 0xff)]: the four hexadecimal
    digits of [n], in lower case. *)
Definition hex_digit (d : Z) : ascii :=
  if (d <? 10)%Z then to_char (48 + d) else to_char (87 + d).

Definition hex4 (n : Z) : string :=
  String (hex_digit (n / 4096 mod 16))
    (String (hex_digit (n / 256 mod 16))
       (String (hex_digit (n / 16 mod 16))
          (String (hex_digit (n mod 16)) ""))).

(** A backslash followed by the character of code [n]. *)
Definition backslashed (n : Z) (tail : string) : string :=
  String (to_char 92) (String (to_char n) tail).

(** [serialize_str_char::operator()(char c)]: what it copies to [oi]. *)
Definition serialize_str_char (c : ascii) : string :=
  let n := code c in
  if (n =? 34)%Z then backslashed 34 ""
  else if (n =? 92)%Z then backslashed 92 ""
  else if (n =? 47)%Z then backslashed 47 ""
  else if (n =? 8)%Z then backslashed 98 ""
  else if (n =? 12)%Z then backslashed 102 ""
  else if (n =? 10)%Z then backslashed 110 ""
  else if (n =? 13)%Z then backslashed 114 ""
  else if (n =? 9)%Z then backslashed 116 ""
  else if (n <? 32)%Z || (n =? 127)%Z then backslashed 117 (hex4 n)
  else String c "".

(** The [std::for_each] of [serialize_str]. *)
Fixpoint serialize_str_chars (s : string) : string :=
  match s with
  | EmptyString => EmptyString
  | String c s' => serialize_str_char c ++ serialize_str_chars s'
  end.

(** [serialize_str(s, oi)], which is also what [serialize()] gives for a
    value holding the string [s]. *)
Definition serialize_str (s : string) : string :=
  String (to_char 34) (serialize_str_chars s ++ String (to_char 34) "").

(** The characters that [getc] has still to hand out. *)
Definition pending (i : input) : list ascii :=
  if consumed_ i then tl (cur_ i) else cur_ i.

(** An [input] is well formed when a consumed character is really there. *)
Definition wf (i : input) : Prop := consumed_ i = true -> cur_ i <> [].

(** A result that keeps the input well formed, uses up no more than what
    was unread, and uses up something when the verdict is [true]; nothing
    is asked of a call that an exception has left. *)
Definition advances (i : input) (c : Completion (bool * value * input)) : Prop :=
  match c with
  | Returns r =>
      wf (snd r) /\ (unread (snd r) <= unread i)%nat /\
      (fst (fst r) = true -> (unread (snd r) < unread i)%nat)
  | Throws => True
  end.

(** An item parser that answers, and advances, on every input with at most
    [n] characters unread. *)
Definition total_below (n : nat) (item : item_parser) : Prop :=
  forall out i, wf i -> (unread i <= n)%nat ->
    exists r, item out i = Some r /\ advances i r.

End WithLibC.
End picojson.

(** ** File formats, [trim], [parse_value] and the two flat parsers *)

Module Parsers.

Inductive FileFormat : Set := Auto | Plain | KeyValue | Json | Yaml.

(** [std::tolower] in the C locale, on one [unsigned char]. *)
Definition tolower (c : ascii) : ascii :=
  let n := code c in
  if (65 <=? n)%Z && (n <=? 90)%Z then to_char (n + 32) else c.

Fixpoint lower (s : string) : string :=
  match s with
  | EmptyString => EmptyString
  | String c s' => String (tolower c) (lower s')
  end.

(** [s.find(c)]: the first position of [c], [None] for [npos]. *)
Fixpoint find (c : ascii) (s : string) : option nat :=
  match s with
  | EmptyString => None
  | String d s' =>
      if Ascii.eqb c d then Some O
      else match find c s' with Some n => Some (S n) | None => None end
  end.

(** [s.rfind(c)]. *)
Fixpoint rfind (c : ascii) (s : string) : option nat :=
  match s with
  | EmptyString => None
  | String d s' =>
      match rfind c s' with
      | Some n => Some (S n)
      | None => if Ascii.eqb c d then Some O else None
      end
  end.

(** [s.substr(pos)] and [s.substr(pos, len)]. *)
Fixpoint substr_from (pos : nat) (s : string) : string :=
  match pos, s with
  | O, _ => s
  | S n, String _ s' => substr_from n s'
  | S _, EmptyString => EmptyString
  end.

Definition substr (pos len : nat) (s : string) : string := String.substring pos len s.

Definition front (s : string) : option ascii :=
  match s with String c _ => Some c | EmptyString => None end.

Fixpoint back (s : string) : option ascii :=
  match s with
  | EmptyString => None
  | String c EmptyString => Some c
  | String _ s' => back s'
  end.

Definition is_char (c : ascii) (o : option ascii) : bool :=
  match o with Some d => Ascii.eqb c d | None => false end.

(** [path(p).extension().string()] for a generic-format path: from the
    last dot of the file name, empty when the name has no dot, starts with
    its only dot, or is [.] or [..]. *)
Definition filename (p : string) : string :=
  match rfind "/"%char p with Some n => substr_from (S n) p | None => p end.

Definition extension (p : string) : string :=
  let f := filename p in
  if String.eqb f "." || String.eqb f ".." then ""
  else match rfind "."%char f with
       | Some O => ""
       | Some n => substr_from n f
       | None => ""
       end.

Definition detect_format (path : string) : FileFormat :=
  let ext := lower (extension path) in
  if String.eqb ext ".json" then Json
  else if String.eqb ext ".yaml" || String.eqb ext ".yml" then Yaml
  else if String.eqb ext ".ini" || String.eqb ext ".cfg" || String.eqb ext ".conf"
  then KeyValue
  else if String.eqb ext ".txt" then Plain
  else KeyValue.

(** The character set [" \t\r\n"] of [trim]. *)
Definition is_trim_char (c : ascii) : bool :=
  let n := code c in (n =? 32)%Z || (n =? 9)%Z || (n =? 13)%Z || (n =? 10)%Z.

(** [find_first_not_of] and [find_last_not_of] for that set. *)
Fixpoint find_first_not_of (s : string) : option nat :=
  match s with
  | EmptyString => None
  | String c s' =>
      if is_trim_char c
      then match find_first_not_of s' with Some n => Some (S n) | None => None end
      else Some O
  end.

Fixpoint find_last_not_of (s : string) : option nat :=
  match s with
  | EmptyString => None
  | String c s' =>
      match find_last_not_of s' with
      | Some n => Some (S n)
      | None => if is_trim_char c then None else Some O
      end
  end.

Definition trim (str : string) : string :=
  match find_first_not_of str with
  | None => ""
  | Some start =>
      match find_last_not_of str with
      | Some end_ => substr start (end_ - start + 1) str
      | None => ""
      end
  end.

(** Strings made of characters of that set only. *)
Fixpoint all_trim_chars (s : string) : bool :=
  match s with
  | EmptyString => true
  | String c s' => is_trim_char c && all_trim_chars s'
  end.

(** A string that [trim] has nothing to remove from: empty, or with a
    character outside the set at both ends. *)
Definition trimmed (s : string) : bool :=
  match front s, back s with
  | Some c, Some d => negb (is_trim_char c) && negb (is_trim_char d)
  | _, _ => true
  end.

(** [std::isspace] in the C locale, and what [iss >> remaining] leaves in
    [remaining]: the next blank-delimited word, empty when the stream has
    none (the extraction fails and [remaining] keeps its initial value). *)
Definition isspace (c : ascii) : bool :=
  let n := code c in ((9 <=? n)%Z && (n <=? 13)%Z) || (n =? 32)%Z.

Fixpoint take_word (s : string) : string :=
  match s with
  | EmptyString => EmptyString
  | String c s' => if isspace c then EmptyString else String c (take_word s')
  end.

Fixpoint extract_word (s : string) : string :=
  match s with
  | EmptyString => EmptyString
  | String c s' => if isspace c then extract_word s' else take_word s
  end.

(** The primary template of [parse_value<T>], over the extraction
    [iss >> temp] of its type; [None] is [return false], which leaves
    [value] alone. *)
Definition parse_value_stream {T : Type} (extract : string -> option (T * string))
    (str : string) : option T :=
  match extract str with
  | Some (temp, rest) =>
      if String.eqb (extract_word rest) "" then Some temp else None
  | None => None
  end.

(** [parse_value<bool>]. *)
Definition parse_value_bool (str : string) : option bool :=
  let l := lower str in
  if String.eqb l "true" || String.eqb l "yes" || String.eqb l "1" || String.eqb l "on"
  then Some true
  else if String.eqb l "false" || String.eqb l "no" || String.eqb l "0"
          || String.eqb l "off"
  then Some false
  else None.

(** The double-quote character. *)
Definition dquote : ascii := Ascii.ascii_of_nat 34.

(** Removal of one pair of enclosing quotes, as written in
    [parse_value<std::string>] and in [SimpleKeyValueParser::parse]. *)
Definition unquote (str : string) : string :=
  if (2 <=? String.length str)%nat
     && ((is_char dquote (front str) && is_char dquote (back str))
         || (is_char "'"%char (front str) && is_char "'"%char (back str)))
  then substr 1 (String.length str - 2) str
  else str.

(** [parse_value<std::string>]. *)
Definition parse_value_string (str : string) : option string := Some (unquote str).

(** The line delimiter of [std::getline]. *)
Definition newline : ascii := to_char 10.

(** The successive lines that [while (std::getline(stream, line))] sees:
    the pieces between newlines, without a last empty piece. *)
Fixpoint getlines (line : string) (stream : string) : list string :=
  match stream with
  | EmptyString => if String.eqb line "" then [] else [line]
  | String c s' =>
      if (code c =? 10)%Z then line :: getlines "" s'
      else getlines (push_back line c) s'
  end.

Module SimpleKeyValueParser.

(** The body of the [while] loop on one line. *)
Definition parse_line (yaml_style : bool) (result : gmap string string)
    (line0 : string) : gmap string string :=
  let line := trim line0 in
  if String.eqb line "" || is_char "#"%char (front line) || is_char ";"%char (front line)
  then result
  else if String.eqb line "---" || String.eqb line "..." then result
  else if is_char "["%char (front line) && is_char "]"%char (back line) then result
  else
    let sep_pos :=
      if yaml_style then find ":"%char line
      else match find "="%char line with
           | Some p => Some p
           | None => find ":"%char line
           end in
    match sep_pos with
    | Some p =>
        let key := trim (substr 0 p line) in
        let value := unquote (trim (substr_from (p + 1) line)) in
        if negb (String.eqb key "") then <[key := value]> result else result
    | None => result
    end.

(** [static bool parse(content, result, yaml_style)]: the returned flag
    and the map left in [result]. *)
Definition parse (content : string) (yaml_style : bool) : bool * gmap string string :=
  let result := fold_left (parse_line yaml_style) (getlines "" content) ∅ in
  (negb (bool_decide (result = ∅)), result).

(** The separator that [parse] looks for first. *)
Definition separator (yaml_style : bool) : ascii :=
  if yaml_style then ":"%char else "="%char.

(** The shape of the keys that [parse] stores: not empty, nothing left to
    trim, not starting like a comment, and without the separator. *)
Definition good_key (yaml_style : bool) (k : string) : Prop :=
  k <> "" /\ trimmed k = true /\
  is_char "#"%char (front k) = false /\ is_char ";"%char (front k) = false /\
  find (separator yaml_style) k = None.

End SimpleKeyValueParser.

End Parsers.

(** [class PicojsonParser]: a flat JSON object as a name-to-text map. *)

Module PicojsonParser.
Section WithLibC.
Context `{LibC}.

(** The body of the [for (const auto& kv : obj)] loop. *)
Definition add_member (result : gmap string string) (kv : string * picojson.value)
  : gmap string string :=
  match snd kv with
  | picojson.string_ s => <[fst kv := s]> result
  | picojson.number n => <[fst kv := double_to_string n]> result
  | picojson.boolean b => <[fst kv := if b then "true" else "false"]> result
  | picojson.null => <[fst kv := ""]> result
  | _ => result   (* Skip nested objects and arrays *)
  end.

(** The text stored for a member: none for a nested object or array. *)
Definition member_text (v : picojson.value) : option string :=
  match v with
  | picojson.string_ s => Some s
  | picojson.number n => Some (double_to_string n)
  | picojson.boolean b => Some (if b then "true" else "false")
  | picojson.null => Some ""
  | _ => None
  end.

(** [static bool parse(content, result)]: the flag and [result], unless
    picojson's exception leaves the call, which has no handler for it.
    [None] only if picojson's loops ran out of fuel (they do not: see
    [picojson_parse_total]). *)
Definition parse (content : string) : option (Completion (bool * gmap string string)) :=
  match picojson.parse content with
  | None => None
  | Some Throws => Some Throws
  | Some (Returns (err, v)) =>
      match v with
      | picojson.object obj =>
          if negb (String.eqb err "") then Some (Returns (false, ∅))
          else
            let result := fold_left add_member (map_to_list obj) ∅ in
            Some (Returns (negb (bool_decide (result = ∅)), result))
      | _ => Some (Returns (false, ∅))
      end
  end.

End WithLibC.
End PicojsonParser.

(** ** The orchestrator: [class Params] *)

Module ParamsImpl.
Import Err Parsers.
Section WithLibC.
Context `{LibC}.

(** The variables a program binds live in a store; an address stands for
    the [T*] kept in a binding. *)
Inductive Val : Type :=
| VBool (b : bool)
| VString (s : string)
| VInt (z : Z)
| VFloat (f : float)
| VDouble (d : double).

Definition addr : Set := nat.
Abbreviation Store := (gmap nat Val).

(** The types [T] that [bind<T>] is used at: [parse_value<T>] (the
    specialisation for [bool] and [std::string], the primary template
    otherwise) and the place of [T] in the store. *)
Class Tunable (T : Type) : Type := mkTunable {
  parse_value : string -> option T;
  to_val : T -> Val
}.

#[export] Instance Tunable_bool : Tunable bool :=
  {| parse_value := parse_value_bool; to_val := VBool |}.
#[export] Instance Tunable_string : Tunable string :=
  {| parse_value := parse_value_string; to_val := VString |}.
#[export] Instance Tunable_int : Tunable Z :=
  {| parse_value := parse_value_stream extract_int; to_val := VInt |}.
#[export] Instance Tunable_float : Tunable float | 10 :=
  {| parse_value := parse_value_stream extract_float; to_val := VFloat |}.
#[export] Instance Tunable_double : Tunable double | 20 :=
  {| parse_value := parse_value_stream extract_double; to_val := VDouble |}.

(** [struct BindingBase]: the two virtual functions, acting on the store. *)
Record BindingBase : Type := mkBindingBase {
  bb_update : string -> Store -> bool * Store;
  bb_apply_default : Store -> Store
}.

(** [struct Binding<T>] with its overrides. *)
Definition Binding {T : Type} `{Tunable T} (target : addr) (default_value : T)
  : BindingBase :=
  {| bb_update := fun str_value st =>
       match parse_value str_value with
       | Some v => (true, <[target := to_val v]> st)
       | None => (false, st)
       end;
     bb_apply_default := fun st => <[target := to_val default_value]> st |}.

(** [struct FileCache]; times are clock ticks, one tick a nanosecond. *)
Record FileCache : Set := mkFileCache {
  last_modify_time : Z;
  last_access : Z;
  file_exists : bool
}.

Definition cache_duration : Z := 10 * 1000000.

(** [std::filesystem::file_time_type::min()]. *)
Definition file_time_min : Z := - 2 ^ 63.

Definition FileCache_initial : FileCache := mkFileCache file_time_min 0 false.

(** The change callback, by what it does to the bound variables; the
    flag tells whether it ended by throwing.  Calls from inside the
    callback back into the same [Params] are not part of the embedding. *)
Definition Callback : Type := Store -> Store * bool.

Record Params : Type := mkParams {
  file_path_ : string;
  format_ : FileFormat;
  file_cache_ : FileCache;
  bindings_ : gmap string BindingBase;
  current_values_ : gmap string string;
  file_watcher_config_ : Watcher.FileWatcherConfig Store;
  file_read_retry_config_ : Retry.FileReadRetryConfig;
  use_event_driven_ : bool;
  file_changed_ : bool;
  last_error_ : ErrorInfo;
  on_change_callback_ : option Callback;
  in_callback_ : bool
}.

(** [explicit Params(std::string_view file_path, FileFormat format)]. *)
Definition Params_new (file_path : string) (format : FileFormat) : Params :=
  {| file_path_ := file_path;
     format_ := match format with Auto => detect_format file_path | f => f end;
     file_cache_ := FileCache_initial;
     bindings_ := ∅;
     current_values_ := ∅;
     file_watcher_config_ := Watcher.FileWatcherConfig_default;
     file_read_retry_config_ := Retry.FileReadRetryConfig_default;
     use_event_driven_ := true;
     file_changed_ := false;
     last_error_ := ErrorInfo_default;
     on_change_callback_ := None;
     in_callback_ := false |}.

Definition with_file_cache (p : Params) (c : FileCache) : Params :=
  mkParams (file_path_ p) (format_ p) c (bindings_ p) (current_values_ p)
    (file_watcher_config_ p) (file_read_retry_config_ p) (use_event_driven_ p)
    (file_changed_ p) (last_error_ p) (on_change_callback_ p) (in_callback_ p).

Definition with_bindings (p : Params) (b : gmap string BindingBase) : Params :=
  mkParams (file_path_ p) (format_ p) (file_cache_ p) b (current_values_ p)
    (file_watcher_config_ p) (file_read_retry_config_ p) (use_event_driven_ p)
    (file_changed_ p) (last_error_ p) (on_change_callback_ p) (in_callback_ p).

Definition with_current_values (p : Params) (v : gmap string string) : Params :=
  mkParams (file_path_ p) (format_ p) (file_cache_ p) (bindings_ p) v
    (file_watcher_config_ p) (file_read_retry_config_ p) (use_event_driven_ p)
    (file_changed_ p) (last_error_ p) (on_change_callback_ p) (in_callback_ p).

Definition with_watcher_config (p : Params) (c : Watcher.FileWatcherConfig Store)
  : Params :=
  mkParams (file_path_ p) (format_ p) (file_cache_ p) (bindings_ p) (current_values_ p)
    c (file_read_retry_config_ p) (use_event_driven_ p)
    (file_changed_ p) (last_error_ p) (on_change_callback_ p) (in_callback_ p).

Definition with_file_changed (p : Params) (b : bool) : Params :=
  mkParams (file_path_ p) (format_ p) (file_cache_ p) (bindings_ p) (current_values_ p)
    (file_watcher_config_ p) (file_read_retry_config_ p) (use_event_driven_ p)
    b (last_error_ p) (on_change_callback_ p) (in_callback_ p).

Definition with_last_error (p : Params) (e : ErrorInfo) : Params :=
  mkParams (file_path_ p) (format_ p) (file_cache_ p) (bindings_ p) (current_values_ p)
    (file_watcher_config_ p) (file_read_retry_config_ p) (use_event_driven_ p)
    (file_changed_ p) e (on_change_callback_ p) (in_callback_ p).

Definition with_callback (p : Params) (c : option Callback) : Params :=
  mkParams (file_path_ p) (format_ p) (file_cache_ p) (bindings_ p) (current_values_ p)
    (file_watcher_config_ p) (file_read_retry_config_ p) (use_event_driven_ p)
    (file_changed_ p) (last_error_ p) c (in_callback_ p).

Definition with_in_callback (p : Params) (b : bool) : Params :=
  mkParams (file_path_ p) (format_ p) (file_cache_ p) (bindings_ p) (current_values_ p)
    (file_watcher_config_ p) (file_read_retry_config_ p) (use_event_driven_ p)
    (file_changed_ p) (last_error_ p) (on_change_callback_ p) b.

(** What a call does to the outside, in program order.  [EvCallback t st]
    is the invocation of the change callback, made by thread [t] when the
    bound variables hold [st]. *)
Definition ThreadId : Set := nat.

Inductive Event : Type :=
| EvLog (level : LogLevel) (msg : string)
| EvSleep (ms : Z)
| EvWriteFile (path bytes : string)
| EvBindingUpdate (name : string) (ok : bool)
| EvApplyDefault (name : string)
| EvCallback (thread : ThreadId) (seen : Store).

(** What the outside answers during one call of [update()]. *)
Record UpdateObs : Set := mkUpdateObs {
  u_exists : bool;                     (* exists(file_path_) in ensure_file_exists *)
  u_create_ok : bool;                  (* the ofstream opened *)
  u_now : Z;                           (* steady_clock::now() *)
  u_modify_time : Z;                   (* get_file_modify_time(file_path_) *)
  u_reads : Z -> Retry.AttemptObs;     (* the attempts of read_file_with_retry *)
  u_clock : Z                          (* system_clock::now() for a ParseError *)
}.

(** [set_watcher_config]. *)
Definition set_watcher_config (p : Params) (config : Watcher.FileWatcherConfig Store)
  : Params :=
  with_watcher_config p (Watcher.validate config).

(** [bind<T>(name, variable, default_value)]: the binding replaces any
    earlier one of that name, and the variable takes the default. *)
Definition bind {T : Type} `{Tunable T} (name : string) (variable : addr)
    (default_value : T) (p : Params) (st : Store) : Params * Store :=
  (with_bindings p (<[name := Binding variable default_value]> (bindings_ p)),
   <[variable := to_val default_value]> st).

Definition unbind (name : string) (p : Params) : Params :=
  with_bindings p (delete name (bindings_ p)).

Definition unbind_all (p : Params) : Params * list Event :=
  if in_callback_ p then
    (p, [EvLog Warning
           "unbind_all() called during callback execution - operation skipped"])
  else (with_bindings p ∅, []).

Definition on_change (callback : option Callback) (p : Params) : Params :=
  with_callback p callback.

Definition invalidate_cache (p : Params) : Params * list Event :=
  if in_callback_ p then
    (p, [EvLog Warning
           "invalidate_cache() called during callback execution - operation skipped"])
  else (with_current_values (with_file_cache p FileCache_initial) ∅, []).

Definition nl : string := String (Ascii.ascii_of_nat 10) "".

(** The text [ensure_file_exists] writes for each format. *)
Definition template (f : FileFormat) : string :=
  match f with
  | Json =>
      "{" ++ nl ++ "  // Live Tuner parameters" ++ nl
      ++ "  // Edit values here and save" ++ nl ++ "}" ++ nl
  | Yaml =>
      "# Live Tuner parameters" ++ nl ++ "# Edit values here and save" ++ nl
      ++ "---" ++ nl
  | _ =>
      "# Live Tuner parameters" ++ nl ++ "# Format: key = value" ++ nl ++ nl
  end.

(** [ensure_file_exists]: the bytes written, if any. *)
Definition ensure_file_exists (p : Params) (exists_ create_ok : bool) : option string :=
  if negb exists_ then
    if create_ok then Some (template (format_ p)) else None
  else None.

(** The [switch (format_)] of [load_file]: the parser's flag and map, and
    the message of the [ParseError] that the branch would record.  The
    JSON branch calls [PicojsonParser::parse] outside any [try], so its
    exception leaves the [switch]. *)
Definition parse_content (f : FileFormat) (content : string)
  : option (Completion (bool * gmap string string * string)) :=
  match f with
  | Json =>
      match PicojsonParser.parse content with
      | Some (Returns (parsed, m)) =>
          Some (Returns (parsed, m, "Failed to parse JSON format"))
      | Some Throws => Some Throws
      | None => None
      end
  | Yaml =>
      let '(parsed, m) := SimpleKeyValueParser.parse content true in
      Some (Returns (parsed, m, "Failed to parse YAML format"))
  | _ =>
      let '(parsed, m) := SimpleKeyValueParser.parse content false in
      Some (Returns (parsed, m, "Failed to parse key-value format"))
  end.

(** The loop [for (const auto& [key, value] : new_values)] with its
    [break]. *)
Definition any_changed (new_values current : gmap string string) : bool :=
  existsb (fun kv : string * string =>
             match current !! fst kv with
             | None => true
             | Some v => negb (String.eqb v (snd kv))
             end)
          (map_to_list new_values).

(** One round of the loop over [bindings_]. *)
Definition update_binding (values : gmap string string)
    (acc : Store * list Event) (nb : string * BindingBase) : Store * list Event :=
  let '(st, ev) := acc in
  let '(name, binding) := nb in
  match values !! name with
  | Some v =>
      let '(ok, st') := bb_update binding v st in
      (st', (ev ++ EvBindingUpdate name ok ::
               (if ok then []
                else [EvLog Warning ("Failed to parse value for parameter '" ++ name
                                     ++ "': '" ++ v ++ "'")]))%list)
  | None => (bb_apply_default binding st, (ev ++ [EvApplyDefault name])%list)
  end.

(** The loop [for (auto& [name, binding] : bindings_)].  The container is
    unordered; the loop is taken in the order of [map_to_list]. *)
Definition update_bindings (bindings : gmap string BindingBase)
    (values : gmap string string) (st : Store) : Store * list Event :=
  fold_left (update_binding values) (map_to_list bindings) (st, []).

Definition read_events (r : Retry.ReadResult) : list Event :=
  map (fun e : Retry.Effect =>
         match e with
         | Retry.Slept ms => EvSleep ms
         | Retry.Logged l => EvLog (fst l) (snd l)
         end)
      (Retry.rr_effects r).

(** [bool load_file()]: the returned flag, or the parser's exception,
    which [load_file] does not catch; with it the object, the bound
    variables and what was done to the outside.  When the parser throws,
    nothing of the object has been written yet: [new_values] is a
    local. *)
Definition load_file (p : Params) (st : Store) (o : UpdateObs)
  : option (Completion bool * Params * Store * list Event) :=
  let r := Retry.read_file_with_retry (file_path_ p) (file_read_retry_config_ p)
                                      (u_reads o) in
  match Retry.rr_content r with
  | None =>
      Some (Returns false, with_last_error p (Retry.rr_error_out r), st, read_events r)
  | Some content =>
      match parse_content (format_ p) content with
      | None => None
      | Some Throws => Some (Throws, p, st, read_events r)
      | Some (Returns (parsed, new_values, msg)) =>
          if negb parsed && bool_decide (new_values = ∅) then
            let e := ErrorInfo_make ParseError msg (file_path_ p) (u_clock o) in
            Some (Returns false, with_last_error p e, st,
                  (read_events r ++ [EvLog Error (to_string e)])%list)
          else if negb (any_changed new_values (current_values_ p))
                  && Nat.eqb (size new_values) (size (current_values_ p))
          then Some (Returns false, p, st, read_events r)
          else
            let '(st', ev) := update_bindings (bindings_ p) new_values st in
            Some (Returns true,
                  with_last_error (with_current_values p new_values) ErrorInfo_default,
                  st', (read_events r ++ ev)%list)
      end
  end.

(** How a call of [update()] ends: it returns [updated]; or the change
    callback throws and [update()] rethrows ([Thrown]); or the exception
    of the JSON parser leaves [load_file] and then [update()], which has
    no handler around that call ([ThrownByParser]). *)
Inductive Outcome : Set :=
| Returned (updated : bool)
| Thrown
| ThrownByParser.

(** [bool update()], called by thread [thread]. *)
Definition update (thread : ThreadId) (p : Params) (st : Store) (o : UpdateObs)
  : option (Outcome * Params * Store * list Event) :=
  if in_callback_ p then
    Some (Returned false, p, st,
          [EvLog Debug
             "update() called during callback execution - skipped to prevent recursion"])
  else
    let ev0 :=
      match ensure_file_exists p (u_exists o) (u_create_ok o) with
      | Some bytes => [EvWriteFile (file_path_ p) bytes]
      | None => []
      end in
    let now := u_now o in
    let current_modify_time := u_modify_time o in
    if file_exists (file_cache_ p)
       && (now - last_access (file_cache_ p) <? cache_duration)%Z
       && (current_modify_time =? last_modify_time (file_cache_ p))%Z
    then Some (Returned false, p, st, ev0)
    else
      match load_file p st o with
      | None => None
      | Some (Throws, p1, st1, ev1) =>
          (* the assignments to file_cache_ and the callback are skipped *)
          Some (ThrownByParser, p1, st1, (ev0 ++ ev1)%list)
      | Some (Returns updated, p1, st1, ev1) =>
          let p2 := with_file_cache p1 (mkFileCache current_modify_time now true) in
          match (if updated then on_change_callback_ p2 else None) with
          | Some callback_to_invoke =>
              (* in_callback_ is true while the callback runs and false
                 again on both ways out *)
              let '(st2, threw) := callback_to_invoke st1 in
              Some (if threw then Thrown else Returned updated,
                    p2, st2, (ev0 ++ ev1 ++ [EvCallback thread st1])%list)
          | None => Some (Returned updated, p2, st1, (ev0 ++ ev1)%list)
          end
      end.

(** [bool poll()]. *)
Definition poll (thread : ThreadId) (p : Params) (st : Store) (o : UpdateObs)
  : option (Outcome * Params * Store * list Event) :=
  if file_changed_ p then update thread (with_file_changed p false) st o
  else Some (Returned false, p, st, []).

(** [reset_to_defaults()]. *)
Definition reset_to_defaults (p : Params) (st : Store) : Store * list Event :=
  if in_callback_ p then
    (st, [EvLog Warning
            "reset_to_defaults() called during callback execution - operation skipped"])
  else
    (fold_left (fun s (nb : string * BindingBase) => bb_apply_default (snd nb) s)
               (map_to_list (bindings_ p)) st, []).

(** The test that lets [update()] and [try_get] return early: the cache
    says the file exists, less than [cache_duration] has passed since the
    last access, and the modify-time is the one recorded. *)
Definition cache_fresh (c : FileCache) (now current_modify_time : Z) : bool :=
  file_exists c && (now - last_access c <? cache_duration)%Z
  && (current_modify_time =? last_modify_time c)%Z.

(** [get<T>(name)], [get_or<T>(name, default_value)] and [has(name)]. *)
Definition get {T : Type} `{Tunable T} (name : string) (p : Params) : option T :=
  match current_values_ p !! name with
  | Some str_value => parse_value str_value
  | None => None
  end.

Definition get_or {T : Type} `{Tunable T} (name : string) (default_value : T)
    (p : Params) : T :=
  match get name p with
  | Some value => value
  | None => default_value
  end.

Definition has (name : string) (p : Params) : bool :=
  match current_values_ p !! name with Some _ => true | None => false end.

(** [has_error()] and [clear_error()]. *)
Definition has_error (p : Params) : bool := Err.has_error (last_error_ p).

Definition clear_error (p : Params) : Params := with_last_error p ErrorInfo_default.

(** A binding that never writes the variable at [a]: the case of every
    [Binding<T>] made for another variable. *)
Definition leaves (b : BindingBase) (a : addr) : Prop :=
  (forall str_value st, snd (bb_update b str_value st) !! a = st !! a) /\
  (forall st, bb_apply_default b st !! a = st !! a).

(** What the loop over [bindings_] in [load_file] leaves in the variable
    of a [Binding<T>] for [name]: the parsed value, the old content when
    the text does not parse, the default when the name is missing. *)
Definition applied {T : Type} `{Tunable T} (values : gmap string string)
    (name : string) (default_value : T) (old : option Val) : option Val :=
  match values !! name with
  | Some str_value =>
      match parse_value str_value with
      | Some v => Some (to_val v)
      | None => old
      end
  | None => Some (to_val default_value)
  end.

(** The number of invocations of the change callback in a trace. *)
Fixpoint callback_count (ev : list Event) : nat :=
  match ev with
  | [] => O
  | EvCallback _ _ :: ev' => S (callback_count ev')
  | _ :: ev' => callback_count ev'
  end.

End WithLibC.
End ParamsImpl.

(** ** The low-level API: [class LiveTuner] *)

Module Tuner.
Import Err Parsers.
Section WithLibC.
Context `{LibC}.

(** The members that [try_get] and the polling readers use.
    [LiveTuner::FileCache] has the fields and the [cache_duration] of the
    cache of [Params]. *)
Record LiveTuner : Set := mkLiveTuner {
  input_file_path_ : string;
  file_cache_ : ParamsImpl.FileCache;
  file_read_retry_config_ : Retry.FileReadRetryConfig;
  last_error_ : ErrorInfo
}.

(** [explicit LiveTuner(std::string_view file_path)]. *)
Definition LiveTuner_new (file_path : string) : LiveTuner :=
  {| input_file_path_ := file_path;
     file_cache_ := ParamsImpl.FileCache_initial;
     file_read_retry_config_ := Retry.FileReadRetryConfig_default;
     last_error_ := ErrorInfo_default |}.

Definition with_file_cache (t : LiveTuner) (c : ParamsImpl.FileCache) : LiveTuner :=
  mkLiveTuner (input_file_path_ t) c (file_read_retry_config_ t) (last_error_ t).

Definition with_last_error (t : LiveTuner) (e : ErrorInfo) : LiveTuner :=
  mkLiveTuner (input_file_path_ t) (file_cache_ t) (file_read_retry_config_ t) e.

(** [invalidate_cache()] and [set_file(file_path)]. *)
Definition invalidate_cache (t : LiveTuner) : LiveTuner :=
  with_file_cache t ParamsImpl.FileCache_initial.

Definition set_file (file_path : string) (t : LiveTuner) : LiveTuner :=
  invalidate_cache
    (mkLiveTuner file_path (file_cache_ t) (file_read_retry_config_ t) (last_error_ t)).

(** The text that [ensure_file_exists(path)] writes. *)
Definition template : string :=
  "# Live Tuner parameters (edit values here)" ++ ParamsImpl.nl
  ++ "# Lines starting with # are comments" ++ ParamsImpl.nl.

Definition ensure_file_exists (exists_ create_ok : bool) : option string :=
  if negb exists_ then
    if create_ok then Some template else None
  else None.

(** A line that the scanning loop hands to [parse_value]: not empty once
    trimmed, and not starting with [#]. *)
Definition candidate (line0 : string) : bool :=
  let line := trim line0 in
  negb (String.eqb line "") && negb (is_char "#"%char (front line)).

(** A line that gives no value of type [T]: skipped by the loop, or
    handed to [parse_value] in vain. *)
Definition gives_no_value {T : Type} {HT : ParamsImpl.Tunable T} (line0 : string)
  : Prop :=
  candidate line0 = true -> ParamsImpl.parse_value (T := T) (trim line0) = None.

(** The last such line of a file, if it has one. *)
Fixpoint last_candidate (lines : list string) : option string :=
  match lines with
  | [] => None
  | line0 :: rest =>
      match last_candidate rest with
      | Some l => Some l
      | None => if candidate line0 then Some line0 else None
      end
  end.

(** Phase 5 of [try_get], the loop [while (std::getline(stream, line))]:
    the value found, if any, with [failed_line] and [parse_error] as the
    loop leaves them. *)
Fixpoint scan_lines {T : Type} {HT : ParamsImpl.Tunable T} (lines : list string)
    (failed_line : string) (parse_error : bool) : option T * string * bool :=
  match lines with
  | [] => (None, failed_line, parse_error)
  | line0 :: rest =>
      let line := trim line0 in
      if negb (String.eqb line "") && negb (is_char "#"%char (front line)) then
        match ParamsImpl.parse_value line with
        | Some parsed_value => (Some parsed_value, failed_line, parse_error)
        | None => scan_lines rest line true
        end
      else scan_lines rest failed_line parse_error
  end.

(** What a call of [try_get] returns and does: the flag, the value
    assigned to the caller's variable ([None]: the variable is not
    written), the object afterwards, and the effects. *)
Record TryGet (T : Type) : Type := mkTryGet {
  tg_result : bool;
  tg_value : option T;
  tg_tuner : LiveTuner;
  tg_events : list ParamsImpl.Event
}.
Arguments mkTryGet {T}.
Arguments tg_result {T}.
Arguments tg_value {T}.
Arguments tg_tuner {T}.
Arguments tg_events {T}.

(** [template<typename T> bool try_get(T& value)], as one thread runs it. *)
Definition try_get {T : Type} {HT : ParamsImpl.Tunable T} (t : LiveTuner)
    (o : ParamsImpl.UpdateObs) : TryGet T :=
  let now := ParamsImpl.u_now o in
  let input_path := input_file_path_ t in
  let retry_config := file_read_retry_config_ t in
  let ev0 :=
    match ensure_file_exists (ParamsImpl.u_exists o) (ParamsImpl.u_create_ok o) with
    | Some bytes => [ParamsImpl.EvWriteFile input_path bytes]
    | None => []
    end in
  let current_modify_time := ParamsImpl.u_modify_time o in
  if ParamsImpl.file_exists (file_cache_ t)
     && (now - ParamsImpl.last_access (file_cache_ t) <? ParamsImpl.cache_duration)%Z
     && (current_modify_time =? ParamsImpl.last_modify_time (file_cache_ t))%Z
  then mkTryGet false None t ev0
  else
    let r := Retry.read_file_with_retry input_path retry_config (ParamsImpl.u_reads o) in
    match Retry.rr_content r with
    | None =>
        mkTryGet false None
          (mkLiveTuner (input_file_path_ t)
             (ParamsImpl.mkFileCache
                (ParamsImpl.last_modify_time (file_cache_ t)) now false)
             (file_read_retry_config_ t) (Retry.rr_error_out r))
          (ev0 ++ ParamsImpl.read_events r)%list
    | Some content =>
        let refreshed := ParamsImpl.mkFileCache current_modify_time now true in
        match scan_lines (getlines "" content) "" false with
        | (Some parsed_value, _, _) =>
            mkTryGet true (Some parsed_value)
              (mkLiveTuner (input_file_path_ t) refreshed (file_read_retry_config_ t)
                 ErrorInfo_default)
              (ev0 ++ ParamsImpl.read_events r)%list
        | (None, failed_line, parse_error) =>
            let e :=
              if parse_error
              then ErrorInfo_make ParseError
                     ("Failed to parse value from line: '" ++ failed_line ++ "'")
                     input_path (ParamsImpl.u_clock o)
              else ErrorInfo_make ParseError "No valid value found in file"
                     input_path (ParamsImpl.u_clock o) in
            mkTryGet false None
              (mkLiveTuner (input_file_path_ t) refreshed (file_read_retry_config_ t) e)
              (ev0 ++ ParamsImpl.read_events r
               ++ [ParamsImpl.EvLog (if parse_error then Warning else Debug)
                     (to_string e)])%list
        end
    end.



End WithLibC.

Arguments mkTryGet {H T}.
Arguments tg_result {H T}.
Arguments tg_value {H T}.
Arguments tg_tuner {H T}.
Arguments tg_events {H T}.

End Tuner.

(** ** A platform to run the embedding on

    An instance of [LibC] for finite decimal literals, with [float] and
    [double] kept as exact rationals (no rounding to binary; the literals
    used below, such as 2.5 and 1.0, are exact in binary as well).  A
    literal too large for a [double] is kept as a rational too, and
    [isinf] tells that [strtod] has returned an infinity for it. *)

Module DecimalPlatform.

Definition digit_of (c : ascii) : option Z :=
  let n := code c in
  if (48 <=? n)%Z && (n <=? 57)%Z then Some (n - 48) else None.

(** Reads a run of digits: its value, its length, the rest. *)
Fixpoint read_digits (acc : Z) (count : nat) (s : string) : Z * nat * string :=
  match s with
  | EmptyString => (acc, count, s)
  | String c s' =>
      match digit_of c with
      | Some d => read_digits (acc * 10 + d) (S count) s'
      | None => (acc, count, s)
      end
  end.

Fixpoint skip_spaces (count : nat) (s : string) : nat * string :=
  match s with
  | EmptyString => (count, s)
  | String c s' => if Parsers.isspace c then skip_spaces (S count) s' else (count, s)
  end.

(** An optional sign: whether it is a minus, its length, the rest. *)
Definition read_sign (s : string) : bool * nat * string :=
  match s with
  | String c s' =>
      if (code c =? 45)%Z then (true, 1%nat, s')
      else if (code c =? 43)%Z then (false, 1%nat, s')
      else (false, 0%nat, s)
  | EmptyString => (false, 0%nat, s)
  end.

Definition pow10 (e : Z) : Q :=
  if (0 <=? e)%Z then inject_Z (10 ^ e) else (1 # Z.to_pos (10 ^ (- e)))%Q.

(** An optional exponent part [e[+-]digits]: the exponent, its length, the
    rest; nothing is read when no digit follows. *)
Definition read_exponent (s : string) : Z * nat * string :=
  match s with
  | String c s' =>
      if (code c =? 101)%Z || (code c =? 69)%Z then
        let '(neg, ns, s1) := read_sign s' in
        let '(e, ne, s2) := read_digits 0 0 s1 in
        if Nat.eqb ne 0 then (0, 0%nat, s)
        else (if neg then - e else e, (1 + ns + ne)%nat, s2)
      else (0, 0%nat, s)
  | EmptyString => (0, 0%nat, s)
  end.

(** A decimal literal after optional blanks: the value, the number of
    characters used, the rest; [None] when there is no digit. *)
Definition read_decimal (s : string) : option (Q * nat * string) :=
  let '(n0, s0) := skip_spaces 0 s in
  let '(neg, n1, s1) := read_sign s0 in
  let '(ip, n2, s2) := read_digits 0 0 s1 in
  let '(fp, n3, ndot, s3) :=
    match s2 with
    | String c s' =>
        if (code c =? 46)%Z then
          let '(v, n, r) := read_digits 0 0 s' in (v, n, 1%nat, r)
        else (0, 0%nat, 0%nat, s2)
    | EmptyString => (0, 0%nat, 0%nat, s2)
    end in
  if Nat.eqb (n2 + n3) 0 then None
  else
    let '(e, n4, s4) := read_exponent s3 in
    let mant := (inject_Z ip + inject_Z fp * pow10 (- Z.of_nat n3))%Q in
    let v := Qred ((if neg then - mant else mant) * pow10 e)%Q in
    Some (v, (n0 + n1 + n2 + ndot + n3 + n4)%nat, s4).

Definition read_int (s : string) : option (Z * string) :=
  let '(_, s0) := skip_spaces 0 s in
  let '(neg, _, s1) := read_sign s0 in
  let '(v, n, s2) := read_digits 0 0 s1 in
  if Nat.eqb n 0 then None else Some (if neg then - v else v, s2).

(** The [%f] format: six decimals, ties to even. *)
Definition round_half_even (q : Q) : Z :=
  let n := Qnum q in
  let d := Zpos (Qden q) in
  let fl := (n / d)%Z in
  let r2 := (2 * (n mod d))%Z in
  if (r2 <? d)%Z then fl
  else if (d <? r2)%Z then fl + 1
  else if Z.even fl then fl else fl + 1.

Definition pad6 (z : Z) : string :=
  let t := pretty z in
  String.substring 0 (6 - String.length t) "000000" ++ t.

Definition to_string_f (q : Q) : string :=
  let scaled := round_half_even (q * inject_Z 1000000)%Q in
  let a := Z.abs scaled in
  (if (scaled <? 0)%Z then "-" else "")
  ++ pretty (a / 1000000)%Z ++ "." ++ pad6 (a mod 1000000)%Z.

(** The least magnitude that rounds to an infinity in binary64: half-way
    between the largest finite [double] and [2 ^ 1024].  For a literal of
    that size [strtod] returns [HUGE_VAL]. *)
Definition to_infinity : Q := inject_Z (2 ^ 1024 - 2 ^ 970).

#[export] Instance decimal : LibC :=
  {| double := Q;
     strtod := fun s =>
       match read_decimal s with
       | Some (v, n, _) => (v, n)
       | None => (0%Q, 0%nat)
       end;
     double_to_string := to_string_f;
     isnan := fun _ => false;
     isinf := fun v => Qle_bool to_infinity (Qabs v);
     float := Q;
     extract_float := fun s =>
       match read_decimal s with
       | Some (v, _, rest) => Some (v, rest)
       | None => None
       end;
     extract_double := fun s =>
       match read_decimal s with
       | Some (v, _, rest) => Some (v, rest)
       | None => None
       end;
     extract_int := read_int |}.

End DecimalPlatform.

(** ** Concrete situations used to run the embedding *)

Module Scenario.
Import Err Retry DecimalPlatform.

(** A file that is there and reads as [c]. *)
Definition readable (c : string) (clock : Z) : AttemptObs :=
  {| obs_exists := true; obs_exists_ec := None;
     obs_file_size := inr (Z.of_nat (String.length c)); obs_open := true;
     obs_read := ReadCompleted c true; obs_clock := clock |}.

(** No file at the path. *)
Definition missing (clock : Z) : AttemptObs :=
  {| obs_exists := false; obs_exists_ec := None; obs_file_size := inr 0;
     obs_open := false; obs_read := ReadCompleted "" true; obs_clock := clock |}.

(** A file truncated to zero bytes. *)
Definition truncated (clock : Z) : AttemptObs :=
  {| obs_exists := true; obs_exists_ec := None; obs_file_size := inr 0;
     obs_open := true; obs_read := ReadCompleted "" true; obs_clock := clock |}.

(** An editor saving the file: attempts 0, 1 and 2 find it truncated, from
    attempt 3 on it reads as [c]. *)
Definition editor_saving (c : string) (a : Z) : AttemptObs :=
  if (a <? 3)%Z then truncated a else readable c a.

(** A file that is missing at the first attempt and empty at all later
    ones. *)
Definition never_readable (a : Z) : AttemptObs :=
  if (a =? 0)%Z then missing a else truncated a.

(** A retry configuration that runs no attempt: the default one with
    [max_retries = -1]. *)
Definition no_attempt_config : FileReadRetryConfig :=
  mkRetryConfig (-1) (retry_delay FileReadRetryConfig_default)
                (backoff_multiplier FileReadRetryConfig_default).

(** An overflow callback that records its arguments in the user state. *)
Definition record_overflow (current_size new_size : Z) (u : list (Z * Z))
  : list (Z * Z) * bool :=
  ((u ++ [(current_size, new_size)])%list, false).

(** [auto_grow_buffer = true], [buffer_size = 4096],
    [max_buffer_size = 8192]. *)
Definition small_buffer_config : Watcher.FileWatcherConfig (list (Z * Z)) :=
  Watcher.mkWatcherConfig 4096 true 8192 (Some record_overflow).

(** A configuration whose maximum is below the fixed minimum. *)
Definition low_maximum_config : Watcher.FileWatcherConfig unit :=
  Watcher.mkWatcherConfig 65536 true 1000 None.

(** A running watcher with no change pending, one thread about to call
    [wait_for_change(timeout)], another about to call [stop()]. *)
Definition idle_running : Watcher.Sys :=
  Watcher.mkSys (Watcher.mkFlags true false) Watcher.WEntry Watcher.SEntry.

(** The waiter blocks, [stop()] then runs up to and including
    [notify_all], and the waiter wakes up before its timeout. *)
Definition stop_while_blocked : list Watcher.Action :=
  [Watcher.WaiterStep false;
   Watcher.StopStep; Watcher.StopStep; Watcher.StopStep; Watcher.StopStep;
   Watcher.WaiterStep false].

(** The orchestrator on the decimal platform: a key-value file
    [params.ini] and one [float] variable, at address 0, bound to the name
    [speed] with default 1.0. *)
Definition speed_variable : nat := 0.

Definition bound_speed : ParamsImpl.Params * gmap nat ParamsImpl.Val :=
  ParamsImpl.bind (H := DecimalPlatform.decimal) (T := Q)
    (H0 := ParamsImpl.Tunable_float) "speed" speed_variable 1%Q
    (ParamsImpl.Params_new "params.ini" Parsers.KeyValue) ∅.

(** The file exists and reads as [c]; the clocks show [now] and the file's
    modify-time is [mtime]. *)
Definition saved (c : string) (now mtime : Z) : ParamsImpl.UpdateObs :=
  {| ParamsImpl.u_exists := true; ParamsImpl.u_create_ok := true;
     ParamsImpl.u_now := now; ParamsImpl.u_modify_time := mtime;
     ParamsImpl.u_reads := readable c; ParamsImpl.u_clock := now |}.

(** The file exists and is empty (zero bytes) at every attempt. *)
Definition saved_empty (now mtime : Z) : ParamsImpl.UpdateObs :=
  {| ParamsImpl.u_exists := true; ParamsImpl.u_create_ok := true;
     ParamsImpl.u_now := now; ParamsImpl.u_modify_time := mtime;
     ParamsImpl.u_reads := truncated; ParamsImpl.u_clock := now |}.

(** The state that a call of [update()] by thread 1 leaves. *)
Definition after_update (ps : ParamsImpl.Params * gmap nat ParamsImpl.Val)
    (o : ParamsImpl.UpdateObs) : ParamsImpl.Params * gmap nat ParamsImpl.Val :=
  match ParamsImpl.update (H := DecimalPlatform.decimal) 1%nat (fst ps) (snd ps) o with
  | Some (_, p, st, _) => (p, st)
  | None => ps
  end.

(** What [update()] returns, with the value of the [speed] variable
    afterwards. *)
Definition update_result (ps : ParamsImpl.Params * gmap nat ParamsImpl.Val)
    (o : ParamsImpl.UpdateObs) : option (ParamsImpl.Outcome * option ParamsImpl.Val) :=
  match ParamsImpl.update (H := DecimalPlatform.decimal) 1%nat (fst ps) (snd ps) o with
  | Some (out, _, st, _) => Some (out, st !! speed_variable)
  | None => None
  end.

(** A change callback that raises a flag variable at address 1. *)
Definition raise_flag : ParamsImpl.Callback (H := DecimalPlatform.decimal) :=
  fun st => (<[1%nat := ParamsImpl.VBool true]> st, false).

(** The same binding with [raise_flag] registered through [on_change]. *)
Definition bound_speed_notified : ParamsImpl.Params * gmap nat ParamsImpl.Val :=
  (ParamsImpl.on_change (Some raise_flag) (fst bound_speed), snd bound_speed).

(** No file at the path when [update()] starts; [ensure_file_exists]
    creates it and the reader then finds the bytes created for format [f]. *)
Definition created_on_demand (f : Parsers.FileFormat) (now mtime : Z)
  : ParamsImpl.UpdateObs :=
  {| ParamsImpl.u_exists := false; ParamsImpl.u_create_ok := true;
     ParamsImpl.u_now := now; ParamsImpl.u_modify_time := mtime;
     ParamsImpl.u_reads := readable (ParamsImpl.template f);
     ParamsImpl.u_clock := now |}.

(** Of the result of [update()]: how it ended, the kind of the error it
    left in [last_error_], and the first thing it did to the outside. *)
Definition update_summary
    (r : option (ParamsImpl.Outcome * ParamsImpl.Params (H := DecimalPlatform.decimal)
                 * gmap nat ParamsImpl.Val * list ParamsImpl.Event))
  : option (ParamsImpl.Outcome * Err.ErrorType * option ParamsImpl.Event) :=
  match r with
  | Some (out, p, _, ev) => Some (out, Err.type (ParamsImpl.last_error_ p), head ev)
  | None => None
  end.

(** [speed=2.5] has been written and ingested. *)
Definition speed_loaded : ParamsImpl.Params * gmap nat ParamsImpl.Val :=
  after_update bound_speed (saved "speed=2.5" 1000000 100).

(** What a worker may meet in a busy directory: an overflow, records for
    other files, an overflow again, a failed overlapped result. *)
Definition busy_directory : list Watcher.IterObs :=
  [Watcher.ReadFailed Watcher.ERROR_NOTIFY_ENUM_DIR true;
   Watcher.Signalled true 64 ["other.txt"; "notes.md"];
   Watcher.ReadFailed Watcher.ERROR_NOTIFY_ENUM_DIR true;
   Watcher.Signalled false 0 []].

(** [small_buffer_config] with [auto_grow_buffer] switched off. *)
Definition fixed_buffer_config : Watcher.FileWatcherConfig (list (Z * Z)) :=
  Watcher.mkWatcherConfig 4096 false 8192 (Some record_overflow).

(** A JSON document with scalar members, an array and a nested object. *)
Definition quoted (s : string) : string :=
  String Parsers.dquote (s ++ String Parsers.dquote "").

Definition json_document : string :=
  "{ " ++ quoted "speed" ++ ": 2.5, " ++ quoted "name" ++ ": " ++ quoted "Hero"
  ++ ", " ++ quoted "debug" ++ ": true, " ++ quoted "tags" ++ ": [1, 2], "
  ++ quoted "window" ++ ": { " ++ quoted "width" ++ ": 800 } }".

(** The value that picojson builds from it. *)
Definition json_document_value : picojson.value (H := DecimalPlatform.decimal) :=
  picojson.object
    (<["speed" := picojson.number (5 # 2)%Q]>
       (<["name" := picojson.string_ "Hero"]>
          (<["debug" := picojson.boolean true]>
             (<["tags" := picojson.array [picojson.number 1%Q; picojson.number 2%Q]]>
                (<["window" := picojson.object {["width" := picojson.number 800%Q]}]>
                   ∅))))).

(** A JSON document whose number is too large for a [double]. *)
Definition overflow_document : string :=
  "{ " ++ quoted "speed" ++ ": 1e400 }".

(** The orchestrator over [params.json], with the [speed] variable bound
    and [raise_flag] registered. *)
Definition bound_speed_json : ParamsImpl.Params * gmap nat ParamsImpl.Val :=
  let ps := ParamsImpl.bind (H := DecimalPlatform.decimal) (T := Q)
              (H0 := ParamsImpl.Tunable_float) "speed" speed_variable 1%Q
              (ParamsImpl.Params_new "params.json" Parsers.Auto) ∅ in
  (ParamsImpl.on_change (Some raise_flag) (fst ps), snd ps).

(** The low-level tuner on the decimal platform, over [params.txt]. *)
Definition fresh_tuner : Tuner.LiveTuner := Tuner.LiveTuner_new "params.txt".

(** A value file: a comment, a blank line, a line that is no number, the
    value, and a line after it. *)
Definition commented_value : string :=
  "# speed" ++ ParamsImpl.nl ++ ParamsImpl.nl ++ "fast" ++ ParamsImpl.nl
  ++ " 2.5 " ++ ParamsImpl.nl ++ "7".

(** A value file without a value that parses. *)
Definition no_number : string :=
  "# speed" ++ ParamsImpl.nl ++ "fast" ++ ParamsImpl.nl ++ " very fast ".


End Scenario.

(** * Properties *)

(** ** The retrying reader *)

Section RetryFacts.
Import Err Retry.

Lemma attempt_error_body path_str obs a e :
  attempt_error path_str obs a = Some e ->
  exists l, attempt_body path_str a (obs a) = (inl e, l).
Proof.
  unfold attempt_error.
  destruct (attempt_body path_str a (obs a)) as [[e'|c] l]; simpl; intros E.
  - inversion E; subst. now exists l.
  - discriminate.
Qed.

Lemma attempt_content_body path_str obs a c :
  attempt_content path_str obs a = Some c ->
  exists l, attempt_body path_str a (obs a) = (inr c, l).
Proof.
  unfold attempt_content.
  destruct (attempt_body path_str a (obs a)) as [[e'|c'] l]; simpl; intros E.
  - discriminate.
  - inversion E; subst. now exists l.
Qed.

Lemma sleeps_app (e1 e2 : list Effect) :
  sleeps (e1 ++ e2) = (sleeps e1 ++ sleeps e2)%list.
Proof.
  induction e1 as [|[ms|l] e1 IH]; simpl; [reflexivity | now rewrite IH | exact IH].
Qed.

Lemma sleeps_logged (l : list LogEntry) : sleeps (map Logged l) = [].
Proof. induction l; simpl; auto. Qed.

(** When every remaining attempt fails the loop runs to its end, returns
    no content, and hands out the error of the attempt that ran last (the
    incoming [last_error] if none ran). *)
Lemma retry_loop_all_fail cfg path_str obs :
  forall (n : nat) (a delay : Z) (e0 : ErrorInfo) (eff : list Effect),
    (forall k, (a <= k < a + Z.of_nat n)%Z -> attempt_error path_str obs k <> None) ->
    let r := retry_loop cfg path_str obs n a delay e0 eff in
    rr_content r = None /\
    rr_error_out r =
      match n with
      | O => e0
      | S m => default e0 (attempt_error path_str obs (a + Z.of_nat m))
      end.
Proof.
  induction n as [|n IH]; intros a delay e0 eff Hfail; simpl.
  - destruct (int_max <? a)%Z; split; reflexivity.
  - assert (Ha : attempt_error path_str obs a <> None) by (apply Hfail; lia).
    unfold attempt_error in Ha.
    destruct (if (0 <? a)%Z then _ else _) as [delay' eff'].
    destruct (attempt_body path_str a (obs a)) as [[e|c] l] eqn:Hb; simpl in Ha;
      [|congruence].
    specialize (IH (a + 1)%Z delay' e (eff' ++ map Logged l)%list).
    simpl in IH. destruct IH as [IH1 IH2].
    { intros k Hk. apply Hfail. lia. }
    split; [exact IH1|]. rewrite IH2.
    destruct n as [|m].
    + replace (a + Z.of_nat 0)%Z with a by lia.
      unfold attempt_error. now rewrite Hb.
    + replace (a + 1 + Z.of_nat m)%Z with (a + Z.of_nat (S m))%Z by lia.
      destruct (attempt_error path_str obs (a + Z.of_nat (S m))) eqn:E; [reflexivity|].
      exfalso. apply (Hfail (a + Z.of_nat (S m))%Z); [lia | exact E].
Qed.

(** The counter does not overflow as long as the values it goes through
    stay within [INT_MAX]. *)
Lemma retry_loop_in_range cfg path_str obs :
  forall (n : nat) (a delay : Z) (e0 : ErrorInfo) (eff : list Effect),
    (a + Z.of_nat n <= int_max)%Z ->
    rr_overflow (retry_loop cfg path_str obs n a delay e0 eff) = false.
Proof.
  induction n as [|n IH]; intros a delay e0 eff Hr; cbn [retry_loop].
  - replace (int_max <? a)%Z with false by lia. reflexivity.
  - destruct (if (0 <? a)%Z then _ else _) as [delay' eff'].
    destruct (attempt_body path_str a (obs a)) as [[e|c] l]; [|reflexivity].
    apply IH. lia.
Qed.

Lemma read_file_with_retry_in_range path_str cfg obs :
  (max_retries cfg < int_max)%Z ->
  rr_overflow (read_file_with_retry path_str cfg obs) = false.
Proof.
  intros Hr. apply retry_loop_in_range. unfold attempts_of.
  assert (0 <= int_max)%Z by (unfold int_max; lia). lia.
Qed.

End RetryFacts.

(** C6, as stated, fails for a configuration that runs no attempt: with
    [max_retries = -1] no attempt succeeds, the function returns no
    content, and what it writes through [error_out] is the default
    [ErrorInfo] ("No error"), which is the failure of no attempt. *)
Lemma retry_without_attempt_reports_no_error :
  let r := Retry.read_file_with_retry "params.ini" Scenario.no_attempt_config
                                      Scenario.never_readable in
  (forall a, Retry.attempt_error "params.ini" Scenario.never_readable a <> None) /\
  Retry.rr_content r = None /\
  Retry.rr_overflow r = false /\
  Err.to_string (Retry.rr_error_out r) = "No error" /\
  (forall a, Retry.attempt_error "params.ini" Scenario.never_readable a
             <> Some (Retry.rr_error_out r)).
Proof.
  repeat split; try reflexivity.
  - intros a. unfold Retry.attempt_error, Scenario.never_readable.
    destruct (a =? 0)%Z; simpl; discriminate.
  - intros a. unfold Retry.attempt_error, Scenario.never_readable.
    destruct (a =? 0)%Z; simpl; discriminate.
Qed.

(** C6, amended.  For every retry configuration that runs at least one
    attempt and whose counter stays in range ([0 <= max_retries <
    INT_MAX]), and every way in which all the attempts of
    [read_file_with_retry] fail: the function returns, without content,
    and the [ErrorInfo] written through [error_out] is the failure of the
    last attempt (attempt number [max_retries]), whatever the earlier
    attempts reported. *)
Theorem read_file_with_retry_reports_last_failure
    (path_str : string) (cfg : Retry.FileReadRetryConfig)
    (obs : Z -> Retry.AttemptObs) :
  (0 <= Retry.max_retries cfg < Retry.int_max)%Z ->
  (forall a, (0 <= a <= Retry.max_retries cfg)%Z ->
             Retry.attempt_error path_str obs a <> None) ->
  let r := Retry.read_file_with_retry path_str cfg obs in
  Retry.rr_overflow r = false /\
  Retry.rr_content r = None /\
  Retry.attempt_error path_str obs (Retry.max_retries cfg)
  = Some (Retry.rr_error_out r).
Proof.
  intros Hrange Hfail r.
  destruct (retry_loop_all_fail cfg path_str obs (Retry.attempts_of cfg) 0
              (Retry.retry_delay cfg) Err.ErrorInfo_default []) as [H1 H2].
  { intros k Hk. apply Hfail. unfold Retry.attempts_of in Hk. lia. }
  fold (Retry.read_file_with_retry path_str cfg obs) in H1, H2. fold r in H1, H2.
  split; [apply read_file_with_retry_in_range; lia|].
  split; [exact H1|].
  rewrite H2. unfold Retry.attempts_of.
  rewrite Z2Nat.inj_succ by lia. rewrite Z2Nat.id by lia. rewrite Z.add_0_l.
  destruct (Retry.attempt_error path_str obs (Retry.max_retries cfg)) eqn:E;
    [reflexivity|].
  exfalso. apply (Hfail (Retry.max_retries cfg)); [lia | exact E].
Qed.

Lemma read_file_with_retry_reports_last_failure_witness :
  let r := Retry.read_file_with_retry "params.ini" Retry.FileReadRetryConfig_default
                                      Scenario.never_readable in
  Retry.rr_overflow r = false /\
  Retry.rr_content r = None /\
  Retry.attempt_error "params.ini" Scenario.never_readable 3
  = Some (Retry.rr_error_out r).
Proof.
  apply (read_file_with_retry_reports_last_failure
           "params.ini" Retry.FileReadRetryConfig_default Scenario.never_readable).
  - vm_compute. split; [discriminate|reflexivity].
  - intros a Ha. simpl in Ha.
    unfold Retry.attempt_error, Scenario.never_readable.
    destruct (a =? 0)%Z; simpl; discriminate.
Defined.

(** In that run the first attempt reports [FileNotFound] and the value
    handed out is the [FileEmpty] of the last one. *)
Example last_failure_differs_from_first :
  Err.type <$> Retry.attempt_error "params.ini" Scenario.never_readable 0
    = Some Err.FileNotFound /\
  Err.type (Retry.rr_error_out
              (Retry.read_file_with_retry "params.ini"
                 Retry.FileReadRetryConfig_default Scenario.never_readable))
    = Err.FileEmpty.
Proof. split; reflexivity. Qed.

(** C5, as stated, fails: with [max_retries = 3], [retry_delay = 5ms] and
    [backoff_multiplier = 1.5], three failed attempts followed by a
    success, the waits handed to [sleep_for] are 5, 7 and 10 ms, 22 ms in
    all, which is less than 23.75 ms. *)
Lemma backoff_total_sleep_below_23_75 :
  let r := Retry.read_file_with_retry "params.ini" Retry.FileReadRetryConfig_default
                                      (Scenario.editor_saving "speed=2.5") in
  Retry.rr_content r = Some "speed=2.5" /\
  Retry.total_sleep r = 22%Z /\
  ~ (95 # 4 <= inject_Z (Retry.total_sleep r))%Q.
Proof.
  split; [reflexivity|]. split; [reflexivity|].
  vm_compute. intros H. apply H. reflexivity.
Qed.

(** C5, amended.  With [max_retries = 3], [retry_delay = 5ms] and
    [backoff_multiplier = 1.5], if attempts 0, 1 and 2 fail and attempt 3
    reads [c], then [read_file_with_retry] returns [c] and has slept
    exactly three times, for 5, 7 and 10 ms: every delay is the previous
    one times 1.5 cut down to whole milliseconds, 22 ms in total. *)
Theorem read_file_with_retry_backoff_truncates
    (path_str : string) (obs : Z -> Retry.AttemptObs) (c : string) :
  (forall a, (0 <= a < 3)%Z -> Retry.attempt_error path_str obs a <> None) ->
  Retry.attempt_content path_str obs 3 = Some c ->
  let r := Retry.read_file_with_retry path_str Retry.FileReadRetryConfig_default obs in
  Retry.rr_content r = Some c /\
  Retry.sleeps (Retry.rr_effects r) = [5; 7; 10]%Z /\
  Retry.total_sleep r = 22%Z.
Proof.
  intros Hfail Hok r.
  assert (H0 : exists e l, Retry.attempt_body path_str 0 (obs 0%Z) = (inl e, l)).
  { destruct (Retry.attempt_error path_str obs 0) as [e|] eqn:E.
    - exists e. now apply attempt_error_body.
    - exfalso. apply (Hfail 0%Z); [lia | exact E]. }
  assert (H1 : exists e l, Retry.attempt_body path_str 1 (obs 1%Z) = (inl e, l)).
  { destruct (Retry.attempt_error path_str obs 1) as [e|] eqn:E.
    - exists e. now apply attempt_error_body.
    - exfalso. apply (Hfail 1%Z); [lia | exact E]. }
  assert (H2 : exists e l, Retry.attempt_body path_str 2 (obs 2%Z) = (inl e, l)).
  { destruct (Retry.attempt_error path_str obs 2) as [e|] eqn:E.
    - exists e. now apply attempt_error_body.
    - exfalso. apply (Hfail 2%Z); [lia | exact E]. }
  destruct H0 as (e0 & l0 & B0), H1 as (e1 & l1 & B1), H2 as (e2 & l2 & B2).
  destruct (attempt_content_body _ _ _ _ Hok) as (l3 & B3).
  assert (Hr : Retry.rr_content r = Some c /\
               Retry.sleeps (Retry.rr_effects r) = [5; 7; 10]%Z).
  { subst r. unfold Retry.read_file_with_retry, Retry.attempts_of.
    change (Z.to_nat (Z.succ (Retry.max_retries Retry.FileReadRetryConfig_default)))
      with 4%nat.
    cbn [Retry.retry_loop]. rewrite B0.
    change (0 <? 0)%Z with false. cbn iota. change (0 + 1)%Z with 1%Z.
    cbn [Retry.retry_loop]. rewrite B1.
    change (0 <? 1)%Z with true. cbn iota. change (1 + 1)%Z with 2%Z.
    cbn [Retry.retry_loop]. rewrite B2.
    change (0 <? 2)%Z with true. cbn iota. change (2 + 1)%Z with 3%Z.
    cbn [Retry.retry_loop]. rewrite B3.
    change (0 <? 3)%Z with true. cbn iota.
    cbn [Retry.rr_content Retry.rr_effects].
    split; [reflexivity|].
    repeat rewrite sleeps_app. repeat rewrite sleeps_logged. reflexivity. }
  destruct Hr as [Hc Hs]. repeat split; [exact Hc | exact Hs |].
  unfold Retry.total_sleep. rewrite Hs. reflexivity.
Qed.

Lemma read_file_with_retry_backoff_truncates_witness :
  let r := Retry.read_file_with_retry "params.ini" Retry.FileReadRetryConfig_default
                                      (Scenario.editor_saving "speed=2.5") in
  Retry.rr_content r = Some "speed=2.5" /\
  Retry.sleeps (Retry.rr_effects r) = [5; 7; 10]%Z /\
  Retry.total_sleep r = 22%Z.
Proof.
  apply (read_file_with_retry_backoff_truncates
           "params.ini" (Scenario.editor_saving "speed=2.5") "speed=2.5").
  - intros a Ha. unfold Retry.attempt_error, Scenario.editor_saving.
    destruct (a <? 3)%Z eqn:E; [simpl; discriminate | lia].
  - reflexivity.
Defined.

(** ** The watcher configuration and the overflow branch *)

Section WatcherFacts.
Import Watcher.
Context {U : Type}.

Lemma validate_upper (c : FileWatcherConfig U) :
  (buffer_size (validate c) <= max_buffer_size (validate c))%Z.
Proof.
  unfold validate; simpl.
  destruct (buffer_size c <? min_buffer_size)%Z eqn:E1;
    destruct (max_buffer_size c <? _)%Z eqn:E2; lia.
Qed.

(** Below the fixed minimum the second clamp wins. *)
Lemma validate_low_maximum (c : FileWatcherConfig U) :
  (max_buffer_size c < min_buffer_size)%Z ->
  buffer_size (validate c) = max_buffer_size c.
Proof.
  unfold validate; simpl. intros Hlt.
  destruct (buffer_size c <? min_buffer_size)%Z eqn:E1;
    destruct (max_buffer_size c <? _)%Z eqn:E2; lia.
Qed.

Lemma validate_invariant (c : FileWatcherConfig U) :
  (min_buffer_size <= max_buffer_size c)%Z -> buffer_invariant (validate c).
Proof.
  unfold buffer_invariant, validate; simpl. intros Hle.
  destruct (buffer_size c <? min_buffer_size)%Z eqn:E1;
    destruct (max_buffer_size c <? _)%Z eqn:E2; lia.
Qed.

(** Once the buffer has reached [max_buffer_size] the overflow branch
    changes nothing and calls nothing. *)
Lemma on_overflow_at_maximum (cfg : FileWatcherConfig U) (resize_ok : bool)
    (w : Worker U) :
  (max_buffer_size cfg <= buffer w)%Z -> on_overflow cfg resize_ok w = w.
Proof.
  intros Hle. unfold on_overflow.
  destruct (auto_grow_buffer cfg); [|reflexivity].
  destruct (buffer w <? Z.min _ _)%Z eqn:E; [lia | reflexivity].
Qed.

(** Below the maximum the buffer doubles, capped, and the callback gets
    the old and the new size. *)
Lemma on_overflow_grows (cfg : FileWatcherConfig U) (w : Worker U) cb :
  auto_grow_buffer cfg = true ->
  on_buffer_overflow cfg = Some cb ->
  (0 < buffer w < max_buffer_size cfg)%Z ->
  (2 * buffer w < size_max)%Z ->
  let w' := on_overflow cfg true w in
  buffer w' = Z.min (2 * buffer w) (max_buffer_size cfg) /\
  overflow_calls w' = (overflow_calls w ++ [(buffer w, buffer w')])%list.
Proof.
  intros Hauto Hcb Hlt Hsz. unfold on_overflow. rewrite Hauto, Hcb.
  unfold size_mul. rewrite Z.mod_small by lia.
  replace (buffer w * 2)%Z with (2 * buffer w)%Z by lia.
  destruct (buffer w <? Z.min _ _)%Z eqn:E; [|lia].
  simpl. split; reflexivity.
Qed.

End WatcherFacts.

(** C7, on the code.  With [auto_grow_buffer], [buffer_size = 4096] and
    [max_buffer_size = 8192], the first overflow signal grows the buffer to
    8192 and calls [on_buffer_overflow(4096, 8192)]; a second overflow
    signal leaves the buffer at 8192 and makes no call at all: the callback
    never sees [new_size = 0]. *)
Theorem overflow_at_maximum_is_not_reported :
  let cfg := Scenario.small_buffer_config in
  let overflow := Watcher.ReadFailed Watcher.ERROR_NOTIFY_ENUM_DIR true in
  let w1 := Watcher.worker_loop cfg "params.json" [overflow]
                                (Watcher.worker_start cfg []) in
  let w2 := Watcher.worker_loop cfg "params.json" [overflow; overflow]
                                (Watcher.worker_start cfg []) in
  Watcher.buffer w1 = 8192%Z /\
  Watcher.user w1 = [(4096, 8192)%Z] /\
  Watcher.buffer w2 = 8192%Z /\
  Watcher.overflow_calls w2 = [(4096, 8192)%Z] /\
  Watcher.user w2 = [(4096, 8192)%Z].
Proof. repeat split; reflexivity. Qed.

(** C8, as stated, fails: with [max_buffer_size = 1000] validation leaves
    [buffer_size = 1000], below the minimum of 4096. *)
Lemma validate_low_maximum_breaks_invariant :
  Watcher.buffer_size (Watcher.validate Scenario.low_maximum_config) = 1000%Z /\
  ~ Watcher.buffer_invariant (Watcher.validate Scenario.low_maximum_config).
Proof.
  split; [reflexivity|].
  unfold Watcher.buffer_invariant. simpl. unfold Watcher.min_buffer_size. lia.
Qed.

(** ** wait_for_change and stop *)

Section WaitFacts.
Import Watcher.

(** A [true] from [wait_for_change] means the step saw the flag set and
    cleared it. *)
Lemma waiter_true_consumes_flag t pc f f' :
  waiter_step t pc f = Some (WReturned true, f') ->
  f_change_detected f = true /\ f' = mkFlags (f_running f) false.
Proof.
  unfold waiter_step, after_wait, wait_for_point, wait_pred.
  destruct pc, f as [[|] [|]], t; simpl; intros E; inversion E; auto.
Qed.

(** A wake-up by timeout with no change pending on a running watcher
    returns [false]. *)
Lemma waiter_timeout_returns_false :
  waiter_step true WBlocked (mkFlags true false)
  = Some (WReturned false, mkFlags true false).
Proof. reflexivity. Qed.

(** Whenever a blocked waiter wakes up after the locked store of [stop()]
    it returns [true]. *)
Lemma waiter_after_stop_store t f pc' f' :
  stop_step SStored f = Some (pc', f') ->
  waiter_step t WBlocked f' = Some (WReturned true, mkFlags (f_running f) false).
Proof.
  simpl. intros E. inversion E; subst. destruct t; reflexivity.
Qed.

End WaitFacts.

(** C4, on the code.  A thread blocks in [wait_for_change(timeout)] on a
    running watcher with no change pending; another thread runs [stop()]
    up to its [notify_all]; the waiter wakes up before its timeout.  The
    wait returns [true], not [false]: [stop()] has itself set
    [change_detected_], and the waiter consumes that flag as if the file
    had changed. *)
Theorem wait_for_change_returns_true_on_stop :
  Watcher.run Scenario.stop_while_blocked Scenario.idle_running
  = Some (Watcher.mkSys (Watcher.mkFlags false false)
                        (Watcher.WReturned true) Watcher.SNotified).
Proof. reflexivity. Qed.

(** ** picojson always answers *)

Section PicojsonFacts.
Import picojson.
Context `{LibC}.

Lemma code_nonneg (c : ascii) : (0 <= code c)%Z.
Proof. unfold code. lia. Qed.

Lemma wf_input_new s : wf (input_new s).
Proof. unfold wf, input_new; simpl. discriminate. Qed.

Lemma unread_input_new s : unread (input_new s) = String.length s.
Proof.
  unfold unread, input_new; simpl.
  induction s as [|c s IH]; simpl; [reflexivity | now rewrite IH].
Qed.

Lemma unread_le_cur i : (unread i <= length (cur_ i))%nat.
Proof. unfold unread. destruct (consumed_ i); lia. Qed.

(** [getc] either meets the end, with nothing left unread, or hands out
    one character and leaves one less unread. *)
Lemma getc_spec i ch i1 :
  wf i -> getc i = (ch, i1) ->
  wf i1 /\
  ((ch = (-1)%Z /\ unread i = 0%nat /\ unread i1 = 0%nat /\ consumed_ i1 = false)
   \/ ((0 <= ch)%Z /\ consumed_ i1 = true /\ unread i = S (unread i1))).
Proof.
  unfold wf, getc, unread. intros Hwf.
  destruct i as [cur [|] line]; simpl in *.
  - destruct cur as [|c rest]; [now exfalso; apply Hwf|]. simpl.
    destruct rest as [|d rest']; simpl; intros E; inversion E; subst; simpl.
    + split; [discriminate|]. left. auto.
    + split; [discriminate|]. right. split; [apply code_nonneg | auto].
  - destruct cur as [|c rest]; simpl; intros E; inversion E; subst; simpl.
    + split; [discriminate|]. left. auto.
    + split; [discriminate|]. right. split; [apply code_nonneg | auto].
Qed.

Lemma wf_ungetc i : wf (ungetc i).
Proof. unfold wf, ungetc; simpl. discriminate. Qed.

Lemma unread_ungetc i :
  unread (ungetc i) = length (cur_ i).
Proof. reflexivity. Qed.

(** After [getc] then [ungetc] nothing has been used up. *)
Lemma getc_ungetc i ch i1 :
  wf i -> getc i = (ch, i1) -> unread (ungetc i1) = unread i.
Proof.
  unfold wf, getc, unread, ungetc. intros Hwf.
  destruct i as [cur [|] line]; simpl in *.
  - destruct cur as [|c rest]; [now exfalso; apply Hwf|]. simpl.
    destruct rest as [|d rest']; simpl; intros E; inversion E; subst; reflexivity.
  - destruct cur as [|c rest]; simpl; intros E; inversion E; subst; reflexivity.
Qed.


Ltac getc_cases i ch i1 G Hw :=
  destruct (getc i) as [ch i1] eqn:G;
  let Hw1 := fresh "Hw" in
  let Hend := fresh "Hend" in
  let Hch := fresh "Hch" in
  destruct (getc_spec _ _ _ Hw G) as (Hw1 & [Hend|Hch]);
  [destruct Hend as (? & ? & ? & ?) | destruct Hch as (? & ? & ?)].

Lemma skip_ws_loop_total :
  forall fuel i, wf i -> (unread i < fuel)%nat ->
    exists i', skip_ws_loop fuel i = Some i' /\ wf i' /\ (unread i' <= unread i)%nat.
Proof.
  induction fuel as [|f IH]; intros i Hw Hlt; [lia|]. simpl.
  getc_cases i ch i1 G Hw.
  - subst ch. simpl. exists (ungetc i1).
    split; [reflexivity|]. split; [apply wf_ungetc|].
    rewrite (getc_ungetc _ _ _ Hw G). lia.
  - destruct (is_ws ch).
    + destruct (IH i1) as (i' & E & Hw' & Hle); [assumption | lia |].
      exists i'. split; [exact E|]. split; [exact Hw' | lia].
    + exists (ungetc i1). split; [reflexivity|]. split; [apply wf_ungetc|].
      rewrite (getc_ungetc _ _ _ Hw G). lia.
Qed.

Lemma skip_ws_total i :
  wf i -> exists i', skip_ws i = Some i' /\ wf i' /\ (unread i' <= unread i)%nat.
Proof.
  intros Hw. apply skip_ws_loop_total; [exact Hw|].
  pose proof (unread_le_cur i). lia.
Qed.

Lemma expect_total expected i :
  wf i -> (0 <= expected)%Z ->
  exists b i', expect expected i = Some (b, i') /\ wf i' /\
               (unread i' <= unread i)%nat /\
               (b = true -> (unread i' < unread i)%nat).
Proof.
  intros Hw Hpos. unfold expect.
  destruct (skip_ws_total i Hw) as (i1 & E & Hw1 & Hle). rewrite E.
  getc_cases i1 ch i2 G Hw1.
  - subst ch. destruct (-1 =? expected)%Z eqn:Eq; [lia|].
    exists false, (ungetc i2). split; [reflexivity|]. split; [apply wf_ungetc|].
    rewrite (getc_ungetc _ _ _ Hw1 G). split; [lia | discriminate].
  - destruct (ch =? expected)%Z.
    + exists true, i2. split; [reflexivity|]. split; [assumption|]. split; lia.
    + exists false, (ungetc i2). split; [reflexivity|]. split; [apply wf_ungetc|].
      rewrite (getc_ungetc _ _ _ Hw1 G). split; [lia | discriminate].
Qed.

Lemma match_spec :
  forall pattern i b i', wf i -> match_ pattern i = (b, i') ->
    wf i' /\ (unread i' <= unread i)%nat.
Proof.
  induction pattern as [|p ps IH]; intros i b i' Hw; simpl.
  - intros E; inversion E; subst. split; [assumption | lia].
  - getc_cases i ch i1 G Hw.
    + destruct (ch =? code p)%Z.
      * intros E. destruct (IH _ _ _ Hw0 E). split; [assumption | lia].
      * intros E; inversion E; subst. split; [apply wf_ungetc|].
        rewrite (getc_ungetc _ _ _ Hw G). lia.
    + destruct (ch =? code p)%Z.
      * intros E. destruct (IH _ _ _ Hw0 E). split; [assumption | lia].
      * intros E; inversion E; subst. split; [apply wf_ungetc|].
        rewrite (getc_ungetc _ _ _ Hw G). lia.
Qed.

Lemma quadhex_loop_spec :
  forall n u i r i', wf i -> quadhex_loop n u i = (r, i') ->
    wf i' /\ (unread i' <= unread i)%nat.
Proof.
  induction n as [|n IH]; intros u i r i' Hw; simpl.
  - intros E; inversion E; subst. split; [assumption | lia].
  - getc_cases i hex i1 G Hw.
    + subst hex. simpl. intros E; inversion E; subst. split; [assumption | lia].
    + destruct (hex =? -1)%Z; [intros E; inversion E; subst; split; [assumption | lia]|].
      destruct ((48 <=? hex)%Z && (hex <=? 57)%Z);
        [intros E; destruct (IH _ _ _ _ Hw0 E); split; [assumption | lia]|].
      destruct ((65 <=? hex)%Z && (hex <=? 70)%Z);
        [intros E; destruct (IH _ _ _ _ Hw0 E); split; [assumption | lia]|].
      destruct ((97 <=? hex)%Z && (hex <=? 102)%Z);
        [intros E; destruct (IH _ _ _ _ Hw0 E); split; [assumption | lia]|].
      intros E; inversion E; subst. split; [apply wf_ungetc|].
      rewrite (getc_ungetc _ _ _ Hw G). lia.
Qed.

Lemma getc_le i ch i1 :
  wf i -> getc i = (ch, i1) -> wf i1 /\ (unread i1 <= unread i)%nat.
Proof.
  intros Hw G. destruct (getc_spec _ _ _ Hw G) as (Hw1 & [(?&?&?&?)|(?&?&?)]);
    split; try assumption; lia.
Qed.

Lemma getc_unget_le i ch i1 :
  wf i -> getc i = (ch, i1) -> wf (ungetc i1) /\ (unread (ungetc i1) <= unread i)%nat.
Proof.
  intros Hw G. split; [apply wf_ungetc|]. rewrite (getc_ungetc _ _ _ Hw G). lia.
Qed.

Lemma _parse_codepoint_spec out i ok out' i' :
  wf i -> _parse_codepoint out i = (ok, out', i') ->
  wf i' /\ (unread i' <= unread i)%nat.
Proof.
  intros Hw. unfold _parse_codepoint, _parse_quadhex.
  destruct (quadhex_loop 4 0 i) as [uni_ch i1] eqn:Q1.
  destruct (quadhex_loop_spec _ _ _ _ _ Hw Q1) as (Hw1 & Hle1).
  destruct (uni_ch =? -1)%Z; [intros E; inversion E; subst; auto|].
  destruct ((55296 <=? uni_ch)%Z && (uni_ch <=? 57343)%Z);
    [|intros E; inversion E; subst; auto].
  destruct (56320 <=? uni_ch)%Z; [intros E; inversion E; subst; auto|].
  destruct (getc i1) as [c1 i2] eqn:G1.
  destruct (getc_le _ _ _ Hw1 G1) as (Hw2 & Hle2).
  destruct (negb (c1 =? 92)%Z).
  { intros E; inversion E; subst.
    destruct (getc_unget_le _ _ _ Hw1 G1). split; [assumption | lia]. }
  destruct (getc i2) as [c2 i3] eqn:G2.
  destruct (getc_le _ _ _ Hw2 G2) as (Hw3 & Hle3).
  destruct (negb (c2 =? 117)%Z).
  { intros E; inversion E; subst.
    destruct (getc_unget_le _ _ _ Hw2 G2). split; [assumption | lia]. }
  destruct (quadhex_loop 4 0 i3) as [second i4] eqn:Q2.
  destruct (quadhex_loop_spec _ _ _ _ _ Hw3 Q2) as (Hw4 & Hle4).
  destruct (negb _); intros E; inversion E; subst; split; try assumption; lia.
Qed.

Lemma _parse_string_loop_total :
  forall fuel out i, wf i -> (unread i < fuel)%nat ->
    exists ok out' i', _parse_string_loop fuel out i = Some (ok, out', i') /\
                       wf i' /\ (unread i' <= unread i)%nat.
Proof.
  induction fuel as [|f IH]; intros out i Hw Hlt; [lia|]. simpl.
  getc_cases i ch i1 G Hw.
  - subst ch. simpl. eexists _, _, _. split; [reflexivity|].
    apply (getc_unget_le _ _ _ Hw G).
  - destruct (ch <? 32)%Z.
    { eexists _, _, _. split; [reflexivity|]. apply (getc_unget_le _ _ _ Hw G). }
    destruct (ch =? 34)%Z.
    { eexists _, _, _. split; [reflexivity|]. split; [assumption | lia]. }
    destruct (ch =? 92)%Z.
    + destruct (getc i1) as [ch2 i2] eqn:G2.
      destruct (getc_le _ _ _ Hw0 G2) as (Hw2 & Hle2).
      destruct (ch2 =? -1)%Z.
      { eexists _, _, _. split; [reflexivity|]. split; [assumption | lia]. }
      destruct (escape ch2) as [c|].
      { destruct (IH (push_back out c) i2) as (ok & o' & i' & E & Hw' & Hle');
          [assumption | lia |].
        exists ok, o', i'. split; [exact E|]. split; [assumption | lia]. }
      destruct (ch2 =? 117)%Z.
      * destruct (_parse_codepoint out i2) as [[okc outc] i3] eqn:C.
        destruct (_parse_codepoint_spec _ _ _ _ _ Hw2 C) as (Hw3 & Hle3).
        destruct okc.
        -- destruct (IH outc i3) as (ok & o' & i' & E & Hw' & Hle');
             [assumption | lia |].
           exists ok, o', i'. split; [exact E|]. split; [assumption | lia].
        -- eexists _, _, _. split; [reflexivity|]. split; [assumption | lia].
      * eexists _, _, _. split; [reflexivity|]. split; [assumption | lia].
    + destruct (IH (push_back out (to_char ch)) i1) as (ok & o' & i' & E & Hw' & Hle');
        [assumption | lia |].
      exists ok, o', i'. split; [exact E|]. split; [assumption | lia].
Qed.

Lemma _parse_string_total out i :
  wf i ->
  exists ok out' i', _parse_string out i = Some (ok, out', i') /\
                     wf i' /\ (unread i' <= unread i)%nat.
Proof.
  intros Hw. apply _parse_string_loop_total; [exact Hw|].
  pose proof (unread_le_cur i). lia.
Qed.

Lemma length_push_back s c : String.length (push_back s c) = S (String.length s).
Proof.
  unfold push_back. induction s as [|d s IH]; simpl; [reflexivity | now rewrite IH].
Qed.

(** [_parse_number] accounts for every character it takes. *)
Lemma _parse_number_loop_total :
  forall fuel num_str i, wf i -> (unread i < fuel)%nat ->
    exists s' i', _parse_number_loop fuel num_str i = Some (s', i') /\ wf i' /\
                  (unread i' + String.length s' = unread i + String.length num_str)%nat.
Proof.
  induction fuel as [|f IH]; intros s i Hw Hlt; [lia|]. simpl.
  getc_cases i ch i1 G Hw.
  - subst ch. simpl. eexists _, _. split; [reflexivity|]. split; [apply wf_ungetc|].
    rewrite (getc_ungetc _ _ _ Hw G). lia.
  - destruct (is_number_char ch).
    + destruct (IH (push_back s (to_char ch)) i1) as (s' & i' & E & Hw' & Heq);
        [assumption | lia |].
      exists s', i'. split; [exact E|]. split; [assumption|].
      rewrite length_push_back in Heq. lia.
    + eexists _, _. split; [reflexivity|]. split; [apply wf_ungetc|].
      rewrite (getc_ungetc _ _ _ Hw G). lia.
Qed.

Lemma _parse_number_total i :
  wf i ->
  exists s' i', _parse_number i = Some (s', i') /\ wf i' /\
                (unread i' + String.length s' = unread i)%nat.
Proof.
  intros Hw.
  destruct (_parse_number_loop_total (S (length (cur_ i))) "" i Hw) as (s' & i' & E & Hw' & Heq).
  { pose proof (unread_le_cur i). lia. }
  exists s', i'. split; [exact E|]. split; [assumption|]. simpl in Heq. lia.
Qed.

Lemma near_loop_total :
  forall fuel err i, wf i -> (unread i < fuel)%nat ->
    exists r, near_loop fuel err i = Some r.
Proof.
  induction fuel as [|f IH]; intros err i Hw Hlt; [lia|]. simpl.
  getc_cases i ch i1 G Hw.
  - subst ch. simpl. eauto.
  - destruct ((ch =? -1)%Z || (ch =? 10)%Z); [eauto|].
    destruct (32 <=? ch)%Z; apply IH; try assumption; lia.
Qed.


Lemma total_below_le n m item :
  (m <= n)%nat -> total_below n item -> total_below m item.
Proof. intros Hle Ht out i Hw Hi. apply Ht; [assumption | lia]. Qed.

Lemma array_items_total item :
  forall fuel a i, wf i -> (unread i < fuel)%nat -> total_below (unread i) item ->
    exists c, array_items item fuel a i = Some c /\
              forall r, c = Returns r ->
                wf (snd r) /\ (unread (snd r) <= unread i)%nat.
Proof.
  induction fuel as [|f IH]; intros a i Hw Hlt Ht; [lia|]. simpl.
  destruct (Ht null i Hw) as (c1 & E & Hadv); [lia|].
  rewrite E. destruct c1 as [[[ok v] i1]|];
    [|eexists; split; [reflexivity | discriminate]].
  destruct Hadv as (Hw1 & Hle1 & Hst1). simpl in Hw1, Hle1, Hst1.
  destruct ok; simpl;
    [|eexists; split; [reflexivity|]; intros r [= <-]; simpl; auto].
  specialize (Hst1 eq_refl).
  destruct (expect_total 44 i1 Hw1) as (b & i2 & E2 & Hw2 & Hle2 & _); [lia|].
  rewrite E2. destruct b.
  - destruct (IH (a ++ [v])%list i2) as (c & Ec & Hc);
      [assumption | lia | apply (total_below_le (unread i)); [lia | exact Ht] |].
    exists c. split; [exact Ec|]. intros r Hr.
    destruct (Hc r Hr) as (Hwr & Hler). split; [assumption | lia].
  - destruct (expect_total 93 i2 Hw2) as (b3 & i3 & E3 & Hw3 & Hle3 & _); [lia|].
    rewrite E3. eexists; split; [reflexivity|]. intros r [= <-]. simpl.
    split; [assumption | lia].
Qed.

Lemma object_items_total item :
  forall fuel o i, wf i -> (unread i < fuel)%nat -> total_below (unread i) item ->
    exists c, object_items item fuel o i = Some c /\
              forall r, c = Returns r ->
                wf (snd r) /\ (unread (snd r) <= unread i)%nat.
Proof.
  induction fuel as [|f IH]; intros o i Hw Hlt Ht; [lia|]. simpl.
  destruct (expect_total 34 i Hw) as (b1 & i1 & E1 & Hw1 & Hle1 & Hst1); [lia|].
  rewrite E1.
  destruct b1; [|eexists; split; [reflexivity|]; intros r [= <-]; simpl; auto].
  specialize (Hst1 eq_refl).
  destruct (_parse_string_total "" i1 Hw1) as (oks & key & i2 & E2 & Hw2 & Hle2).
  rewrite E2.
  destruct oks;
    [|eexists; split; [reflexivity|]; intros r [= <-]; simpl; split; [assumption | lia]].
  destruct (expect_total 58 i2 Hw2) as (b3 & i3 & E3 & Hw3 & Hle3 & _); [lia|].
  rewrite E3.
  destruct b3;
    [|eexists; split; [reflexivity|]; intros r [= <-]; simpl; split; [assumption | lia]].
  destruct (Ht (default null (o !! key)) i3 Hw3) as (c4 & E4 & Hadv); [lia|].
  rewrite E4. destruct c4 as [[[ok v] i4]|];
    [|eexists; split; [reflexivity | discriminate]].
  destruct Hadv as (Hw4 & Hle4 & _). simpl in Hw4, Hle4.
  destruct ok; simpl;
    [|eexists; split; [reflexivity|]; intros r [= <-]; simpl; split; [assumption | lia]].
  destruct (expect_total 44 i4 Hw4) as (b5 & i5 & E5 & Hw5 & Hle5 & _); [lia|].
  rewrite E5. destruct b5.
  - destruct (IH (<[key := v]> o) i5) as (c & Ec & Hc);
      [assumption | lia | apply (total_below_le (unread i)); [lia | exact Ht] |].
    exists c. split; [exact Ec|]. intros r Hr.
    destruct (Hc r Hr) as (Hwr & Hler). split; [assumption | lia].
  - destruct (expect_total 125 i5 Hw5) as (b6 & i6 & E6 & Hw6 & Hle6 & _); [lia|].
    rewrite E6. eexists; split; [reflexivity|]. intros r [= <-]. simpl.
    split; [assumption | lia].
Qed.

Lemma _parse_array_total item depths out i :
  wf i -> (forall d, total_below (unread i) (item d)) ->
  exists c, _parse_array item depths out i = Some c /\
            forall r, c = Returns r ->
              wf (snd r) /\ (unread (snd r) <= unread i)%nat.
Proof.
  intros Hw Ht. unfold _parse_array.
  destruct (depths =? 0)%Z;
    [eexists; split; [reflexivity|]; intros r [= <-]; simpl; auto|].
  destruct (expect_total 93 i Hw) as (b & i1 & E & Hw1 & Hle1 & _); [lia|].
  rewrite E.
  destruct b; [eexists; split; [reflexivity|]; intros r [= <-]; simpl; auto|].
  destruct (array_items_total (item (depths - 1)%Z) (S (length (cur_ i1))) [] i1)
    as (c & Ec & Hc).
  - assumption.
  - pose proof (unread_le_cur i1). lia.
  - apply (total_below_le (unread i)); [lia | apply Ht].
  - exists c. split; [exact Ec|]. intros r Hr.
    destruct (Hc r Hr) as (Hwr & Hler). split; [assumption | lia].
Qed.

Lemma _parse_object_total item depths out i :
  wf i -> (forall d, total_below (unread i) (item d)) ->
  exists c, _parse_object item depths out i = Some c /\
            forall r, c = Returns r ->
              wf (snd r) /\ (unread (snd r) <= unread i)%nat.
Proof.
  intros Hw Ht. unfold _parse_object.
  destruct (depths =? 0)%Z;
    [eexists; split; [reflexivity|]; intros r [= <-]; simpl; auto|].
  destruct (expect_total 125 i Hw) as (b & i1 & E & Hw1 & Hle1 & _); [lia|].
  rewrite E.
  destruct b; [eexists; split; [reflexivity|]; intros r [= <-]; simpl; auto|].
  destruct (object_items_total (item depths) (S (length (cur_ i1))) ∅ i1)
    as (c & Ec & Hc).
  - assumption.
  - pose proof (unread_le_cur i1). lia.
  - apply (total_below_le (unread i)); [lia | apply Ht].
  - exists c. split; [exact Ec|]. intros r Hr.
    destruct (Hc r Hr) as (Hwr & Hler). split; [assumption | lia].
Qed.

(** With more fuel than characters unread, [_parse] answers (by a result
    or by its exception), and a result advances. *)
Lemma _parse_total :
  forall fuel depths out i, wf i -> (unread i < fuel)%nat ->
    exists c, _parse fuel depths out i = Some c /\ advances i c.
Proof.
  induction fuel as [|f IH]; intros depths out i Hw Hlt; [lia|].
  cbn [_parse].
  destruct (skip_ws_total i Hw) as (i0 & E0 & Hw0 & Hle0). rewrite E0.
  assert (Hitems : forall i1, (unread i1 < unread i)%nat ->
                     forall d, total_below (unread i1) (_parse f d)).
  { intros i1 Hi1 d out' i' Hw' Hi'. apply IH; [assumption | lia]. }
  destruct (getc i0) as [ch i1] eqn:G.
  destruct (getc_spec _ _ _ Hw0 G) as (Hw1 & [(-> & Hz & Hz1 & Hc)|(Hpos & Hc & Hs)]).
  - (* end of input *)
    simpl. eexists; split; [reflexivity|]. unfold advances; simpl.
    split; [apply wf_ungetc|]. rewrite (getc_ungetc _ _ _ Hw0 G).
    split; [lia | discriminate].
  - destruct (ch =? 110)%Z.
    { destruct (match_ _ i1) as [m i2] eqn:M.
      destruct (match_spec _ _ _ _ Hw1 M) as (Hw2 & Hle2).
      eexists; split; [reflexivity|].
      destruct m; unfold advances; simpl; (split; [assumption|]; split; lia). }
    destruct (ch =? 102)%Z.
    { destruct (match_ _ i1) as [m i2] eqn:M.
      destruct (match_spec _ _ _ _ Hw1 M) as (Hw2 & Hle2).
      eexists; split; [reflexivity|].
      destruct m; unfold advances; simpl; (split; [assumption|]; split; lia). }
    destruct (ch =? 116)%Z.
    { destruct (match_ _ i1) as [m i2] eqn:M.
      destruct (match_spec _ _ _ _ Hw1 M) as (Hw2 & Hle2).
      eexists; split; [reflexivity|].
      destruct m; unfold advances; simpl; (split; [assumption|]; split; lia). }
    destruct (ch =? 34)%Z.
    { destruct (_parse_string_total "" i1 Hw1) as (ok & s' & i2 & E2 & Hw2 & Hle2).
      rewrite E2. eexists; split; [reflexivity|].
      unfold advances; simpl. split; [assumption|]. split; lia. }
    destruct (ch =? 91)%Z.
    { destruct (_parse_array_total (_parse f) depths out i1 Hw1) as (c & Ec & Hc').
      { apply Hitems. lia. }
      exists c. split; [exact Ec|]. destruct c as [r|]; [|exact I].
      destruct (Hc' r eq_refl) as (Hwr & Hler).
      unfold advances. split; [assumption|]. split; lia. }
    destruct (ch =? 123)%Z.
    { destruct (_parse_object_total (_parse f) depths out i1 Hw1) as (c & Ec & Hc').
      { apply Hitems. lia. }
      exists c. split; [exact Ec|]. destruct c as [r|]; [|exact I].
      destruct (Hc' r eq_refl) as (Hwr & Hler).
      unfold advances. split; [assumption|]. split; lia. }
    destruct ((48 <=? ch)%Z && (ch <=? 57)%Z || (ch =? 45)%Z).
    { destruct (_parse_number_total (ungetc i1) (wf_ungetc i1))
        as (num_str & i2 & E2 & Hw2 & Heq).
      rewrite E2. rewrite (getc_ungetc _ _ _ Hw0 G) in Heq.
      destruct (String.eqb num_str "") eqn:Es.
      - eexists; split; [reflexivity|]. unfold advances; simpl.
        split; [assumption|]. split; [lia | discriminate].
      - assert (Hlen : (0 < String.length num_str)%nat).
        { destruct num_str; [discriminate | simpl; lia]. }
        destruct (strtod num_str) as [x used].
        destruct (Nat.eqb used (String.length num_str)).
        + unfold value_of_double. destruct (isnan x || isinf x).
          * eexists; split; [reflexivity | exact I].
          * eexists; split; [reflexivity|]. unfold advances; simpl.
            split; [assumption|]. split; [lia|]. intros _. lia.
        + eexists; split; [reflexivity|]. unfold advances; simpl.
          split; [assumption|]. split; [lia | discriminate]. }
    eexists; split; [reflexivity|]. unfold advances; simpl.
    split; [apply wf_ungetc|]. rewrite (getc_ungetc _ _ _ Hw0 G).
    split; [lia | discriminate].
Qed.

(** [picojson::parse] ends on every text: it returns, or the exception of
    [value(double)] leaves it. *)
Lemma picojson_parse_total (s : string) : exists c, parse s = Some c.
Proof.
  unfold parse.
  destruct (_parse_total (S (String.length s)) DEFAULT_MAX_DEPTHS null (input_new s))
    as (c & E & Hadv).
  - apply wf_input_new.
  - rewrite unread_input_new. lia.
  - rewrite E. destruct c as [[[ok v] i1]|]; [|eauto].
    destruct Hadv as (Hw1 & _). destruct ok; [eauto|].
    simpl in Hw1.
    destruct (near_loop_total (S (S (length (cur_ i1))))
                ("syntax error at line " ++ pretty (line_ i1) ++ " near: ") i1 Hw1)
      as ([err i2] & En).
    { pose proof (unread_le_cur i1). lia. }
    rewrite En. eauto.
Qed.

End PicojsonFacts.

(** Hence the JSON branch of [load_file], [load_file] and [update] always
    end, by a result or by the parser's exception. *)
Lemma parse_content_total `{LibC} (f : Parsers.FileFormat) (content : string) :
  exists c, ParamsImpl.parse_content f content = Some c.
Proof.
  unfold ParamsImpl.parse_content, PicojsonParser.parse.
  destruct f;
    try (destruct (Parsers.SimpleKeyValueParser.parse content _); eauto).
  destruct (picojson_parse_total content) as ([[err v]|] & E); rewrite E; [|eauto].
  destruct v; eauto. destruct (negb (String.eqb err "")); eauto.
Qed.

Lemma load_file_total `{LibC} (p : ParamsImpl.Params) (st : gmap nat ParamsImpl.Val)
    (o : ParamsImpl.UpdateObs) :
  exists r, ParamsImpl.load_file p st o = Some r.
Proof.
  unfold ParamsImpl.load_file.
  destruct (Retry.rr_content _) as [content|]; [|eauto].
  destruct (parse_content_total (ParamsImpl.format_ p) content)
    as ([[[parsed nv] msg]|] & E); rewrite E; [|eauto].
  destruct (negb parsed && _); [eauto|].
  destruct (negb _ && _); [eauto|].
  destruct (ParamsImpl.update_bindings _ _ _). eauto.
Qed.

Lemma update_total `{LibC} (thread : ParamsImpl.ThreadId) (p : ParamsImpl.Params)
    (st : gmap nat ParamsImpl.Val) (o : ParamsImpl.UpdateObs) :
  exists r, ParamsImpl.update thread p st o = Some r.
Proof.
  unfold ParamsImpl.update.
  destruct (ParamsImpl.in_callback_ p); [eauto|].
  destruct (_ && _ && _); [eauto|].
  destruct (load_file_total p st o) as ([[[[updated|] p1] st1] ev1] & E); rewrite E;
    [|eauto].
  destruct (if updated then _ else _) as [cb|]; [|eauto].
  destruct (cb st1). eauto.
Qed.

(** ** The orchestrator *)

(** C8, amended.  For every configuration whose [max_buffer_size] is at
    least the fixed minimum of 4096, validation on assignment (by
    [FileWatcherConfig::validate], by the [FileWatcher] constructor and by
    [Params::set_watcher_config]) establishes
    [min_buffer_size <= buffer_size <= max_buffer_size]. *)
Theorem validate_establishes_buffer_invariant `{LibC}
    (c : Watcher.FileWatcherConfig (gmap nat ParamsImpl.Val)) (p : ParamsImpl.Params) :
  (Watcher.min_buffer_size <= Watcher.max_buffer_size c)%Z ->
  Watcher.buffer_invariant (Watcher.validate c) /\
  Watcher.buffer_invariant (Watcher.config_ (Watcher.FileWatcher_new c)) /\
  Watcher.buffer_invariant
    (ParamsImpl.file_watcher_config_ (ParamsImpl.set_watcher_config p c)).
Proof.
  intros Hle. pose proof (validate_invariant c Hle) as Hv.
  repeat split; try apply Hv.
Qed.

Lemma validate_establishes_buffer_invariant_witness :
  let c := Watcher.mkWatcherConfig 100 true 8192 None in
  let p := ParamsImpl.Params_new (H := DecimalPlatform.decimal) "params.json" Parsers.Auto in
  Watcher.buffer_invariant (Watcher.validate c) /\
  Watcher.buffer_invariant (Watcher.config_ (Watcher.FileWatcher_new c)) /\
  Watcher.buffer_invariant
    (ParamsImpl.file_watcher_config_ (ParamsImpl.set_watcher_config p c)).
Proof.
  apply (validate_establishes_buffer_invariant (H := DecimalPlatform.decimal)).
  simpl. unfold Watcher.min_buffer_size. lia.
Defined.

(** C10.  [bind(name, variable, default_value)] leaves [default_value] in
    the bound variable, whatever the variable held before and before any
    [update()] runs; it installs the binding under [name] and touches no
    other variable. *)
Theorem bind_overwrites_variable `{LibC} (T : Type) `{ParamsImpl.Tunable T}
    (name : string) (variable : ParamsImpl.addr) (default_value : T)
    (p : ParamsImpl.Params) (st : gmap nat ParamsImpl.Val) :
  let '(p', st') := ParamsImpl.bind name variable default_value p st in
  st' !! variable = Some (ParamsImpl.to_val default_value) /\
  (forall other : nat, other <> variable -> st' !! other = st !! other) /\
  ParamsImpl.bindings_ p' !! name = Some (ParamsImpl.Binding variable default_value) /\
  ParamsImpl.current_values_ p' = ParamsImpl.current_values_ p.
Proof.
  unfold ParamsImpl.bind. simpl.
  split; [apply lookup_insert_eq|].
  split; [intros other Hne; now apply lookup_insert_ne|].
  split; [apply lookup_insert_eq | reflexivity].
Qed.

Section ParamsFacts.
Import Err Parsers ParamsImpl.
Context `{LibC}.

Lemma any_changed_same (m : gmap string string) : any_changed m m = false.
Proof.
  unfold any_changed. apply not_true_is_false. intros Hex.
  apply existsb_exists in Hex as ([k v] & Hin & Hc). simpl in Hc.
  apply list_elem_of_In, elem_of_map_to_list in Hin. rewrite Hin in Hc.
  rewrite String.eqb_refl in Hc. discriminate.
Qed.

Lemma any_changed_new_key (new_values current : gmap string string) k v :
  new_values !! k = Some v -> current !! k = None ->
  any_changed new_values current = true.
Proof.
  intros Hk Hc. unfold any_changed. apply existsb_exists.
  exists (k, v). split.
  - apply list_elem_of_In, elem_of_map_to_list. exact Hk.
  - simpl. now rewrite Hc.
Qed.

(** What a [false] from [load_file] leaves alone. *)
Lemma load_file_false p st o p1 st1 ev1 :
  load_file p st o = Some (Returns false, p1, st1, ev1) ->
  st1 = st /\ current_values_ p1 = current_values_ p /\ bindings_ p1 = bindings_ p.
Proof.
  unfold load_file.
  destruct (Retry.rr_content _) as [content|].
  - destruct (parse_content (format_ p) content) as [[[[parsed nv] msg]|]|];
      [| |discriminate].
    + destruct (negb parsed && bool_decide (nv = ∅)).
      * intros E; inversion E; subst; auto.
      * destruct (negb (any_changed nv (current_values_ p)) && _).
        -- intros E; inversion E; subst; auto.
        -- destruct (update_bindings _ _ _). discriminate.
    + discriminate.
  - intros E; inversion E; subst; auto.
Qed.

(** When the parser's exception leaves [load_file], nothing has been
    written: neither the object nor a bound variable. *)
Lemma load_file_throws p st o p1 st1 ev1 :
  load_file p st o = Some (Throws, p1, st1, ev1) -> p1 = p /\ st1 = st.
Proof.
  unfold load_file.
  destruct (Retry.rr_content _) as [content|]; [|discriminate].
  destruct (parse_content (format_ p) content) as [[[[parsed nv] msg]|]|];
    [| |discriminate].
  - destruct (negb parsed && bool_decide (nv = ∅)); [discriminate|].
    destruct (negb (any_changed nv (current_values_ p)) && _); [discriminate|].
    destruct (update_bindings _ _ _). discriminate.
  - intros E; inversion E; subst; auto.
Qed.

(** When the parsed map is the stored one, [load_file] answers [false]. *)
Lemma load_file_same_map p st o content parsed msg :
  Retry.rr_content (Retry.read_file_with_retry (file_path_ p)
                      (file_read_retry_config_ p) (u_reads o)) = Some content ->
  parse_content (format_ p) content = Some (Returns (parsed, current_values_ p, msg)) ->
  exists p1 ev1, load_file p st o = Some (Returns false, p1, st, ev1).
Proof.
  intros Hc Hp. unfold load_file. rewrite Hc, Hp.
  destruct (negb parsed && bool_decide (current_values_ p = ∅)); [eauto|].
  rewrite any_changed_same, Nat.eqb_refl. simpl. eauto.
Qed.

Lemma callback_count_app (e1 e2 : list Event) :
  callback_count (e1 ++ e2) = (callback_count e1 + callback_count e2)%nat.
Proof.
  induction e1 as [|e e1 IH]; simpl; [reflexivity|].
  destruct e; simpl; auto.
Qed.

Lemma read_events_no_callback r : callback_count (read_events r) = 0%nat.
Proof.
  unfold read_events. induction (Retry.rr_effects r) as [|[ms|l] eff IH]; simpl; auto.
Qed.

(** The loop over the bindings invokes no callback. *)
Lemma update_bindings_no_callback bindings values st :
  callback_count (snd (update_bindings bindings values st)) = 0%nat.
Proof.
  unfold update_bindings.
  assert (Hgen : forall l acc,
             callback_count (snd acc) = 0%nat ->
             callback_count (snd (fold_left (update_binding values) l acc)) = 0%nat).
  { induction l as [|[name b] l IH]; intros [s ev] Hacc; simpl; [exact Hacc|].
    apply IH. simpl in Hacc.
    destruct (values !! name) as [v|]; simpl.
    - destruct (bb_update b v s) as [ok s']; simpl.
      rewrite callback_count_app, Hacc. now destruct ok.
    - now rewrite callback_count_app, Hacc. }
  now apply Hgen.
Qed.

Lemma load_file_no_callback p st o c p1 st1 ev1 :
  load_file p st o = Some (c, p1, st1, ev1) -> callback_count ev1 = 0%nat.
Proof.
  unfold load_file.
  destruct (Retry.rr_content _) as [content|].
  - destruct (parse_content (format_ p) content) as [[[[parsed nv] msg]|]|];
      [| |discriminate].
    + destruct (negb parsed && bool_decide (nv = ∅)).
      * intros E; inversion E; subst.
        now rewrite callback_count_app, read_events_no_callback.
      * destruct (negb (any_changed nv (current_values_ p)) && _).
        -- intros E; inversion E; subst. apply read_events_no_callback.
        -- pose proof (update_bindings_no_callback (bindings_ p) nv st) as Hn.
           destruct (update_bindings _ _ _) as [st' ev]. simpl in Hn.
           intros E; inversion E; subst.
           now rewrite callback_count_app, read_events_no_callback, Hn.
    + intros E; inversion E; subst. apply read_events_no_callback.
  - intros E; inversion E; subst. apply read_events_no_callback.
Qed.

(** What a [true] from [load_file] has done: stored the parsed map and run
    the loop over the bindings on it. *)
Lemma load_file_true p st o p1 st1 ev1 :
  load_file p st o = Some (Returns true, p1, st1, ev1) ->
  exists new_values,
    p1 = with_last_error (with_current_values p new_values) ErrorInfo_default /\
    st1 = fst (update_bindings (bindings_ p) new_values st) /\
    (any_changed new_values (current_values_ p) = true
     \/ size new_values <> size (current_values_ p)).
Proof.
  unfold load_file.
  destruct (Retry.rr_content _) as [content|]; [|discriminate].
  destruct (parse_content (format_ p) content) as [[[[parsed nv] msg]|]|];
    [|discriminate|discriminate].
  destruct (negb parsed && bool_decide (nv = ∅)); [discriminate|].
  destruct (any_changed nv (current_values_ p)) eqn:Ea; simpl.
  - destruct (update_bindings _ _ _) as [st' ev] eqn:Eu.
    intros E; inversion E; subst. exists nv. rewrite Eu. auto.
  - destruct (Nat.eqb _ _) eqn:En; [discriminate|].
    destruct (update_bindings _ _ _) as [st' ev] eqn:Eu.
    intros E; inversion E; subst. exists nv. rewrite Eu.
    apply Nat.eqb_neq in En. auto.
Qed.

End ParamsFacts.

(** C3.  Whatever the state of the [Params] and whatever modify-time and
    clock the call observes: if the file is read and the map that its
    content parses to is the map ingested before, [update()] returns
    [false], it invokes no callback, and the bound variables, the stored
    map and the bindings are as they were. *)
Theorem update_same_map_is_no_update `{LibC}
    (thread : ParamsImpl.ThreadId) (p : ParamsImpl.Params)
    (st : gmap nat ParamsImpl.Val) (o : ParamsImpl.UpdateObs)
    (content : string) (parsed : bool) (msg : string) :
  Retry.rr_content
    (Retry.read_file_with_retry (ParamsImpl.file_path_ p)
       (ParamsImpl.file_read_retry_config_ p) (ParamsImpl.u_reads o))
  = Some content ->
  ParamsImpl.parse_content (ParamsImpl.format_ p) content
  = Some (Returns (parsed, ParamsImpl.current_values_ p, msg)) ->
  exists p' ev,
    ParamsImpl.update thread p st o = Some (ParamsImpl.Returned false, p', st, ev) /\
    ParamsImpl.current_values_ p' = ParamsImpl.current_values_ p /\
    ParamsImpl.bindings_ p' = ParamsImpl.bindings_ p /\
    ParamsImpl.callback_count ev = 0%nat.
Proof.
  intros Hread Hsame. unfold ParamsImpl.update.
  destruct (ParamsImpl.in_callback_ p); [eauto 10|].
  set (ev0 := match ParamsImpl.ensure_file_exists p _ _ with
              | Some bytes => [ParamsImpl.EvWriteFile (ParamsImpl.file_path_ p) bytes]
              | None => []
              end).
  assert (Hev0 : ParamsImpl.callback_count ev0 = 0%nat).
  { subst ev0. now destruct (ParamsImpl.ensure_file_exists p _ _). }
  destruct (_ && _ && _); [eauto 10|].
  destruct (load_file_same_map p st o content parsed msg Hread Hsame) as (p1 & ev1 & Hl).
  rewrite Hl.
  destruct (load_file_false _ _ _ _ _ _ Hl) as (_ & Hcv & Hb).
  simpl. eexists _, _. split; [reflexivity|]. simpl.
  repeat split; auto.
  rewrite callback_count_app, Hev0.
  exact (load_file_no_callback _ _ _ _ _ _ _ Hl).
Qed.

Lemma update_same_map_is_no_update_witness :
  exists p' ev,
    ParamsImpl.update (H := DecimalPlatform.decimal) 1%nat
      (fst Scenario.speed_loaded) (snd Scenario.speed_loaded)
      (Scenario.saved "speed=2.5" 500000000 200)
    = Some (ParamsImpl.Returned false, p', snd Scenario.speed_loaded, ev) /\
    ParamsImpl.current_values_ p' = ParamsImpl.current_values_ (fst Scenario.speed_loaded) /\
    ParamsImpl.bindings_ p' = ParamsImpl.bindings_ (fst Scenario.speed_loaded) /\
    ParamsImpl.callback_count ev = 0%nat.
Proof.
  apply (update_same_map_is_no_update (H := DecimalPlatform.decimal) 1%nat
           (fst Scenario.speed_loaded) (snd Scenario.speed_loaded)
           (Scenario.saved "speed=2.5" 500000000 200)
           "speed=2.5" true "Failed to parse key-value format").
  - vm_compute. reflexivity.
  - vm_compute. reflexivity.
Defined.

(** C2.  When a change callback is registered and [update()] applies a
    change, that is, it ends by returning [true] or by the exception of
    the callback, which runs only after a change has been applied: the
    trace of the call ends with the one and only invocation of the
    callback, made by the calling thread inside the call; the store that
    the callback is given is the one left by the loop over the bindings
    run on the new map, so every bound variable has been updated before
    the callback starts. *)
Theorem update_invokes_callback_once_after_applying `{LibC}
    (thread : ParamsImpl.ThreadId) (p p' : ParamsImpl.Params)
    (st st' : gmap nat ParamsImpl.Val) (o : ParamsImpl.UpdateObs)
    (cb : ParamsImpl.Callback) (out : ParamsImpl.Outcome)
    (ev : list ParamsImpl.Event) :
  ParamsImpl.on_change_callback_ p = Some cb ->
  ParamsImpl.update thread p st o = Some (out, p', st', ev) ->
  out = ParamsImpl.Returned true \/ out = ParamsImpl.Thrown ->
  exists ev_before st1,
    ev = (ev_before ++ [ParamsImpl.EvCallback thread st1])%list /\
    ParamsImpl.callback_count ev_before = 0%nat /\
    ParamsImpl.callback_count ev = 1%nat /\
    st1 = fst (ParamsImpl.update_bindings (ParamsImpl.bindings_ p)
                 (ParamsImpl.current_values_ p') st) /\
    st' = fst (cb st1) /\
    out = (if snd (cb st1) then ParamsImpl.Thrown else ParamsImpl.Returned true).
Proof.
  intros Hcb Hup Hout. unfold ParamsImpl.update in Hup.
  destruct (ParamsImpl.in_callback_ p).
  { inversion Hup; subst. destruct Hout; discriminate. }
  set (ev0 := match ParamsImpl.ensure_file_exists p _ _ with
              | Some bytes => [ParamsImpl.EvWriteFile (ParamsImpl.file_path_ p) bytes]
              | None => []
              end) in Hup.
  assert (Hev0 : ParamsImpl.callback_count ev0 = 0%nat).
  { subst ev0. now destruct (ParamsImpl.ensure_file_exists p _ _). }
  destruct (_ && _ && _).
  { inversion Hup; subst. destruct Hout; discriminate. }
  destruct (ParamsImpl.load_file p st o) as [[[[[updated|] p1] st1] ev1]|] eqn:Hl;
    [| |discriminate].
  - destruct updated.
    + destruct (load_file_true _ _ _ _ _ _ Hl) as (nv & Hp1 & Hst1 & _).
      pose proof (load_file_no_callback _ _ _ _ _ _ _ Hl) as Hev1.
      subst p1. simpl in Hup. rewrite Hcb in Hup.
      destruct (cb st1) as [st2 threw] eqn:Ecb.
      inversion Hup; subst out p' st' ev. simpl.
      exists (ev0 ++ ev1)%list, st1.
      rewrite Ecb. simpl.
      split; [now rewrite app_assoc|].
      split; [now rewrite callback_count_app, Hev0, Hev1|].
      split; [now rewrite !callback_count_app, Hev0, Hev1|].
      split; [exact Hst1|]. split; reflexivity.
    + simpl in Hup. inversion Hup; subst. destruct Hout; discriminate.
  - inversion Hup; subst. destruct Hout; discriminate.
Qed.

Lemma update_invokes_callback_once_after_applying_witness :
  let o := Scenario.saved "speed=2.5" 1000000 100 in
  let ev := [ParamsImpl.EvBindingUpdate "speed" true;
             ParamsImpl.EvCallback 1%nat
               {[Scenario.speed_variable :=
                   ParamsImpl.VFloat (H := DecimalPlatform.decimal) (5 # 2)%Q]}] in
  exists ev_before st1,
    ev = (ev_before ++ [ParamsImpl.EvCallback 1%nat st1])%list /\
    ParamsImpl.callback_count ev_before = 0%nat /\
    ParamsImpl.callback_count ev = 1%nat /\
    st1 = fst (ParamsImpl.update_bindings
                 (ParamsImpl.bindings_ (fst Scenario.bound_speed_notified))
                 (ParamsImpl.current_values_
                    (fst (Scenario.after_update Scenario.bound_speed_notified o)))
                 (snd Scenario.bound_speed_notified)) /\
    snd (Scenario.after_update Scenario.bound_speed_notified o)
      = fst (Scenario.raise_flag st1) /\
    ParamsImpl.Returned true
      = (if snd (Scenario.raise_flag st1) then ParamsImpl.Thrown
         else ParamsImpl.Returned true).
Proof.
  intros o ev.
  apply (update_invokes_callback_once_after_applying (H := DecimalPlatform.decimal)
           1%nat (fst Scenario.bound_speed_notified)
           (fst (Scenario.after_update Scenario.bound_speed_notified o))
           (snd Scenario.bound_speed_notified)
           (snd (Scenario.after_update Scenario.bound_speed_notified o))
           o Scenario.raise_flag (ParamsImpl.Returned true) ev).
  - reflexivity.
  - reflexivity.
  - left. reflexivity.
Defined.

Section SpeedScenario.
Import Err Parsers ParamsImpl.
Context `{LibC}.

Lemma parse_speed_line :
  SimpleKeyValueParser.parse "speed=2.5" false = (true, {["speed" := "2.5"]}).
Proof. vm_compute. reflexivity. Qed.

(** The loop over a single binding. *)
Lemma update_bindings_singleton name b values st :
  update_bindings {[name := b]} values st
  = update_binding values (st, []) (name, b).
Proof. unfold update_bindings. now rewrite map_to_list_singleton. Qed.

End SpeedScenario.

(** C1, as stated, fails in its second half.  After [speed=2.5] has been
    ingested (first call: [true], variable 2.5), a file left without any
    key-value pair, be it comment lines only or zero bytes, makes the next
    [update()] return [false], and the variable keeps 2.5 instead of going
    back to its default 1.0. *)
Lemma update_without_any_pair_keeps_value :
  Scenario.update_result Scenario.bound_speed (Scenario.saved "speed=2.5" 1000000 100)
    = Some (ParamsImpl.Returned true,
            Some (ParamsImpl.VFloat (H := DecimalPlatform.decimal) (5 # 2)%Q)) /\
  Scenario.update_result Scenario.speed_loaded
      (Scenario.saved (ParamsImpl.template Parsers.KeyValue) 500000000 200)
    = Some (ParamsImpl.Returned false,
            Some (ParamsImpl.VFloat (H := DecimalPlatform.decimal) (5 # 2)%Q)) /\
  Scenario.update_result Scenario.speed_loaded (Scenario.saved_empty 500000000 200)
    = Some (ParamsImpl.Returned false,
            Some (ParamsImpl.VFloat (H := DecimalPlatform.decimal) (5 # 2)%Q)).
Proof. repeat split; vm_compute; reflexivity. Qed.

(** C1, amended.  A fresh [Params] over a key-value file, with a [float]
    variable bound under [speed] with a default: once the file reads
    [speed=2.5], [update()] returns [true] and the variable holds the
    [float] read from [2.5].  When the [speed] key is then removed while
    the file still holds at least one other key-value pair, a later
    [update()] that the modify-time cache does not cut short (10 ms have
    passed, or the modify-time differs) returns [true] and the variable is
    back at its default. *)
Theorem update_applies_value_then_default `{LibC}
    (two_and_a_half default_value : float) (variable : nat)
    (st0 : gmap nat ParamsImpl.Val) (path : string) (thread : ParamsImpl.ThreadId)
    (o1 o2 : ParamsImpl.UpdateObs) (c2 : string) (m2 : gmap string string) :
  extract_float "2.5" = Some (two_and_a_half, "") ->
  Retry.rr_content (Retry.read_file_with_retry path Retry.FileReadRetryConfig_default
                      (ParamsImpl.u_reads o1)) = Some "speed=2.5" ->
  Retry.rr_content (Retry.read_file_with_retry path Retry.FileReadRetryConfig_default
                      (ParamsImpl.u_reads o2)) = Some c2 ->
  Parsers.SimpleKeyValueParser.parse c2 false = (true, m2) ->
  m2 !! "speed" = None ->
  (ParamsImpl.u_now o2 - ParamsImpl.u_now o1 <? ParamsImpl.cache_duration)%Z
    && (ParamsImpl.u_modify_time o2 =? ParamsImpl.u_modify_time o1)%Z = false ->
  let pb := fst (ParamsImpl.bind (H0 := ParamsImpl.Tunable_float)
                   "speed" variable default_value
                   (ParamsImpl.Params_new path Parsers.KeyValue) st0) in
  let sb := snd (ParamsImpl.bind (H0 := ParamsImpl.Tunable_float)
                   "speed" variable default_value
                   (ParamsImpl.Params_new path Parsers.KeyValue) st0) in
  exists p1 (s1 : gmap nat ParamsImpl.Val) ev1 p2 (s2 : gmap nat ParamsImpl.Val) ev2,
    ParamsImpl.update thread pb sb o1 = Some (ParamsImpl.Returned true, p1, s1, ev1) /\
    s1 !! variable = Some (ParamsImpl.VFloat two_and_a_half) /\
    ParamsImpl.update thread p1 s1 o2 = Some (ParamsImpl.Returned true, p2, s2, ev2) /\
    s2 !! variable = Some (ParamsImpl.VFloat default_value).
Proof.
  intros Hx Hr1 Hr2 Hp2 Hno Hcache pb sb.
  (* first call *)
  assert (Hl1 : ParamsImpl.load_file pb sb o1
                = Some (Returns true,
                        ParamsImpl.with_last_error
                          (ParamsImpl.with_current_values pb {["speed" := "2.5"]})
                          Err.ErrorInfo_default,
                        <[variable := ParamsImpl.VFloat two_and_a_half]> sb,
                        (ParamsImpl.read_events
                           (Retry.read_file_with_retry path
                              Retry.FileReadRetryConfig_default (ParamsImpl.u_reads o1))
                         ++ [ParamsImpl.EvBindingUpdate "speed" true])%list)).
  { unfold ParamsImpl.load_file. subst pb sb. cbn [fst snd ParamsImpl.bind].
    cbn [ParamsImpl.file_path_ ParamsImpl.file_read_retry_config_
         ParamsImpl.with_bindings ParamsImpl.Params_new ParamsImpl.format_
         ParamsImpl.current_values_ ParamsImpl.bindings_].
    rewrite Hr1. unfold ParamsImpl.parse_content. rewrite parse_speed_line.
    replace (negb true && bool_decide ({["speed" := "2.5"]} = (∅ : gmap string string)))
      with false by reflexivity.
    replace (ParamsImpl.any_changed {["speed" := "2.5"]} ∅) with true
      by (vm_compute; reflexivity).
    cbn [negb andb].
    rewrite insert_empty, update_bindings_singleton.
    unfold ParamsImpl.update_binding.
    rewrite lookup_singleton_eq.
    cbn [ParamsImpl.bb_update ParamsImpl.Binding ParamsImpl.parse_value
         ParamsImpl.Tunable_float ParamsImpl.to_val].
    unfold Parsers.parse_value_stream. rewrite Hx.
    cbn [Parsers.extract_word String.eqb]. reflexivity. }
  set (p1 := ParamsImpl.with_file_cache
               (ParamsImpl.with_last_error
                  (ParamsImpl.with_current_values pb {["speed" := "2.5"]})
                  Err.ErrorInfo_default)
               (ParamsImpl.mkFileCache (ParamsImpl.u_modify_time o1)
                                       (ParamsImpl.u_now o1) true)).
  set (s1 := <[variable := ParamsImpl.VFloat two_and_a_half]> sb).
  assert (Hu1 : exists ev1,
             ParamsImpl.update thread pb sb o1
             = Some (ParamsImpl.Returned true, p1, s1, ev1)).
  { unfold ParamsImpl.update. rewrite Hl1. subst pb sb p1 s1.
    cbn [fst snd ParamsImpl.bind ParamsImpl.in_callback_ ParamsImpl.with_bindings
         ParamsImpl.Params_new ParamsImpl.file_cache_ ParamsImpl.file_exists
         ParamsImpl.FileCache_initial andb].
    eexists. reflexivity. }
  destruct Hu1 as (ev1 & Hu1).
  (* second call *)
  assert (Hm2 : exists k v, m2 !! k = Some v /\ k <> "speed").
  { unfold Parsers.SimpleKeyValueParser.parse in Hp2.
    injection Hp2 as Hne Hm. rewrite Hm in Hne.
    apply negb_true_iff, bool_decide_eq_false in Hne.
    destruct (map_choose m2 Hne) as (k & v & Hk).
    exists k, v. split; [exact Hk|]. intros ->. congruence. }
  destruct Hm2 as (k & v & Hk & Hks).
  assert (Hl2 : exists evl,
             ParamsImpl.load_file p1 s1 o2
             = Some (Returns true,
                     ParamsImpl.with_last_error (ParamsImpl.with_current_values p1 m2)
                       Err.ErrorInfo_default,
                     <[variable := ParamsImpl.VFloat default_value]> s1, evl)).
  { unfold ParamsImpl.load_file. subst p1 pb.
    cbn [fst ParamsImpl.bind ParamsImpl.file_path_ ParamsImpl.file_read_retry_config_
         ParamsImpl.with_bindings ParamsImpl.with_file_cache ParamsImpl.with_last_error
         ParamsImpl.with_current_values ParamsImpl.Params_new ParamsImpl.format_
         ParamsImpl.current_values_ ParamsImpl.bindings_].
    rewrite Hr2. unfold ParamsImpl.parse_content. rewrite Hp2.
    cbn [negb andb].
    rewrite (any_changed_new_key m2 {["speed" := "2.5"]} k v Hk)
      by (now apply lookup_singleton_ne).
    cbn [negb andb].
    rewrite insert_empty, update_bindings_singleton.
    unfold ParamsImpl.update_binding. rewrite Hno.
    cbn [ParamsImpl.bb_apply_default ParamsImpl.Binding ParamsImpl.to_val
         ParamsImpl.Tunable_float].
    eexists. reflexivity. }
  destruct Hl2 as (evl & Hl2).
  assert (Hu2 : exists p2 ev2,
             ParamsImpl.update thread p1 s1 o2
             = Some (ParamsImpl.Returned true, p2,
                     <[variable := ParamsImpl.VFloat default_value]> s1, ev2)).
  { unfold ParamsImpl.update. rewrite Hl2.
    replace (ParamsImpl.in_callback_ p1) with false by reflexivity.
    replace (ParamsImpl.file_exists (ParamsImpl.file_cache_ p1)) with true
      by reflexivity.
    replace (ParamsImpl.last_access (ParamsImpl.file_cache_ p1))
      with (ParamsImpl.u_now o1) by reflexivity.
    replace (ParamsImpl.last_modify_time (ParamsImpl.file_cache_ p1))
      with (ParamsImpl.u_modify_time o1) by reflexivity.
    cbn [andb]. rewrite Hcache.
    subst p1 pb. cbn. eexists _, _. reflexivity. }
  destruct Hu2 as (p2 & ev2 & Hu2).
  exists p1, s1, ev1, p2, (<[variable := ParamsImpl.VFloat default_value]> s1), ev2.
  split; [exact Hu1|]. split; [apply lookup_insert_eq|].
  split; [exact Hu2 | apply lookup_insert_eq].
Qed.

Lemma update_applies_value_then_default_witness :
  exists p1 (s1 : gmap nat ParamsImpl.Val) ev1 p2 (s2 : gmap nat ParamsImpl.Val) ev2,
    ParamsImpl.update (H := DecimalPlatform.decimal) 1%nat
      (fst Scenario.bound_speed) (snd Scenario.bound_speed)
      (Scenario.saved "speed=2.5" 1000000 100)
    = Some (ParamsImpl.Returned true, p1, s1, ev1) /\
    s1 !! Scenario.speed_variable
    = Some (ParamsImpl.VFloat (H := DecimalPlatform.decimal) (5 # 2)%Q) /\
    ParamsImpl.update 1%nat p1 s1 (Scenario.saved "gravity=9.8" 500000000 200)
    = Some (ParamsImpl.Returned true, p2, s2, ev2) /\
    s2 !! Scenario.speed_variable
    = Some (ParamsImpl.VFloat (H := DecimalPlatform.decimal) 1%Q).
Proof.
  apply (update_applies_value_then_default (H := DecimalPlatform.decimal)
           (5 # 2)%Q 1%Q Scenario.speed_variable ∅ "params.ini" 1%nat
           (Scenario.saved "speed=2.5" 1000000 100)
           (Scenario.saved "gravity=9.8" 500000000 200)
           "gravity=9.8" {["gravity" := "9.8"]}).
  - reflexivity.
  - reflexivity.
  - reflexivity.
  - vm_compute. reflexivity.
  - reflexivity.
  - reflexivity.
Defined.

(** ** The file created on demand *)

(** C9, on the code.  For a missing [params.json], whose format is
    detected as [Json], [ensure_file_exists] writes a template that
    carries two [//] comment lines between its braces.  JSON has no
    comments: picojson stops at the first of them with a syntax error at
    line 2, so [PicojsonParser::parse] returns [false] on the created
    bytes and gives no map.  The same braces without the two comment
    lines are read by picojson without an error, as an object with no
    members. *)
Theorem json_template_is_rejected `{LibC} :
  let p := ParamsImpl.Params_new "params.json" Parsers.Auto in
  ParamsImpl.format_ p = Parsers.Json /\
  ParamsImpl.ensure_file_exists p false true = Some (ParamsImpl.template Parsers.Json) /\
  picojson.parse (ParamsImpl.template Parsers.Json)
    = Some (Returns ("syntax error at line 2 near: // Live Tuner parameters",
                     picojson.object ∅)) /\
  PicojsonParser.parse (ParamsImpl.template Parsers.Json) = Some (Returns (false, ∅)) /\
  picojson.parse ("{" ++ ParamsImpl.nl ++ "}" ++ ParamsImpl.nl)
    = Some (Returns ("", picojson.object ∅)).
Proof. repeat split; vm_compute; reflexivity. Qed.

(** The first [update()] on a missing [params.json] creates the file,
    reads it back, returns [false] and records a [ParseError]. *)
Example update_on_missing_json_file :
  Scenario.update_summary
    (ParamsImpl.update (H := DecimalPlatform.decimal) 1%nat
       (ParamsImpl.Params_new "params.json" Parsers.Auto) ∅
       (Scenario.created_on_demand Parsers.Json 1000000 100))
  = Some (ParamsImpl.Returned false, Err.ParseError,
          Some (ParamsImpl.EvWriteFile "params.json" (ParamsImpl.template Parsers.Json))).
Proof. reflexivity. Qed.

(** [PicojsonParser::parse] ends with [return !result.empty()]: when it
    returns, its flag tells whether the map has a member. *)
Lemma picojson_parser_flag `{LibC} (content : string) (parsed : bool)
    (m : gmap string string) :
  PicojsonParser.parse content = Some (Returns (parsed, m)) ->
  parsed = negb (bool_decide (m = ∅)).
Proof.
  unfold PicojsonParser.parse.
  destruct (picojson.parse content) as [[[err v]|]|]; [|discriminate|discriminate].
  destruct v; try (intros E; inversion E; subst; reflexivity).
  destruct (negb (String.eqb err "")); intros E; inversion E; subst; reflexivity.
Qed.

(** * Further properties of the code *)

(** ** read_file_with_retry *)

Section RetryMore.
Import Err Retry.

(** A failed attempt always leaves a real error. *)
Lemma attempt_body_error path_str a o e l :
  attempt_body path_str a o = (inl e, l) -> has_error e = true.
Proof.
  unfold attempt_body.
  destruct (obs_exists o); simpl; [|intros E; inversion E; reflexivity].
  destruct (obs_exists_ec o); [intros E; inversion E; reflexivity|].
  destruct (obs_file_size o) as [m|size]; [intros E; inversion E; reflexivity|].
  destruct (size =? 0)%Z; [intros E; inversion E; reflexivity|].
  destruct (obs_open o); simpl; [|intros E; inversion E; reflexivity].
  destruct (obs_read o) as [w| |content ok];
    try (intros E; inversion E; reflexivity).
  destruct ok; [|intros E; inversion E; reflexivity].
  destruct (String.eqb content ""); simpl; intros E; inversion E; reflexivity.
Qed.

(** A successful attempt hands out a content that is not empty, and logs
    nothing. *)
Lemma attempt_body_content path_str a o c l :
  attempt_body path_str a o = (inr c, l) -> c <> "" /\ l = [].
Proof.
  unfold attempt_body.
  destruct (obs_exists o); simpl; [|discriminate].
  destruct (obs_exists_ec o); [discriminate|].
  destruct (obs_file_size o) as [m|size]; [discriminate|].
  destruct (size =? 0)%Z; [discriminate|].
  destruct (obs_open o); simpl; [|discriminate].
  destruct (obs_read o) as [w| |content ok]; try discriminate.
  destruct ok; [|discriminate].
  destruct (String.eqb content "") eqn:E; simpl; [discriminate|].
  intros E'; inversion E'; subst. split; [|reflexivity].
  intros ->. discriminate.
Qed.

Lemma retry_loop_content_nonempty cfg path_str obs :
  forall n a delay e0 eff c,
    rr_content (retry_loop cfg path_str obs n a delay e0 eff) = Some c -> c <> "".
Proof.
  induction n as [|n IH]; intros a delay e0 eff c; cbn [retry_loop].
  - destruct (int_max <? a)%Z; discriminate.
  - destruct (if (0 <? a)%Z then _ else _) as [delay' eff'].
    destruct (attempt_body path_str a (obs a)) as [[e|c'] l] eqn:B.
    + apply IH.
    + cbn. intros E; inversion E; subst.
      exact (proj1 (attempt_body_content _ _ _ _ _ B)).
Qed.

(** The error handed out is the no-error value exactly when a content is
    returned, provided [e0], the error before the loop, is a real one or
    the loop runs at least once. *)
Lemma retry_loop_error_iff cfg path_str obs :
  forall n a delay e0 eff,
    (n = O -> has_error e0 = true) ->
    let r := retry_loop cfg path_str obs n a delay e0 eff in
    has_error (rr_error_out r) = false <-> rr_content r <> None.
Proof.
  induction n as [|n IH]; intros a delay e0 eff H0; cbn [retry_loop].
  - destruct (int_max <? a)%Z; cbn; rewrite (H0 eq_refl);
      (split; [discriminate | congruence]).
  - destruct (if (0 <? a)%Z then _ else _) as [delay' eff'].
    destruct (attempt_body path_str a (obs a)) as [[e|c'] l] eqn:B.
    + apply IH. intros _. exact (attempt_body_error _ _ _ _ _ B).
    + cbn. split; [discriminate | reflexivity].
Qed.

(** The waits of a run that starts at attempt 0: none before the first
    attempt, then one per further attempt. *)
Lemma retry_loop_sleeps_count cfg path_str obs :
  forall n a delay e0 eff,
    (0 <= a)%Z ->
    (length (sleeps (rr_effects (retry_loop cfg path_str obs n a delay e0 eff)))
     <= length (sleeps eff) + (if (0 <? a)%Z then n else pred n))%nat.
Proof.
  induction n as [|n IH]; intros a delay e0 eff Ha; cbn [retry_loop].
  - destruct (int_max <? a)%Z; cbn; [lia|]. rewrite sleeps_app.
    destruct (has_error e0); rewrite length_app; simpl; lia.
  - destruct (0 <? a)%Z eqn:Ea.
    + destruct (attempt_body path_str a (obs a)) as [[e|c'] l] eqn:B.
      * specialize (IH (a + 1)%Z (next_delay cfg delay) e
                       ((eff ++ [Slept delay]) ++ map Logged l)%list).
        replace (0 <? a + 1)%Z with true in IH by lia.
        rewrite !sleeps_app, sleeps_logged, !length_app in IH. simpl in IH.
        lia.
      * cbn. rewrite !sleeps_app, sleeps_logged, !length_app. simpl. lia.
    + destruct (attempt_body path_str a (obs a)) as [[e|c'] l] eqn:B.
      * specialize (IH (a + 1)%Z delay e (eff ++ map Logged l)%list).
        replace (0 <? a + 1)%Z with true in IH by lia.
        rewrite !sleeps_app, sleeps_logged, !length_app in IH. simpl in IH.
        simpl. lia.
      * cbn. rewrite !sleeps_app, sleeps_logged, !length_app. simpl. lia.
Qed.

(** When attempts [a .. a+k-1] fail and attempt [a+k] reads [c], the loop
    returns [c] with the no-error value, after one wait per attempt made
    past attempt 0. *)
Lemma retry_loop_first_success cfg path_str obs c :
  forall (k n : nat) (a delay : Z) (e0 : ErrorInfo) (eff : list Effect),
    (k < n)%nat -> (0 <= a)%Z ->
    (forall j, (a <= j < a + Z.of_nat k)%Z -> attempt_error path_str obs j <> None) ->
    attempt_content path_str obs (a + Z.of_nat k) = Some c ->
    let r := retry_loop cfg path_str obs n a delay e0 eff in
    rr_content r = Some c /\ rr_error_out r = ErrorInfo_default /\
    length (sleeps (rr_effects r))
    = (length (sleeps eff) + (if (0 <? a)%Z then S k else k))%nat.
Proof.
  induction k as [|k IH]; intros n a delay e0 eff Hlt Ha Hfail Hok;
    (destruct n as [|n]; [lia|]); cbn [retry_loop].
  - replace (a + Z.of_nat 0)%Z with a in Hok by lia.
    destruct (attempt_content_body _ _ _ _ Hok) as (l & B). rewrite B.
    destruct (0 <? a)%Z; cbn;
      rewrite !sleeps_app, sleeps_logged, ?length_app; simpl;
      repeat split; lia.
  - assert (Hf : attempt_error path_str obs a <> None) by (apply Hfail; lia).
    destruct (attempt_error path_str obs a) as [e|] eqn:E; [|congruence].
    destruct (attempt_error_body _ _ _ _ E) as (l & B). rewrite B.
    destruct (0 <? a)%Z eqn:Ea.
    + destruct (IH n (a + 1)%Z (next_delay cfg delay) e
                   ((eff ++ [Slept delay]) ++ map Logged l)%list)
        as (H1 & H2 & H3); try lia.
      { intros j Hj. apply Hfail. lia. }
      { replace (a + 1 + Z.of_nat k)%Z with (a + Z.of_nat (S k))%Z by lia. exact Hok. }
      split; [exact H1|]. split; [exact H2|]. rewrite H3.
      replace (0 <? a + 1)%Z with true by lia.
      rewrite !sleeps_app, sleeps_logged, !length_app. simpl. lia.
    + destruct (IH n (a + 1)%Z delay e (eff ++ map Logged l)%list)
        as (H1 & H2 & H3); try lia.
      { intros j Hj. apply Hfail. lia. }
      { replace (a + 1 + Z.of_nat k)%Z with (a + Z.of_nat (S k))%Z by lia. exact Hok. }
      split; [exact H1|]. split; [exact H2|]. rewrite H3.
      replace (0 <? a + 1)%Z with true by lia.
      rewrite !sleeps_app, sleeps_logged, !length_app. simpl. lia.
Qed.

End RetryMore.

(** X1.  The first attempt that succeeds decides the call: if attempts
    [0 .. k-1] fail and attempt [k <= max_retries] reads [c], then
    [read_file_with_retry] returns [c], writes the no-error value through
    [error_out], and has waited exactly [k] times. *)
Theorem read_file_with_retry_first_success
    (path_str : string) (cfg : Retry.FileReadRetryConfig)
    (obs : Z -> Retry.AttemptObs) (k : nat) (c : string) :
  (Z.of_nat k <= Retry.max_retries cfg)%Z ->
  (forall a, (0 <= a < Z.of_nat k)%Z -> Retry.attempt_error path_str obs a <> None) ->
  Retry.attempt_content path_str obs (Z.of_nat k) = Some c ->
  let r := Retry.read_file_with_retry path_str cfg obs in
  Retry.rr_content r = Some c /\
  Retry.rr_error_out r = Err.ErrorInfo_default /\
  length (Retry.sleeps (Retry.rr_effects r)) = k.
Proof.
  intros Hk Hfail Hok r.
  destruct (retry_loop_first_success cfg path_str obs c k (Retry.attempts_of cfg) 0
              (Retry.retry_delay cfg) Err.ErrorInfo_default [])
    as (H1 & H2 & H3).
  - unfold Retry.attempts_of. lia.
  - lia.
  - intros j Hj. apply Hfail. lia.
  - exact Hok.
  - split; [exact H1|]. split; [exact H2|]. exact H3.
Qed.

Lemma read_file_with_retry_first_success_witness :
  let r := Retry.read_file_with_retry "params.ini" Retry.FileReadRetryConfig_default
                                      (Scenario.editor_saving "speed=2.5") in
  Retry.rr_content r = Some "speed=2.5" /\
  Retry.rr_error_out r = Err.ErrorInfo_default /\
  length (Retry.sleeps (Retry.rr_effects r)) = 3%nat.
Proof.
  apply (read_file_with_retry_first_success "params.ini"
           Retry.FileReadRetryConfig_default (Scenario.editor_saving "speed=2.5")
           3 "speed=2.5").
  - simpl. lia.
  - intros a Ha. unfold Retry.attempt_error, Scenario.editor_saving.
    destruct (a <? 3)%Z eqn:E; [simpl; discriminate | lia].
  - reflexivity.
Defined.

(** X2.  For a configuration whose [max_retries] is an [int] below
    [INT_MAX], whatever the file system answers: the loop counter never
    overflows, so [read_file_with_retry] returns; it never waits before
    its first attempt and waits at most [max_retries] times. *)
Theorem read_file_with_retry_waits_at_most_max_retries
    (path_str : string) (cfg : Retry.FileReadRetryConfig)
    (obs : Z -> Retry.AttemptObs) :
  (Retry.int_min <= Retry.max_retries cfg < Retry.int_max)%Z ->
  let r := Retry.read_file_with_retry path_str cfg obs in
  Retry.rr_overflow r = false /\
  (length (Retry.sleeps (Retry.rr_effects r))
   <= Z.to_nat (Retry.max_retries cfg))%nat.
Proof.
  intros [_ Hmax] r. split.
  - apply read_file_with_retry_in_range. exact Hmax.
  - pose proof (retry_loop_sleeps_count cfg path_str obs (Retry.attempts_of cfg) 0
                  (Retry.retry_delay cfg) Err.ErrorInfo_default [] (Z.le_refl 0)) as Hc.
    subst r. unfold Retry.read_file_with_retry. simpl in Hc.
    unfold Retry.attempts_of in *. lia.
Qed.

Lemma read_file_with_retry_waits_at_most_max_retries_witness :
  let r := Retry.read_file_with_retry "params.ini" Retry.FileReadRetryConfig_default
                                      Scenario.never_readable in
  Retry.rr_overflow r = false /\
  (length (Retry.sleeps (Retry.rr_effects r)) <= 3)%nat.
Proof.
  apply (read_file_with_retry_waits_at_most_max_retries "params.ini"
           Retry.FileReadRetryConfig_default Scenario.never_readable).
  vm_compute. split; [discriminate | reflexivity].
Defined.

(** X3.  A content returned by [read_file_with_retry] is never the empty
    string: an empty read counts as a failed attempt. *)
Theorem read_file_with_retry_content_not_empty
    (path_str : string) (cfg : Retry.FileReadRetryConfig)
    (obs : Z -> Retry.AttemptObs) (c : string) :
  Retry.rr_content (Retry.read_file_with_retry path_str cfg obs) = Some c -> c <> "".
Proof. apply retry_loop_content_nonempty. Qed.

Lemma read_file_with_retry_content_not_empty_witness :
  "speed=2.5" <> "".
Proof.
  apply (read_file_with_retry_content_not_empty "params.ini"
           Retry.FileReadRetryConfig_default (Scenario.editor_saving "speed=2.5")).
  reflexivity.
Defined.

(** X4.  When at least one attempt runs ([max_retries >= 0]), the value
    written through [error_out] is the no-error value exactly when a
    content is returned. *)
Theorem read_file_with_retry_error_iff_no_content
    (path_str : string) (cfg : Retry.FileReadRetryConfig)
    (obs : Z -> Retry.AttemptObs) :
  (0 <= Retry.max_retries cfg)%Z ->
  let r := Retry.read_file_with_retry path_str cfg obs in
  Err.has_error (Retry.rr_error_out r) = false <-> Retry.rr_content r <> None.
Proof.
  intros Hpos. apply retry_loop_error_iff.
  unfold Retry.attempts_of. lia.
Qed.

Lemma read_file_with_retry_error_iff_no_content_witness :
  let r := Retry.read_file_with_retry "params.ini" Retry.FileReadRetryConfig_default
                                      Scenario.never_readable in
  Err.has_error (Retry.rr_error_out r) = false <-> Retry.rr_content r <> None.
Proof.
  apply (read_file_with_retry_error_iff_no_content "params.ini"
           Retry.FileReadRetryConfig_default Scenario.never_readable).
  simpl. lia.
Defined.

(** ** FileWatcher: configuration, workers, waiting *)

Section WatcherMore.
Import Watcher.
Context {U : Type}.

(** The overflow branch keeps the buffer between its old size and
    [max_buffer_size], and every call it records goes from the old size
    to a strictly larger one. *)
Lemma on_overflow_bounds (cfg : FileWatcherConfig U) (resize_ok : bool) (w : Worker U) :
  (buffer w <= max_buffer_size cfg)%Z ->
  let w' := on_overflow cfg resize_ok w in
  (buffer w <= buffer w' <= max_buffer_size cfg)%Z /\
  (current_buffer_size w = buffer w -> current_buffer_size w' = buffer w') /\
  notifications w' = notifications w /\
  exists more, overflow_calls w' = (overflow_calls w ++ more)%list /\
               Forall (fun c => (buffer w <= fst c < snd c)%Z /\
                                (snd c <= max_buffer_size cfg)%Z) more.
Proof.
  intros Hle. unfold on_overflow.
  assert (Hsame : (buffer w <= buffer w <= max_buffer_size cfg)%Z /\
                  (current_buffer_size w = buffer w -> current_buffer_size w = buffer w) /\
                  notifications w = notifications w /\
                  exists more, overflow_calls w = (overflow_calls w ++ more)%list /\
                    Forall (fun c => (buffer w <= fst c < snd c)%Z /\
                                     (snd c <= max_buffer_size cfg)%Z) more).
  { repeat split; try lia; auto. exists []. split; [now rewrite app_nil_r | constructor]. }
  destruct (auto_grow_buffer cfg); [|exact Hsame].
  destruct (buffer w <? Z.min _ _)%Z eqn:E; [|exact Hsame].
  destruct resize_ok; [|exact Hsame].
  apply Z.ltb_lt in E.
  destruct (on_buffer_overflow cfg) as [cb|]; simpl.
  - repeat split; try lia. eexists. split; [reflexivity|].
    constructor; [simpl; lia | constructor].
  - repeat split; try lia. exists []. split; [now rewrite app_nil_r | constructor].
Qed.

Lemma worker_iter_bounds (cfg : FileWatcherConfig U) filename o (w w' : Worker U) :
  (buffer w <= max_buffer_size cfg)%Z ->
  worker_iter cfg filename o w = Some w' ->
  (buffer w <= buffer w' <= max_buffer_size cfg)%Z /\
  (current_buffer_size w = buffer w -> current_buffer_size w' = buffer w') /\
  exists more, overflow_calls w' = (overflow_calls w ++ more)%list /\
               Forall (fun c => (buffer w <= fst c < snd c)%Z /\
                                (snd c <= max_buffer_size cfg)%Z) more.
Proof.
  intros Hle. unfold worker_iter.
  assert (Hsame : forall n,
             let w1 := mkWorker (buffer w) (current_buffer_size w) (overflow_calls w)
                                n (user w) in
             (buffer w <= buffer w1 <= max_buffer_size cfg)%Z /\
             (current_buffer_size w = buffer w -> current_buffer_size w1 = buffer w1) /\
             exists more, overflow_calls w1 = (overflow_calls w ++ more)%list /\
               Forall (fun c => (buffer w <= fst c < snd c)%Z /\
                                (snd c <= max_buffer_size cfg)%Z) more).
  { intros n. simpl. repeat split; try lia; auto.
    exists []. split; [now rewrite app_nil_r | constructor]. }
  assert (Hw : (buffer w <= buffer w <= max_buffer_size cfg)%Z /\
               (current_buffer_size w = buffer w -> current_buffer_size w = buffer w) /\
               exists more, overflow_calls w = (overflow_calls w ++ more)%list /\
                 Forall (fun c => (buffer w <= fst c < snd c)%Z /\
                                  (snd c <= max_buffer_size cfg)%Z) more).
  { repeat split; try lia; auto.
    exists []. split; [now rewrite app_nil_r | constructor]. }
  destruct o as [error resize_ok|ok bytes names|].
  - destruct (error =? ERROR_NOTIFY_ENUM_DIR)%Z; [|discriminate].
    intros E; inversion E; subst.
    destruct (on_overflow_bounds cfg resize_ok w Hle) as (H1 & H2 & _ & H4). auto.
  - destruct ok; [|intros E; inversion E; subst; exact Hw].
    destruct (bytes =? 0)%Z; [intros E; inversion E; subst; apply Hsame|].
    destruct (existsb _ names); intros E; inversion E; subst;
      [apply Hsame | exact Hw].
  - discriminate.
Qed.

End WatcherMore.

Section WorkerLoops.
Import Watcher.
Context {U : Type}.

Lemma worker_loop_bounds (cfg : FileWatcherConfig U) filename (low : Z) :
  forall os (w : Worker U),
    (low <= buffer w <= max_buffer_size cfg)%Z ->
    current_buffer_size w = buffer w ->
    Forall (fun c => (low <= fst c < snd c)%Z /\ (snd c <= max_buffer_size cfg)%Z)
           (overflow_calls w) ->
    let w' := worker_loop cfg filename os w in
    (low <= buffer w' <= max_buffer_size cfg)%Z /\
    current_buffer_size w' = buffer w' /\
    Forall (fun c => (low <= fst c < snd c)%Z /\ (snd c <= max_buffer_size cfg)%Z)
           (overflow_calls w').
Proof.
  induction os as [|o os IH]; intros w Hb Hc Hf; simpl; [auto|].
  destruct (worker_iter cfg filename o w) as [w1|] eqn:E; [|auto].
  destruct (worker_iter_bounds cfg filename o w w1) as (H1 & H2 & more & H3 & H4);
    [lia | exact E |].
  apply IH; [lia | auto |].
  rewrite H3. apply Forall_app. split; [exact Hf|].
  eapply Forall_impl; [exact H4|]. simpl. intros c Hcx. lia.
Qed.

Lemma worker_loop_no_auto_grow (cfg : FileWatcherConfig U) filename :
  auto_grow_buffer cfg = false ->
  forall os (w : Worker U),
    let w' := worker_loop cfg filename os w in
    buffer w' = buffer w /\ overflow_calls w' = overflow_calls w /\ user w' = user w.
Proof.
  intros Hno. induction os as [|o os IH]; intros w; simpl; [auto|].
  destruct (worker_iter cfg filename o w) as [w1|] eqn:E; [|auto].
  assert (H1 : buffer w1 = buffer w /\ overflow_calls w1 = overflow_calls w /\
               user w1 = user w).
  { unfold worker_iter in E. destruct o as [error resize_ok|ok bytes names|].
    - destruct (error =? ERROR_NOTIFY_ENUM_DIR)%Z; [|discriminate].
      inversion E; subst. unfold on_overflow. rewrite Hno. auto.
    - destruct ok; [|inversion E; subst; auto].
      destruct (bytes =? 0)%Z; [inversion E; subst; auto|].
      destruct (existsb _ names); inversion E; subst; auto.
    - discriminate. }
  destruct H1 as (Hb & Hc & Hu). specialize (IH w1). simpl in IH.
  destruct IH as (IH1 & IH2 & IH3). repeat split; congruence.
Qed.

Lemma worker_loop_other_files (cfg : FileWatcherConfig U) filename :
  forall os (w : Worker U),
    Forall (about_other_files filename) os ->
    notifications (worker_loop cfg filename os w) = notifications w.
Proof.
  induction os as [|o os IH]; intros w Hos; simpl; [reflexivity|].
  inversion Hos as [|? ? Ho Hrest]; subst.
  destruct (worker_iter cfg filename o w) as [w1|] eqn:E; [|reflexivity].
  rewrite (IH w1 Hrest).
  unfold worker_iter in E. destruct o as [error resize_ok|ok bytes names|].
  - destruct (error =? ERROR_NOTIFY_ENUM_DIR)%Z; [|discriminate].
    inversion E; subst.
    unfold on_overflow. destruct (auto_grow_buffer cfg); [|reflexivity].
    destruct (_ <? _)%Z; [|reflexivity]. destruct resize_ok; [|reflexivity].
    destruct (on_buffer_overflow cfg); reflexivity.
  - simpl in Ho. destruct Ho as [->|(Hb & Hn)]; [inversion E; subst; reflexivity|].
    destruct ok; [|inversion E; subst; reflexivity].
    apply Z.eqb_neq in Hb. rewrite Hb, Hn in E. inversion E; subst; reflexivity.
  - discriminate.
Qed.

End WorkerLoops.

(** X5.  For a configuration with [buffer_size <= max_buffer_size] (as
    validation leaves it), whatever the directory-change worker meets:
    its buffer never shrinks below [buffer_size] and never exceeds
    [max_buffer_size], [current_buffer_size] follows it, and every call of
    [on_buffer_overflow(current, new)] has [current < new <=
    max_buffer_size]. *)
Theorem worker_buffer_within_bounds {U : Type}
    (cfg : Watcher.FileWatcherConfig U) (filename : string)
    (os : list Watcher.IterObs) (u : U) :
  (Watcher.buffer_size cfg <= Watcher.max_buffer_size cfg)%Z ->
  let w := Watcher.worker_loop cfg filename os (Watcher.worker_start cfg u) in
  (Watcher.buffer_size cfg <= Watcher.buffer w <= Watcher.max_buffer_size cfg)%Z /\
  Watcher.current_buffer_size w = Watcher.buffer w /\
  Forall (fun c => (Watcher.buffer_size cfg <= fst c < snd c)%Z /\
                   (snd c <= Watcher.max_buffer_size cfg)%Z)
         (Watcher.overflow_calls w).
Proof.
  intros Hle.
  apply (worker_loop_bounds cfg filename (Watcher.buffer_size cfg) os
           (Watcher.worker_start cfg u)); simpl; [lia | reflexivity | constructor].
Qed.

Lemma worker_buffer_within_bounds_witness :
  let cfg := Scenario.small_buffer_config in
  let w := Watcher.worker_loop cfg "params.json" Scenario.busy_directory
                               (Watcher.worker_start cfg []) in
  (Watcher.buffer_size cfg <= Watcher.buffer w <= Watcher.max_buffer_size cfg)%Z /\
  Watcher.current_buffer_size w = Watcher.buffer w /\
  Forall (fun c => (Watcher.buffer_size cfg <= fst c < snd c)%Z /\
                   (snd c <= Watcher.max_buffer_size cfg)%Z)
         (Watcher.overflow_calls w).
Proof.
  apply (worker_buffer_within_bounds Scenario.small_buffer_config "params.json"
           Scenario.busy_directory []).
  simpl. lia.
Defined.

(** X6.  With [auto_grow_buffer] off, overflow signals change nothing:
    the buffer keeps its size and [on_buffer_overflow] is never called. *)
Theorem worker_without_auto_grow_keeps_buffer {U : Type}
    (cfg : Watcher.FileWatcherConfig U) (filename : string)
    (os : list Watcher.IterObs) (w : Watcher.Worker U) :
  Watcher.auto_grow_buffer cfg = false ->
  let w' := Watcher.worker_loop cfg filename os w in
  Watcher.buffer w' = Watcher.buffer w /\
  Watcher.overflow_calls w' = Watcher.overflow_calls w /\
  Watcher.user w' = Watcher.user w.
Proof. intros Hno. now apply worker_loop_no_auto_grow. Qed.

Lemma worker_without_auto_grow_keeps_buffer_witness :
  let cfg := Scenario.fixed_buffer_config in
  let w := Watcher.worker_start cfg [] in
  let w' := Watcher.worker_loop cfg "params.json" Scenario.busy_directory w in
  Watcher.buffer w' = Watcher.buffer w /\
  Watcher.overflow_calls w' = Watcher.overflow_calls w /\
  Watcher.user w' = Watcher.user w.
Proof.
  apply (worker_without_auto_grow_keeps_buffer Scenario.fixed_buffer_config
           "params.json" Scenario.busy_directory
           (Watcher.worker_start Scenario.fixed_buffer_config [])).
  reflexivity.
Defined.

(** X7.  The directory-change worker calls [notify_change()] only for the
    watched file: overflows, failed results and records that name other
    files of the directory never notify. *)
Theorem worker_ignores_other_files {U : Type}
    (cfg : Watcher.FileWatcherConfig U) (filename : string)
    (os : list Watcher.IterObs) (w : Watcher.Worker U) :
  Forall (Watcher.about_other_files filename) os ->
  Watcher.notifications (Watcher.worker_loop cfg filename os w)
  = Watcher.notifications w.
Proof. apply worker_loop_other_files. Qed.

Lemma worker_ignores_other_files_witness :
  Watcher.notifications
    (Watcher.worker_loop Scenario.small_buffer_config "params.json"
       Scenario.busy_directory (Watcher.worker_start Scenario.small_buffer_config []))
  = 0%nat.
Proof.
  apply (worker_ignores_other_files Scenario.small_buffer_config "params.json"
           Scenario.busy_directory
           (Watcher.worker_start Scenario.small_buffer_config [])).
  unfold Scenario.busy_directory.
  constructor; [exact I|].
  constructor; [right; split; [discriminate | reflexivity]|].
  constructor; [exact I|].
  constructor; [left; reflexivity | constructor].
Defined.

(** X8.  Validation is idempotent and touches [buffer_size] only. *)
Theorem validate_idempotent {U : Type} (c : Watcher.FileWatcherConfig U) :
  Watcher.validate (Watcher.validate c) = Watcher.validate c /\
  Watcher.max_buffer_size (Watcher.validate c) = Watcher.max_buffer_size c /\
  Watcher.auto_grow_buffer (Watcher.validate c) = Watcher.auto_grow_buffer c /\
  Watcher.on_buffer_overflow (Watcher.validate c) = Watcher.on_buffer_overflow c.
Proof.
  split; [|repeat split].
  unfold Watcher.validate; cbn [Watcher.buffer_size Watcher.max_buffer_size
    Watcher.auto_grow_buffer Watcher.on_buffer_overflow].
  f_equal. unfold Watcher.min_buffer_size.
  generalize (Watcher.buffer_size c) (Watcher.max_buffer_size c). intros bs mx.
  destruct (Z.ltb_spec bs 4096) as [H1|H1].
  - destruct (Z.ltb_spec mx 4096) as [H2|H2].
    + destruct (Z.ltb_spec mx 4096); [|lia].
      destruct (Z.ltb_spec mx 4096); [reflexivity | lia].
    + destruct (Z.ltb_spec 4096 4096); [lia|].
      destruct (Z.ltb_spec mx 4096); [lia | reflexivity].
  - destruct (Z.ltb_spec mx bs) as [H2|H2].
    + destruct (Z.ltb_spec mx 4096) as [H3|H3].
      * destruct (Z.ltb_spec mx 4096); [reflexivity | lia].
      * destruct (Z.ltb_spec mx mx); [lia | reflexivity].
    + destruct (Z.ltb_spec bs 4096); [lia|].
      destruct (Z.ltb_spec mx bs); [lia | reflexivity].
Qed.

Section PollingFacts.
Import Watcher.

Lemma poll_loop_snoc os o p :
  poll_loop (os ++ [o]) p = poll_iter o (poll_loop os p).
Proof. unfold poll_loop. now rewrite fold_left_app. Qed.

Lemma poll_iter_interval o p :
  (min_interval <= poll_interval p <= max_interval)%Z ->
  (min_interval <= poll_interval (poll_iter o p) <= max_interval)%Z /\
  poll_waits (poll_iter o p) = (poll_waits p ++ [poll_interval (poll_iter o p)])%list.
Proof.
  unfold poll_iter, min_interval, max_interval. intros Hb.
  destruct (match o with Some _ => _ | None => false end); simpl; [split; [lia | reflexivity]|].
  destruct ((10 <? no_change_count p + 1)%Z && (poll_interval p <? 500)%Z) eqn:E;
    simpl; (split; [lia | reflexivity]).
Qed.

Lemma poll_loop_interval :
  forall os p,
    (min_interval <= poll_interval p <= max_interval)%Z ->
    Forall (fun ms => (min_interval <= ms <= max_interval)%Z) (poll_waits p) ->
    (min_interval <= poll_interval (poll_loop os p) <= max_interval)%Z /\
    Forall (fun ms => (min_interval <= ms <= max_interval)%Z)
           (poll_waits (poll_loop os p)).
Proof.
  induction os as [|o os IH] using rev_ind; intros p Hb Hw; [simpl; auto|].
  rewrite poll_loop_snoc.
  destruct (IH p Hb Hw) as (Hb1 & Hw1).
  destruct (poll_iter_interval o _ Hb1) as (Hb2 & Ew).
  split; [exact Hb2|]. rewrite Ew. apply Forall_app. split; [exact Hw1|].
  constructor; [exact Hb2 | constructor].
Qed.

(** After [k] polls without a change, starting with a zero count. *)
Lemma poll_loop_quiet :
  forall os p,
    Forall (quiet_for (last_modify_time p)) os ->
    no_change_count p = 0%Z ->
    (0 < poll_interval p <= max_interval)%Z ->
    let p' := poll_loop os p in
    poll_interval p' = quiet_interval (poll_interval p) (length os) /\
    no_change_count p' = Z.of_nat (length os) /\
    last_modify_time p' = last_modify_time p /\
    poll_notifications p' = poll_notifications p.
Proof.
  induction os as [|o os IH] using rev_ind; intros p Hq Hc Hi.
  - simpl. unfold quiet_interval. simpl. auto.
  - rewrite poll_loop_snoc. apply Forall_app in Hq as (Hq & Ho).
    destruct (IH p Hq Hc Hi) as (I1 & I2 & I3 & I4).
    inversion Ho as [|? ? Hoq _]; subst.
    rewrite length_app. simpl length.
    set (q := poll_loop os p) in *.
    assert (Hch : match o with
                  | Some current_time => negb (current_time =? last_modify_time q)%Z
                  | None => false
                  end = false).
    { destruct Hoq as [->| ->]; [reflexivity|]. rewrite I3, Z.eqb_refl. reflexivity. }
    unfold poll_iter. rewrite Hch. cbn [poll_interval no_change_count last_modify_time
                                        poll_notifications].
    split; [|repeat split; try assumption; lia].
    rewrite I2, I1. unfold quiet_interval, max_interval in *.
    set (k := length os) in *.
    destruct (Nat.leb_spec k 10) as [Hk|Hk].
    + destruct (Nat.leb_spec (k + 1) 10) as [Hk1|Hk1].
      * replace (10 <? Z.of_nat k + 1)%Z with false by lia. reflexivity.
      * replace (10 <? Z.of_nat k + 1)%Z with true by lia.
        replace (k + 1 - 10)%nat with 1%nat by lia.
        change (2 ^ Z.of_nat 1)%Z with 2%Z.
        destruct (poll_interval p <? 500)%Z eqn:E; simpl; lia.
    + destruct (Nat.leb_spec (k + 1) 10) as [Hk1|Hk1]; [lia|].
      replace (10 <? Z.of_nat k + 1)%Z with true by lia.
      replace (Z.of_nat (k + 1 - 10)) with (Z.succ (Z.of_nat (k - 10))) by lia.
      rewrite Z.pow_succ_r by lia.
      assert (Hp : (0 < 2 ^ Z.of_nat (k - 10))%Z) by (apply Z.pow_pos_nonneg; lia).
      set (x := (2 ^ Z.of_nat (k - 10))%Z) in *.
      destruct (Z.min (poll_interval p * x) 500 <? 500)%Z eqn:E; simpl; nia.
Qed.

End PollingFacts.

(** X9.  The polling worker always waits between 10 ms and 500 ms: every
    interval it hands to [wait_for], from its start and whatever the file
    system answers, lies in that range, and there is one wait per poll.
    The run is short enough for the [int] counter of unchanged polls not
    to overflow. *)
Theorem watch_polling_interval_in_range (os : list (option Z)) :
  (Z.of_nat (length os) <= Retry.int_max)%Z ->
  Forall (fun ms => (10 <= ms <= 500)%Z)
         (Watcher.poll_waits (Watcher.poll_loop os Watcher.poller_start)) /\
  length (Watcher.poll_waits (Watcher.poll_loop os Watcher.poller_start)) = length os.
Proof.
  intros _. split.
  - apply (poll_loop_interval os Watcher.poller_start); simpl.
    + unfold Watcher.min_interval, Watcher.max_interval. lia.
    + constructor.
  - induction os as [|o os IH] using rev_ind; [reflexivity|].
    rewrite poll_loop_snoc, length_app. simpl.
    unfold Watcher.poll_iter.
    destruct (match o with Some _ => _ | None => false end); simpl;
      rewrite length_app, IH; reflexivity.
Qed.

Lemma watch_polling_interval_in_range_witness :
  let os := [Some 1700000000%Z; None; Some 1700000000%Z; Some 1700000005%Z] in
  Forall (fun ms => (10 <= ms <= 500)%Z)
         (Watcher.poll_waits (Watcher.poll_loop os Watcher.poller_start)) /\
  length (Watcher.poll_waits (Watcher.poll_loop os Watcher.poller_start)) = length os.
Proof.
  apply (watch_polling_interval_in_range
           [Some 1700000000%Z; None; Some 1700000000%Z; Some 1700000005%Z]).
  vm_compute. discriminate.
Defined.

(** X10.  When a poll sees a new modify-time it notifies once and the
    interval drops to 10 ms; over the [k] following polls that see no
    change (the same modify-time, or a failing stat) there is no further
    notification, and the interval stays at 10 ms for the first ten of
    them and then doubles at every poll, capped at 500 ms ([k] within the
    range of the [int] counter). *)
Theorem watch_polling_backs_off_after_change
    (p : Watcher.Poller) (t : Z) (os : list (option Z)) :
  t <> Watcher.last_modify_time p ->
  Forall (Watcher.quiet_for t) os ->
  (Z.of_nat (length os) <= Retry.int_max)%Z ->
  let p' := Watcher.poll_loop (Some t :: os) p in
  Watcher.poll_interval p' = Watcher.quiet_interval 10 (length os) /\
  Watcher.poll_notifications p' = S (Watcher.poll_notifications p) /\
  Watcher.last_modify_time p' = t.
Proof.
  intros Hne Hq _. cbn [Watcher.poll_loop fold_left].
  fold (Watcher.poll_loop os (Watcher.poll_iter (Some t) p)).
  assert (E : Watcher.poll_iter (Some t) p
              = Watcher.mkPoller t Watcher.min_interval 0
                  (S (Watcher.poll_notifications p))
                  (Watcher.poll_waits p ++ [Watcher.min_interval])%list).
  { unfold Watcher.poll_iter. apply Z.eqb_neq in Hne. rewrite Hne. reflexivity. }
  rewrite E.
  destruct (poll_loop_quiet os
              (Watcher.mkPoller t Watcher.min_interval 0
                 (S (Watcher.poll_notifications p))
                 (Watcher.poll_waits p ++ [Watcher.min_interval])%list))
    as (H1 & _ & H3 & H4); simpl; auto.
  unfold Watcher.min_interval, Watcher.max_interval. lia.
Qed.

Lemma watch_polling_backs_off_after_change_witness :
  let p' := Watcher.poll_loop (Some 1700000000%Z :: repeat None 13)
                              Watcher.poller_start in
  Watcher.poll_interval p' = Watcher.quiet_interval 10 (length (repeat (@None Z) 13)) /\
  Watcher.poll_notifications p' = S (Watcher.poll_notifications Watcher.poller_start) /\
  Watcher.last_modify_time p' = 1700000000%Z.
Proof.
  apply (watch_polling_backs_off_after_change Watcher.poller_start 1700000000%Z
           (repeat None 13)).
  - discriminate.
  - simpl. repeat constructor.
  - vm_compute. discriminate.
Defined.

(** In that run the interval has reached 80 ms. *)
Example watch_polling_after_thirteen_quiet_polls :
  Watcher.quiet_interval 10 13 = 80%Z.
Proof. reflexivity. Qed.

Section WaitMore.
Import Watcher.

Lemma waiter_step_without_flag t pc f pc' f' :
  f_change_detected f = false ->
  waiter_step t pc f = Some (pc', f') ->
  f' = f /\ pc' <> WReturned true.
Proof.
  unfold waiter_step, after_wait, wait_for_point, wait_pred.
  destruct pc, f as [[|] [|]], t; simpl; intros F E;
    try discriminate; inversion E; subst; split; (reflexivity || discriminate).
Qed.

Lemma run_waiter_only :
  forall sched s s',
    forallb is_waiter_step sched = true ->
    f_change_detected (flags s) = false ->
    waiter s <> WReturned true ->
    run sched s = Some s' ->
    flags s' = flags s /\ waiter s' <> WReturned true /\ stopper s' = stopper s.
Proof.
  induction sched as [|a sched IH]; intros s s' Hw Hf Hpc Hr.
  - inversion Hr; subst. auto.
  - cbn [forallb] in Hw. apply andb_true_iff in Hw as (Ha & Hw).
    destruct a as [t| |]; try discriminate.
    cbn [run step] in Hr.
    destruct (waiter_step t (waiter s) (flags s)) as [[pc f]|] eqn:E; [|discriminate].
    destruct (waiter_step_without_flag _ _ _ _ _ Hf E) as (-> & Hpc').
    destruct (IH (mkSys (flags s) pc (stopper s)) s' Hw Hf Hpc' Hr) as (H1 & H2 & H3).
    auto.
Qed.

End WaitMore.

(** X11.  [wait_for_change(timeout)] never returns [true] on its own: as
    long as no other thread sets [change_detected_] (no notification, no
    [stop()]), whatever wake-ups and timeouts the waiting thread gets, it
    is still blocked or has returned [false], and the flags are as they
    were. *)
Theorem wait_for_change_true_needs_a_change
    (sched : list Watcher.Action) (s s' : Watcher.Sys) :
  forallb Watcher.is_waiter_step sched = true ->
  Watcher.f_change_detected (Watcher.flags s) = false ->
  Watcher.waiter s <> Watcher.WReturned true ->
  Watcher.run sched s = Some s' ->
  Watcher.flags s' = Watcher.flags s /\
  Watcher.waiter s' <> Watcher.WReturned true /\
  Watcher.stopper s' = Watcher.stopper s.
Proof. apply run_waiter_only. Qed.

Lemma wait_for_change_true_needs_a_change_witness :
  let s' := Watcher.mkSys (Watcher.mkFlags true false)
                          (Watcher.WReturned false) Watcher.SEntry in
  Watcher.flags s' = Watcher.flags Scenario.idle_running /\
  Watcher.waiter s' <> Watcher.WReturned true /\
  Watcher.stopper s' = Watcher.stopper Scenario.idle_running.
Proof.
  apply (wait_for_change_true_needs_a_change
           [Watcher.WaiterStep false; Watcher.WaiterStep false; Watcher.WaiterStep true]
           Scenario.idle_running).
  - reflexivity.
  - reflexivity.
  - discriminate.
  - reflexivity.
Defined.

(** X12.  A notification is delivered once.  When the worker's
    [notify_change()] has stored the flag, a thread entering or blocked in
    [wait_for_change(timeout)] returns [true] at its next step and clears
    the flag; a following call of [wait_for_change] that meets no new
    notification and no [stop()] does not return [true]. *)
Theorem notify_change_is_consumed_once (s : Watcher.Sys) (t : bool) :
  Watcher.waiter s = Watcher.WEntry \/ Watcher.waiter s = Watcher.WBlocked ->
  let s1 := Watcher.mkSys (Watcher.mkFlags (Watcher.f_running (Watcher.flags s)) false)
                          (Watcher.WReturned true) (Watcher.stopper s) in
  Watcher.run [Watcher.WorkerNotify; Watcher.WaiterStep t] s = Some s1 /\
  forall sched s2,
    forallb Watcher.is_waiter_step sched = true ->
    Watcher.run sched (Watcher.mkSys (Watcher.flags s1) Watcher.WEntry (Watcher.stopper s1))
    = Some s2 ->
    Watcher.waiter s2 <> Watcher.WReturned true.
Proof.
  intros Hpc. split.
  - destruct s as [[r c] pc st]. simpl in Hpc.
    destruct Hpc as [-> | ->]; destruct r, t; reflexivity.
  - intros sched s2 Hw Hr.
    apply (run_waiter_only sched _ s2 Hw) in Hr as (_ & H & _);
      [exact H | reflexivity | discriminate].
Qed.

Lemma notify_change_is_consumed_once_witness :
  let s1 := Watcher.mkSys (Watcher.mkFlags true false)
                          (Watcher.WReturned true) Watcher.SEntry in
  Watcher.run [Watcher.WorkerNotify; Watcher.WaiterStep false] Scenario.idle_running
  = Some s1 /\
  forall sched s2,
    forallb Watcher.is_waiter_step sched = true ->
    Watcher.run sched (Watcher.mkSys (Watcher.flags s1) Watcher.WEntry (Watcher.stopper s1))
    = Some s2 ->
    Watcher.waiter s2 <> Watcher.WReturned true.
Proof.
  apply (notify_change_is_consumed_once Scenario.idle_running false).
  left. reflexivity.
Defined.

Section ParserFacts.
Import Parsers Parsers.SimpleKeyValueParser.

Lemma find_first_not_of_none s :
  find_first_not_of s = None <-> all_trim_chars s = true.
Proof.
  induction s as [|c s IH]; simpl; [tauto|].
  destruct (is_trim_char c); simpl.
  - destruct (find_first_not_of s); [split; [discriminate|]|tauto].
    intros E. apply IH in E. discriminate.
  - split; discriminate.
Qed.

Lemma find_last_not_of_none s :
  find_last_not_of s = None <-> all_trim_chars s = true.
Proof.
  induction s as [|c s IH]; simpl; [tauto|].
  destruct (find_last_not_of s).
  - split; [discriminate|]. intros E. apply andb_true_iff in E as (_ & E).
    apply IH in E. discriminate.
  - destruct (is_trim_char c); simpl; [tauto|]. split; discriminate.
Qed.

Lemma substring_0_all s : String.substring 0 (String.length s) s = s.
Proof. induction s; simpl; congruence. Qed.

(** What [find_last_not_of] cuts: the prefix up to the position found ends
    outside the set, and what follows is inside it. *)
Lemma find_last_not_of_some s m :
  find_last_not_of s = Some m ->
  exists b d,
    s = String.substring 0 (S m) s ++ b /\ all_trim_chars b = true /\
    back (String.substring 0 (S m) s) = Some d /\ is_trim_char d = false.
Proof.
  revert m. induction s as [|c s IH]; intros m; simpl; [discriminate|].
  destruct (find_last_not_of s) as [m'|] eqn:E.
  - intros [= <-]. destruct (IH m' eq_refl) as (b & d & E1 & E2 & E3 & E4).
    exists b, d. repeat split; try assumption.
    + change (String c s = String c (String.substring 0 (S m') s ++ b)).
      f_equal. exact E1.
    + change (back (String c (String.substring 0 (S m') s)) = Some d).
      destruct (String.substring 0 (S m') s) eqn:Es; [discriminate|]. exact E3.
  - destruct (is_trim_char c) eqn:Ec; [discriminate|]. intros [= <-].
    exists s, c. apply find_last_not_of_none in E.
    repeat split; try assumption.
    + destruct s; reflexivity.
    + destruct s; reflexivity.
Qed.

Lemma trim_skip c s : is_trim_char c = true -> trim (String c s) = trim s.
Proof.
  intros Ec. unfold trim. simpl. rewrite Ec.
  destruct (find_first_not_of s) as [n|] eqn:E1; [|reflexivity].
  destruct (find_last_not_of s) as [m|] eqn:E2.
  - reflexivity.
  - reflexivity.
Qed.

Lemma trim_keep c s :
  is_trim_char c = false ->
  trim (String c s)
  = String c (match find_last_not_of s with
              | Some m => String.substring 0 (S m) s
              | None => ""
              end).
Proof.
  intros Ec. unfold trim. simpl. rewrite Ec.
  destruct (find_last_not_of s) as [m|] eqn:E2.
  - unfold substr. replace (S m - 0 + 1)%nat with (S (S m)) by lia. reflexivity.
  - unfold substr. simpl. destruct s; reflexivity.
Qed.

Lemma all_trim_chars_app a b :
  all_trim_chars (a ++ b) = all_trim_chars a && all_trim_chars b.
Proof. induction a as [|c a IH]; simpl; [reflexivity|]. now rewrite IH, andb_assoc. Qed.

Lemma trim_decompose s :
  exists a b,
    s = a ++ trim s ++ b /\ all_trim_chars a = true /\ all_trim_chars b = true /\
    trimmed (trim s) = true.
Proof.
  induction s as [|c s IH].
  - exists "", "". repeat split.
  - destruct (is_trim_char c) eqn:Ec.
    + rewrite trim_skip by exact Ec.
      destruct IH as (a & b & E & Ha & Hb & Ht).
      exists (String c a), b. repeat split; try assumption.
      * change (String c s = String c (a ++ trim s ++ b)). f_equal. exact E.
      * simpl. now rewrite Ec, Ha.
    + rewrite trim_keep by exact Ec.
      destruct (find_last_not_of s) as [m|] eqn:E2.
      * destruct (find_last_not_of_some s m E2) as (b & d & E1 & Hb & Hbk & Hd).
        exists "", b. repeat split; try assumption.
        -- change (String c s = String c (String.substring 0 (S m) s ++ b)).
           f_equal. exact E1.
        -- unfold trimmed. cbn [front].
           set (u := String.substring 0 (S m) s) in *.
           assert (Hu : back (String c u) = Some d).
           { simpl. destruct u; [discriminate|exact Hbk]. }
           rewrite Hu, Ec, Hd. reflexivity.
      * apply find_last_not_of_none in E2.
        exists "", s. repeat split; try assumption.
        unfold trimmed. simpl. now rewrite Ec.
Qed.

Lemma back_find_last_not_of s d :
  back s = Some d -> is_trim_char d = false ->
  find_last_not_of s = Some (String.length s - 1)%nat.
Proof.
  induction s as [|c s IH]; [discriminate|].
  intros Hb Hd. simpl.
  destruct s as [|c' s'].
  - simpl in Hb. injection Hb as ->. simpl. now rewrite Hd.
  - rewrite (IH Hb Hd). simpl. f_equal. lia.
Qed.

Lemma trim_trimmed s : trimmed s = true -> trim s = s.
Proof.
  unfold trimmed. destruct s as [|c s]; [reflexivity|].
  cbn [front]. destruct (back (String c s)) as [d|] eqn:Hb.
  2:{ simpl in Hb. destruct s; [discriminate|]. clear -Hb. exfalso.
      revert Hb. generalize a. induction s; intros; simpl in Hb; [discriminate|].
      eapply IHs; eauto. }
  intros E. apply andb_true_iff in E as (Ec & Hd).
  apply negb_true_iff in Ec, Hd.
  rewrite trim_keep by exact Ec. f_equal.
  destruct s as [|c' s']; [reflexivity|].
  assert (Hb' : back (String c' s') = Some d) by exact Hb.
  rewrite (back_find_last_not_of _ _ Hb' Hd).
  replace (S (String.length (String c' s') - 1)) with (String.length (String c' s'))
    by (simpl; lia).
  apply substring_0_all.
Qed.


Lemma find_app_none c a b :
  find c (a ++ b) = None <-> find c a = None /\ find c b = None.
Proof.
  induction a as [|d a IH]; simpl; [tauto|].
  destruct (Ascii.eqb c d); [split; [discriminate|intros [? _]; discriminate]|].
  destruct (find c (a ++ b)) eqn:E1, (find c a) eqn:E2.
  - split; [discriminate | intros [? _]; discriminate].
  - split; [discriminate|]. intros [_ Hb].
    pose proof (proj2 IH (conj eq_refl Hb)). discriminate.
  - destruct (proj1 IH eq_refl). discriminate.
  - split; [|reflexivity]. intros _. split; [reflexivity|]. now apply IH.
Qed.

Lemma back_none s : back s = None -> s = "".
Proof.
  induction s as [|c s IH]; [reflexivity|]. simpl.
  destruct s; [discriminate|]. intros E. apply IH in E. discriminate.
Qed.

Lemma find_prefix c s p :
  find c s = Some p -> find c (String.substring 0 p s) = None.
Proof.
  revert p. induction s as [|d s IH]; intros p; simpl; [discriminate|].
  destruct (Ascii.eqb c d) eqn:E.
  - intros [= <-]. reflexivity.
  - destruct (find c s) as [n|]; [|discriminate]. intros [= <-].
    simpl. rewrite E. now rewrite (IH n eq_refl).
Qed.

Lemma front_substring_S s p : front (String.substring 0 (S p) s) = front s.
Proof. destruct s; reflexivity. Qed.

Lemma front_trim_keep s c :
  front s = Some c -> is_trim_char c = false -> front (trim s) = Some c.
Proof.
  destruct s as [|d s]; [discriminate|]. intros [= ->] Ec.
  now rewrite trim_keep.
Qed.

Lemma trimmed_front s c : trimmed s = true -> front s = Some c -> is_trim_char c = false.
Proof.
  unfold trimmed. intros Ht Hf. rewrite Hf in Ht.
  destruct (back s) eqn:Hb.
  - apply andb_true_iff in Ht as (Ht & _). now apply negb_true_iff.
  - apply back_none in Hb. subst. discriminate.
Qed.


Lemma find_none_substring c s p :
  find c s = None -> find c (String.substring 0 p s) = None.
Proof.
  revert p. induction s as [|d s IH]; intros [|p]; simpl; try reflexivity.
  destruct (Ascii.eqb c d); [discriminate|].
  destruct (find c s); [discriminate|]. intros _. now rewrite IH.
Qed.

Lemma find_trim_none c s : find c s = None -> find c (trim s) = None.
Proof.
  destruct (trim_decompose s) as (a & b & E & _). intros Hs.
  rewrite E in Hs. apply find_app_none in Hs as (_ & Hs).
  now apply find_app_none in Hs as (Hs & _).
Qed.

Lemma trimmed_trim s : trimmed (trim s) = true.
Proof. now destruct (trim_decompose s) as (a & b & _ & _ & _ & Ht). Qed.

Lemma key_of_line (y : bool) line p :
  trimmed line = true ->
  is_char "#"%char (front line) = false ->
  is_char ";"%char (front line) = false ->
  (if y then find ":"%char line
   else match find "="%char line with
        | Some p => Some p
        | None => find ":"%char line
        end) = Some p ->
  trim (substr 0 p line) <> "" ->
  good_key y (trim (substr 0 p line)).
Proof.
  intros Ht H1 H2 Hp Hk. unfold substr in *.
  assert (Hf : front (trim (String.substring 0 p line)) = front line).
  { destruct p as [|p].
    - exfalso. apply Hk. destruct line; reflexivity.
    - destruct line as [|c0 line]; [exfalso; apply Hk; reflexivity|].
      apply front_trim_keep; [reflexivity|].
      apply (trimmed_front _ _ Ht). reflexivity. }
  split; [exact Hk|]. split; [apply trimmed_trim|].
  rewrite Hf. split; [exact H1|]. split; [exact H2|].
  apply find_trim_none.
  destruct y.
  - now apply find_prefix.
  - destruct (find "="%char line) as [q|] eqn:E.
    + injection Hp as ->. now apply find_prefix.
    + now apply find_none_substring.
Qed.

Lemma parse_line_keys y (r : gmap string string) l :
  (forall k v, r !! k = Some v -> good_key y k) ->
  forall k v, SimpleKeyValueParser.parse_line y r l !! k = Some v -> good_key y k.
Proof.
  intros Hr k v. unfold SimpleKeyValueParser.parse_line.
  pose proof (trimmed_trim l) as Ht. set (line := trim l) in *.
  destruct (String.eqb line "" || is_char "#"%char (front line)
            || is_char ";"%char (front line)) eqn:E1; [apply Hr|].
  apply orb_false_iff in E1 as (E1 & H2). apply orb_false_iff in E1 as (_ & H1).
  destruct (String.eqb line "---" || String.eqb line "..."); [apply Hr|].
  destruct (is_char "["%char (front line) && is_char "]"%char (back line)); [apply Hr|].
  destruct (if y then find ":"%char line
            else match find "="%char line with
                 | Some p => Some p
                 | None => find ":"%char line
                 end) as [p|] eqn:Hp; [|apply Hr].
  destruct (String.eqb (trim (substr 0 p line)) "") eqn:Ek; [apply Hr|]. simpl.
  apply String.eqb_neq in Ek.
  destruct (decide (k = trim (substr 0 p line))) as [->|Hne].
  - intros _. now apply key_of_line.
  - rewrite lookup_insert_ne by congruence. apply Hr.
Qed.

Lemma fold_parse_line_keys y ls : forall (r : gmap string string),
  (forall k v, r !! k = Some v -> good_key y k) ->
  forall k v, fold_left (SimpleKeyValueParser.parse_line y) ls r !! k = Some v ->
              good_key y k.
Proof.
  induction ls as [|l ls IH]; intros r Hr; [exact Hr|].
  simpl. apply IH. now apply parse_line_keys.
Qed.

Lemma append_nil_r s : s ++ "" = s.
Proof.
  induction s as [|c s IH]; [reflexivity|].
  change (String c (s ++ "") = String c s). now rewrite IH.
Qed.

Lemma append_assoc' (a b c : string) : (a ++ b) ++ c = a ++ b ++ c.
Proof.
  induction a as [|d a IH]; [reflexivity|].
  change (String d ((a ++ b) ++ c) = String d (a ++ b ++ c)). now rewrite IH.
Qed.

Lemma find_last_not_of_app_trim t b :
  all_trim_chars b = true -> find_last_not_of (t ++ b) = find_last_not_of t.
Proof.
  intros Hb. induction t as [|c t IH]; simpl.
  - now apply find_last_not_of_none.
  - now rewrite IH.
Qed.

Lemma trim_all_trim_chars s : all_trim_chars s = true -> trim s = "".
Proof.
  intros E. unfold trim. apply find_first_not_of_none in E. now rewrite E.
Qed.

Lemma trim_app t b :
  all_trim_chars b = true -> trim (t ++ b) = trim t.
Proof.
  intros Hb. induction t as [|c t IH].
  - simpl. rewrite trim_all_trim_chars by exact Hb. reflexivity.
  - change (String c t ++ b) with (String c (t ++ b)).
    destruct (is_trim_char c) eqn:Ec.
    + now rewrite !trim_skip.
    + rewrite !trim_keep by exact Ec. rewrite find_last_not_of_app_trim by exact Hb.
      f_equal. destruct (find_last_not_of t) as [m|] eqn:E; [|reflexivity].
      destruct (find_last_not_of_some t m E) as (b' & d & E1 & _).
      rewrite E1 at 1. rewrite append_assoc'.
      set (u := String.substring 0 (S m) t). 
      assert (Hl : String.length u = S m).
      { unfold u. clear -E. revert m E. induction t as [|c t IH]; intros m; simpl; [discriminate|].
        destruct (find_last_not_of t) as [m'|] eqn:E'.
        - intros [= <-]. specialize (IH m' eq_refl). simpl in IH. simpl. now rewrite IH.
        - destruct (is_trim_char c); [discriminate|]. intros [= <-]. destruct t; reflexivity. }
      rewrite <- Hl. clear. induction u; simpl; [destruct (b' ++ b); reflexivity|].
      now rewrite IHu.
Qed.

Lemma trim_skip_app a s : all_trim_chars a = true -> trim (a ++ s) = trim s.
Proof.
  induction a as [|c a IH]; [reflexivity|]. intros E. simpl in E.
  apply andb_true_iff in E as (Ec & Ea).
  change (String c a ++ s) with (String c (a ++ s)).
  rewrite trim_skip by exact Ec. auto.
Qed.

(** [trim] gives back the core of a string padded with characters of the set. *)
Lemma trim_padded a t b :
  all_trim_chars a = true -> all_trim_chars b = true -> trimmed t = true ->
  trim (a ++ t ++ b) = t.
Proof.
  intros Ha Hb Ht. rewrite trim_skip_app by exact Ha.
  rewrite trim_app by exact Hb. now apply trim_trimmed.
Qed.

Lemma find_app_skip c a b :
  find c a = None ->
  find c (a ++ b) = match find c b with Some n => Some (String.length a + n)%nat | None => None end.
Proof.
  induction a as [|d a IH];
    [change ("" ++ b) with b; simpl; now destruct (find c b)|].
  change (String d a ++ b) with (String d (a ++ b)). simpl.
  destruct (Ascii.eqb c d); [discriminate|].
  destruct (find c a); [discriminate|]. intros _. rewrite IH by reflexivity.
  now destruct (find c b).
Qed.

Lemma find_all_trim_chars c w :
  is_trim_char c = false -> all_trim_chars w = true -> find c w = None.
Proof.
  intros Hc. induction w as [|d w IH]; [reflexivity|]. simpl. intros E.
  apply andb_true_iff in E as (Hd & Hw).
  destruct (Ascii.eqb_spec c d) as [->|_]; [congruence|]. now rewrite IH.
Qed.

Lemma substring_app_prefix a b : String.substring 0 (String.length a) (a ++ b) = a.
Proof.
  induction a as [|c a IH]; [destruct b; reflexivity|].
  change (String c a ++ b) with (String c (a ++ b)). simpl. now rewrite IH.
Qed.

Lemma substr_from_app a b n :
  substr_from (String.length a + n) (a ++ b) = substr_from n b.
Proof.
  induction a as [|c a IH]; [reflexivity|].
  change (String c a ++ b) with (String c (a ++ b)). simpl. exact IH.
Qed.

Lemma back_cons d s : s <> "" -> back (String d s) = back s.
Proof. destruct s; [congruence|reflexivity]. Qed.

Lemma back_app_cons a c b : back (a ++ String c b) = back (String c b).
Proof.
  induction a as [|d a IH]; [reflexivity|].
  change (String d a ++ String c b) with (String d (a ++ String c b)).
  rewrite back_cons; [exact IH|]. destruct a; discriminate.
Qed.

Lemma front_app a b : a <> "" -> front (a ++ b) = front a.
Proof. destruct a; [congruence|reflexivity]. Qed.

(** A string splits into a part that is empty or ends outside the set,
    and a tail inside it. *)
Lemma split_tail s :
  exists s' b,
    s = s' ++ b /\ all_trim_chars b = true /\
    (s' = "" \/ exists d, back s' = Some d /\ is_trim_char d = false).
Proof.
  destruct (find_last_not_of s) as [m|] eqn:E.
  - destruct (find_last_not_of_some s m E) as (b & d & E1 & Hb & Hbk & Hd).
    exists (String.substring 0 (S m) s), b. eauto 6.
  - apply find_last_not_of_none in E. exists "", s. auto.
Qed.

Lemma code_newline c : (code c =? 10)%Z = Ascii.eqb newline c.
Proof.
  destruct (Ascii.eqb_spec newline c) as [<-|Hne]; [reflexivity|].
  apply Z.eqb_neq. intros E. apply Hne. unfold code in E.
  rewrite <- (ascii_N_embedding c). replace (N_of_ascii c) with 10%N by lia. reflexivity.
Qed.

Lemma getlines_single s : forall acc,
  find newline s = None -> acc ++ s <> "" -> getlines acc s = [acc ++ s].
Proof.
  induction s as [|c s IH]; intros acc Hn Hne.
  - rewrite append_nil_r in *. simpl. apply String.eqb_neq in Hne. now rewrite Hne.
  - cbn [find] in Hn. cbn [getlines]. rewrite code_newline.
    destruct (Ascii.eqb newline c); [discriminate|].
    destruct (find newline s) eqn:E; [discriminate|].
    unfold push_back. rewrite IH; rewrite ?append_assoc'; auto.
Qed.

Lemma parse_line_pair y (r : gmap string string) w1 k w2 rest :
  good_key y k -> is_char "["%char (front k) = false ->
  all_trim_chars w1 = true -> all_trim_chars w2 = true ->
  SimpleKeyValueParser.parse_line y r (w1 ++ k ++ w2 ++ String (separator y) rest)
  = <[k := unquote (trim rest)]> r.
Proof.
  intros (Hk & Htk & Hh & Hs & Hsep) Hb Hw1 Hw2.
  destruct (split_tail rest) as (rest' & b & -> & Hbt & Hrest').
  set (c := separator y) in *.
  assert (Hc : is_trim_char c = false) by (unfold c; destruct y; reflexivity).
  set (t := k ++ w2 ++ String c rest').
  assert (El : w1 ++ k ++ w2 ++ String c (rest' ++ b) = w1 ++ t ++ b).
  { unfold t. f_equal. rewrite !append_assoc'. reflexivity. }
  assert (Hft : front t = front k) by (unfold t; now apply front_app).
  assert (Hfk : exists c0, front k = Some c0) by (destruct k; [congruence|eauto]).
  destruct Hfk as (c0 & Hfk).
  assert (Hc0 : is_trim_char c0 = false) by exact (trimmed_front k c0 Htk Hfk).
  assert (Htt : trimmed t = true).
  { unfold trimmed. rewrite Hft, Hfk.
    unfold t. rewrite <- append_assoc', back_app_cons.
    destruct Hrest' as [->|(d & Hd1 & Hd2)].
    - simpl. now rewrite Hc0, Hc.
    - replace (back (String c rest')) with (Some d)
        by (destruct rest'; [discriminate|exact (eq_sym Hd1)]).
      now rewrite Hc0, Hd2. }
  assert (Hfind : find c t = Some (String.length (k ++ w2))).
  { unfold t. rewrite <- append_assoc'. rewrite find_app_skip.
    - cbn [find]. rewrite Ascii.eqb_refl. f_equal. apply Nat.add_0_r.
    - apply find_app_none. split; [exact Hsep|]. now apply find_all_trim_chars. }
  unfold SimpleKeyValueParser.parse_line. rewrite El, trim_padded by assumption.
  fold t.
  replace (String.eqb t "") with false
    by (symmetry; apply String.eqb_neq; intros E; rewrite E, Hfk in Hft; discriminate).
  rewrite Hft, Hh, Hs, Hb. cbn [orb andb].
  replace (String.eqb t "---" || String.eqb t "...") with false.
  2:{ symmetry. apply orb_false_iff. split; apply String.eqb_neq; intros E;
      rewrite E in Hfind; unfold c in Hfind; destruct y; discriminate. }
  assert (Hp : (if y then find ":"%char t
                else match find "="%char t with
                     | Some p => Some p
                     | None => find ":"%char t
                     end) = Some (String.length (k ++ w2))).
  { unfold c, separator in Hfind. destruct y; [exact Hfind|]. now rewrite Hfind. }
  rewrite Hp. unfold substr.
  assert (Ekey : trim (String.substring 0 (String.length (k ++ w2)) t) = k).
  { unfold t. rewrite <- append_assoc', substring_app_prefix.
    rewrite trim_app by exact Hw2. now apply trim_trimmed. }
  assert (Eval : trim (substr_from (String.length (k ++ w2) + 1) t) = trim (rest' ++ b)).
  { unfold t. rewrite <- append_assoc', substr_from_app. simpl.
    now rewrite trim_app. }
  rewrite Ekey, Eval.
  apply String.eqb_neq in Hk. now rewrite Hk.
Qed.

End ParserFacts.

(** X13.  [trim] removes blanks, tabs, carriage returns and newlines from
    both ends and nothing else: the argument is the result with such
    characters around it, the result has none at either end, and trimming
    twice changes nothing. *)
Theorem trim_removes_surrounding_blanks (str : string) :
  (exists a b,
     str = a ++ Parsers.trim str ++ b /\
     Parsers.all_trim_chars a = true /\ Parsers.all_trim_chars b = true) /\
  Parsers.trimmed (Parsers.trim str) = true /\
  Parsers.trim (Parsers.trim str) = Parsers.trim str.
Proof.
  destruct (trim_decompose str) as (a & b & E & Ha & Hb & Ht).
  split; [exists a, b; auto|]. split; [exact Ht|]. now apply trim_trimmed.
Qed.

(** X14.  Whatever the content, every key that
    [SimpleKeyValueParser::parse] stores is non-empty, has no blank at
    either end, does not start with [#] or [;], and does not contain the
    separator of the style ([:] in YAML style, [=] otherwise). *)
Theorem simple_parser_keys_are_clean
    (content : string) (yaml_style : bool) (k v : string) :
  snd (Parsers.SimpleKeyValueParser.parse content yaml_style) !! k = Some v ->
  Parsers.SimpleKeyValueParser.good_key yaml_style k.
Proof.
  unfold Parsers.SimpleKeyValueParser.parse. simpl.
  apply fold_parse_line_keys. intros k' v' E. rewrite lookup_empty in E. discriminate.
Qed.

Lemma simple_parser_keys_are_clean_witness :
  Parsers.SimpleKeyValueParser.good_key false "speed".
Proof.
  apply (simple_parser_keys_are_clean "; limits
speed = 2.5
[section]" false "speed" "2.5").
  vm_compute. reflexivity.
Defined.

(** X15.  A line [key <sep> value], with blanks allowed around the key,
    gives exactly the pair of the key and the trimmed value without its
    enclosing quotes, and the parser returns [true]; [<sep>] is [:] in YAML
    style and [=] otherwise, and the value is everything after the first
    separator.  The key must have the shape of X14 and not start with
    [[]. *)
Theorem simple_parser_reads_pair
    (yaml_style : bool) (w1 k w2 rest : string) :
  Parsers.SimpleKeyValueParser.good_key yaml_style k ->
  Parsers.is_char "["%char (Parsers.front k) = false ->
  Parsers.all_trim_chars w1 = true -> Parsers.all_trim_chars w2 = true ->
  Parsers.find Parsers.newline
    (w1 ++ k ++ w2 ++ String (Parsers.SimpleKeyValueParser.separator yaml_style) rest)
  = None ->
  Parsers.SimpleKeyValueParser.parse
    (w1 ++ k ++ w2 ++ String (Parsers.SimpleKeyValueParser.separator yaml_style) rest)
    yaml_style
  = (true, {[ k := Parsers.unquote (Parsers.trim rest) ]}).
Proof.
  intros Hk Hb Hw1 Hw2 Hn. unfold Parsers.SimpleKeyValueParser.parse.
  rewrite (getlines_single _ "" Hn).
  2:{ destruct w1; [|discriminate]. destruct Hk as (Hk & _).
      destruct k; [congruence|discriminate]. }
  change ("" ++ (w1 ++ k ++ w2
                 ++ String (Parsers.SimpleKeyValueParser.separator yaml_style) rest))
    with (w1 ++ k ++ w2
          ++ String (Parsers.SimpleKeyValueParser.separator yaml_style) rest).
  cbn [fold_left]. rewrite parse_line_pair by assumption.
  rewrite insert_empty. reflexivity.
Qed.

Lemma simple_parser_reads_pair_witness :
  Parsers.SimpleKeyValueParser.parse
    ("  " ++ "max speed" ++ " " ++ String (Parsers.SimpleKeyValueParser.separator false)
                                          " '2.5 = fast' ")
    false
  = (true, {[ "max speed" := Parsers.unquote (Parsers.trim " '2.5 = fast' ") ]}).
Proof.
  apply (simple_parser_reads_pair false "  " "max speed" " " " '2.5 = fast' ").
  - repeat split; (discriminate || reflexivity).
  - reflexivity.
  - reflexivity.
  - reflexivity.
  - reflexivity.
Defined.

(** The value of that line is the text between the quotes. *)
Example simple_parser_reads_quoted_value :
  Parsers.unquote (Parsers.trim " '2.5 = fast' ") = "2.5 = fast".
Proof. reflexivity. Qed.


Section ParamsMore.
Import Err Parsers ParamsImpl.
Context `{LibC}.

Lemma update_binding_leaves values st ev n b a :
  leaves b a -> fst (update_binding values (st, ev) (n, b)) !! a = st !! a.
Proof.
  intros (Hu & Hd). unfold update_binding.
  destruct (values !! n) as [v|].
  - specialize (Hu v st). destruct (bb_update b v st) as [ok st']. exact Hu.
  - apply Hd.
Qed.

Lemma fold_update_binding_leaves values a (l : list (string * BindingBase)) :
  forall st ev,
    (forall n b, (n, b) ∈ l -> leaves b a) ->
    fst (fold_left (update_binding values) l (st, ev)) !! a = st !! a.
Proof.
  induction l as [|[n b] l IH]; intros st ev Hl; [reflexivity|].
  cbn [fold_left].
  destruct (update_binding values (st, ev) (n, b)) as [st1 ev1] eqn:E.
  rewrite IH by (intros n' b' Hin; apply (Hl n' b'); now right).
  change st1 with (fst (st1, ev1)). rewrite <- E.
  apply update_binding_leaves. apply (Hl n b). now left.
Qed.

Lemma update_binding_own {T : Type} {HT : Tunable T} values st ev name target (d : T) :
  fst (update_binding values (st, ev) (name, Binding target d)) !! target
  = applied values name d (st !! target).
Proof.
  unfold update_binding, applied. destruct (values !! name) as [v|]; cbn.
  - destruct (parse_value v); cbn; [apply lookup_insert_eq|reflexivity].
  - apply lookup_insert_eq.
Qed.

Lemma fold_update_binding_target {T : Type} {HT : Tunable T} values name target (d : T)
    (l : list (string * BindingBase)) :
  NoDup (l.*1) ->
  forall st ev,
    (forall n b, (n, b) ∈ l -> n <> name -> leaves b target) ->
    (forall b, (name, b) ∈ l -> b = Binding target d) ->
    name ∈ l.*1 ->
    fst (fold_left (update_binding values) l (st, ev)) !! target
    = applied values name d (st !! target).
Proof.
  induction l as [|[n b] l IH]; intros Hnd st ev Hl Hb Hin; [inversion Hin|].
  rewrite fmap_cons in Hnd, Hin. apply NoDup_cons in Hnd as (Hn & Hnd).
  cbn [fold_left].
  destruct (update_binding values (st, ev) (n, b)) as [st1 ev1] eqn:E.
  destruct (decide (n = name)) as [->|Hne].
  - rewrite (Hb b) in E by now left.
    rewrite fold_update_binding_leaves.
    + change st1 with (fst (st1, ev1)). rewrite <- E. apply update_binding_own.
    + intros n' b' Hin'. apply (Hl n' b'); [now right|].
      intros ->. apply Hn. apply list_elem_of_fmap. now exists (name, b').
  - apply elem_of_cons in Hin as [Hin|Hin]; [simpl in Hin; congruence|].
    rewrite IH; try assumption.
    + f_equal. change st1 with (fst (st1, ev1)). rewrite <- E.
      apply update_binding_leaves. apply (Hl n b); [now left|exact Hne].
    + intros n' b' Hin'. apply (Hl n' b'). now right.
    + intros b' Hin'. apply Hb. now right.
Qed.

Lemma update_bindings_target {T : Type} {HT : Tunable T}
    (bindings : gmap string BindingBase) values st name target (d : T) :
  bindings !! name = Some (Binding target d) ->
  (forall n b, n <> name -> bindings !! n = Some b -> leaves b target) ->
  fst (update_bindings bindings values st) !! target
  = applied values name d (st !! target).
Proof.
  intros Hb Hl. unfold update_bindings.
  apply fold_update_binding_target.
  - apply NoDup_fst_map_to_list.
  - intros n b Hin Hne. apply (Hl n b Hne). now apply elem_of_map_to_list.
  - intros b Hin. apply elem_of_map_to_list in Hin. congruence.
  - apply list_elem_of_fmap. exists (name, Binding target d). split; [reflexivity|].
    now apply elem_of_map_to_list.
Qed.

Lemma Binding_leaves {T : Type} {HT : Tunable T} (target a : addr) (d : T) :
  target <> a -> leaves (Binding target d) a.
Proof.
  intros Hne. split.
  - intros s st. cbn. destruct (parse_value s); cbn; [|reflexivity].
    now apply lookup_insert_ne.
  - intros st. cbn. now apply lookup_insert_ne.
Qed.

Lemma update_bindings_leaves (bindings : gmap string BindingBase) values st a :
  (forall n b, bindings !! n = Some b -> leaves b a) ->
  fst (update_bindings bindings values st) !! a = st !! a.
Proof.
  intros Hl. unfold update_bindings. apply fold_update_binding_leaves.
  intros n b Hin. apply (Hl n b). now apply elem_of_map_to_list.
Qed.

(** [load_file] changes nothing of the object but [current_values_] and
    [last_error_]. *)
Lemma load_file_frame p st o c p1 st1 ev1 :
  load_file p st o = Some (c, p1, st1, ev1) ->
  bindings_ p1 = bindings_ p /\ on_change_callback_ p1 = on_change_callback_ p /\
  in_callback_ p1 = in_callback_ p /\ file_cache_ p1 = file_cache_ p /\
  format_ p1 = format_ p /\ file_path_ p1 = file_path_ p /\
  file_read_retry_config_ p1 = file_read_retry_config_ p.
Proof.
  unfold load_file.
  destruct (Retry.rr_content _) as [content|];
    [|intros E; inversion E; subst; repeat split].
  destruct (parse_content (format_ p) content) as [[[[parsed nv] msg]|]|];
    [|intros E; inversion E; subst; repeat split|discriminate].
  destruct (negb parsed && bool_decide (nv = ∅));
    [intros E; inversion E; subst; repeat split|].
  destruct (negb (any_changed nv (current_values_ p)) && _);
    [intros E; inversion E; subst; repeat split|].
  destruct (update_bindings _ _ _) as [st' ev].
  intros E; inversion E; subst; repeat split.
Qed.

(** The ways through [update()] when no change callback is registered:
    an early return, a return after [load_file], or the parser's
    exception, which leaves everything as it was. *)
Lemma update_without_callback thread p st o out p' st' ev :
  update thread p st o = Some (out, p', st', ev) ->
  on_change_callback_ p = None ->
  (out = Returned false /\ p' = p /\ st' = st) \/
  (exists b p1 ev1,
     load_file p st o = Some (Returns b, p1, st', ev1) /\ out = Returned b /\
     p' = with_file_cache p1 (mkFileCache (u_modify_time o) (u_now o) true)) \/
  (out = ThrownByParser /\ p' = p /\ st' = st).
Proof.
  unfold update. intros E Hcb.
  destruct (in_callback_ p); [inversion E; subst; auto|].
  destruct (file_exists (file_cache_ p) && _ && _); [inversion E; subst; auto|].
  destruct (load_file p st o) as [[[[[b|] p1] st1] ev1]|] eqn:El; [| |discriminate].
  - destruct (load_file_frame _ _ _ _ _ _ _ El) as (_ & Hc & _).
    replace (if b then on_change_callback_ (with_file_cache p1 _) else None)
      with (@None Callback) in E by (destruct b; [cbn; congruence|reflexivity]).
    inversion E; subst. right. left. exists b, p1, ev1. auto.
  - destruct (load_file_throws _ _ _ _ _ _ El) as (Hp1 & Hst1).
    inversion E; subst. right. right. auto.
Qed.

(** When the parser's exception leaves [update()], the object (its cache
    included) and the bound variables are as they were, and no callback
    has been invoked. *)
Lemma update_thrown_by_parser thread p st o p' st' ev :
  update thread p st o = Some (ThrownByParser, p', st', ev) ->
  p' = p /\ st' = st /\ callback_count ev = 0%nat.
Proof.
  unfold update.
  destruct (in_callback_ p); [discriminate|].
  destruct (file_exists (file_cache_ p) && _ && _); [discriminate|].
  destruct (load_file p st o) as [[[[[b|] p1] st1] ev1]|] eqn:El; [| |discriminate].
  - destruct (if b then _ else None) as [cb|].
    + destruct (cb st1) as [st2 threw]. destruct threw; discriminate.
    + discriminate.
  - destruct (load_file_throws _ _ _ _ _ _ El) as (Hp1 & Hst1).
    pose proof (load_file_no_callback _ _ _ _ _ _ _ El) as Hn.
    intros E; inversion E; subst p' st' ev. repeat split; try assumption.
    rewrite callback_count_app, Hn.
    destruct (ensure_file_exists p (u_exists o) (u_create_ok o)); reflexivity.
Qed.

(** A call of [update()] that gets past its two early returns, and that
    the parser's exception does not end, leaves the cache at what it has
    just observed, and the reentrancy flag down. *)
Lemma update_refreshes_cache thread p st o out p1 st1 ev1 :
  in_callback_ p = false ->
  cache_fresh (file_cache_ p) (u_now o) (u_modify_time o) = false ->
  update thread p st o = Some (out, p1, st1, ev1) ->
  out <> ThrownByParser ->
  file_cache_ p1 = mkFileCache (u_modify_time o) (u_now o) true /\
  in_callback_ p1 = false.
Proof.
  intros Hin Hc. unfold ParamsImpl.cache_fresh in Hc.
  unfold update. rewrite Hin, Hc.
  destruct (load_file p st o) as [[[[[b|] q] st'] ev']|] eqn:El; [| |discriminate].
  - destruct (load_file_frame _ _ _ _ _ _ _ El) as (_ & _ & Hi & _).
    destruct (if b then _ else None) as [cb|].
    + destruct (cb st') as [st2 threw]. intros E _; inversion E; subst.
      cbn. split; [reflexivity|congruence].
    + intros E _; inversion E; subst. cbn. split; [reflexivity|congruence].
  - intros E Hout; inversion E; subst. congruence.
Qed.

Lemma any_changed_nonempty (m : gmap string string) :
  m <> ∅ -> any_changed m ∅ = true.
Proof.
  intros Hm. destruct (map_choose m Hm) as (k & v & Hk).
  apply (any_changed_new_key m ∅ k v Hk). apply lookup_empty.
Qed.

Lemma fold_apply_default_leaves a (l : list (string * BindingBase)) :
  forall st,
    (forall n b, (n, b) ∈ l -> leaves b a) ->
    fold_left (fun s (nb : string * BindingBase) => bb_apply_default (snd nb) s) l st !! a
    = st !! a.
Proof.
  induction l as [|[n b] l IH]; intros st Hl; [reflexivity|].
  cbn [fold_left snd]. rewrite IH by (intros n' b' Hin; apply (Hl n' b'); now right).
  apply (Hl n b). now left.
Qed.

Lemma fold_apply_default_target {T : Type} {HT : Tunable T} name target (d : T)
    (l : list (string * BindingBase)) :
  NoDup (l.*1) ->
  forall st,
    (forall n b, (n, b) ∈ l -> n <> name -> leaves b target) ->
    (forall b, (name, b) ∈ l -> b = Binding target d) ->
    name ∈ l.*1 ->
    fold_left (fun s (nb : string * BindingBase) => bb_apply_default (snd nb) s) l st
      !! target
    = Some (to_val d).
Proof.
  induction l as [|[n b] l IH]; intros Hnd st Hl Hb Hin; [inversion Hin|].
  rewrite fmap_cons in Hnd, Hin. apply NoDup_cons in Hnd as (Hn & Hnd).
  cbn [fold_left snd].
  destruct (decide (n = name)) as [->|Hne].
  - rewrite (Hb b) by now left.
    rewrite fold_apply_default_leaves; [apply lookup_insert_eq|].
    intros n' b' Hin'. apply (Hl n' b'); [now right|].
    intros ->. apply Hn. apply list_elem_of_fmap. now exists (name, b').
  - apply elem_of_cons in Hin as [Hin|Hin]; [simpl in Hin; congruence|].
    apply IH; try assumption.
    + intros n' b' Hin'. apply (Hl n' b'). now right.
    + intros b' Hin'. apply Hb. now right.
Qed.

End ParamsMore.

Lemma singleton_binding_frame `{LibC} (name : string) (b : ParamsImpl.BindingBase)
    (a : ParamsImpl.addr) :
  forall n b', n <> name ->
    (<[name := b]> (∅ : gmap string ParamsImpl.BindingBase)) !! n = Some b' ->
    ParamsImpl.leaves b' a.
Proof.
  intros n b' Hne E. rewrite lookup_insert_ne, lookup_empty in E by congruence.
  discriminate.
Qed.

(** X16.  After an [update()] that returned [true] (no change callback
    registered), a variable bound with [bind<T>] under [name], which no
    other binding writes, holds: the value that [get<T>(name)] returns when
    the file has the name and its text parses; its default when the file
    does not have the name (in both cases what [get_or<T>(name, default)]
    returns); and what it held before the call when the text does not
    parse. *)
Theorem update_sets_bound_variable `{LibC} {T : Type} {HT : ParamsImpl.Tunable T}
    thread p st o p' st' ev name target (d : T) :
  ParamsImpl.update thread p st o = Some (ParamsImpl.Returned true, p', st', ev) ->
  ParamsImpl.on_change_callback_ p = None ->
  ParamsImpl.bindings_ p !! name = Some (ParamsImpl.Binding target d) ->
  (forall n b, n <> name -> ParamsImpl.bindings_ p !! n = Some b -> ParamsImpl.leaves b target) ->
  st' !! target = ParamsImpl.applied (ParamsImpl.current_values_ p') name d (st !! target) /\
  (ParamsImpl.has name p' = false \/ ParamsImpl.get (T := T) name p' <> None ->
   st' !! target = Some (ParamsImpl.to_val (ParamsImpl.get_or name d p'))) /\
  (ParamsImpl.has name p' = true -> ParamsImpl.get (T := T) name p' = None ->
   st' !! target = st !! target).
Proof.
  intros E Hcb Hb Hl.
  destruct (update_without_callback _ _ _ _ _ _ _ _ E Hcb)
    as [(Ho & _)|[(b & p1 & ev1 & El & Ho & ->)|(Ho & _)]];
    [discriminate| |discriminate].
  injection Ho as <-.
  destruct (load_file_true _ _ _ _ _ _ El) as (nv & -> & -> & _).
  assert (Ea := update_bindings_target (ParamsImpl.bindings_ p) nv st name target d Hb Hl).
  split; [exact Ea|]. rewrite Ea.
  unfold ParamsImpl.applied, ParamsImpl.has, ParamsImpl.get_or, ParamsImpl.get.
  cbn [ParamsImpl.current_values_ ParamsImpl.with_file_cache ParamsImpl.with_last_error
       ParamsImpl.with_current_values].
  destruct (nv !! name) as [s|]; [destruct (ParamsImpl.parse_value s)|].
  - split; [reflexivity|discriminate].
  - split; [intros [?|?]; congruence|reflexivity].
  - split; [reflexivity|discriminate].
Qed.

Lemma update_sets_bound_variable_witness :
  let o := Scenario.saved "speed=2.5" 1000000 100 in
  let p' := fst (Scenario.after_update Scenario.bound_speed o) in
  let st' := snd (Scenario.after_update Scenario.bound_speed o) in
  let HT : ParamsImpl.Tunable (H := DecimalPlatform.decimal) Q :=
    ParamsImpl.Tunable_float in
  st' !! Scenario.speed_variable
  = ParamsImpl.applied (ParamsImpl.current_values_ p') "speed" 1%Q
      (snd Scenario.bound_speed !! Scenario.speed_variable) /\
  (ParamsImpl.has "speed" p' = false \/ ParamsImpl.get (T := Q) "speed" p' <> None ->
   st' !! Scenario.speed_variable
   = Some (ParamsImpl.to_val (ParamsImpl.get_or "speed" 1%Q p'))) /\
  (ParamsImpl.has "speed" p' = true -> ParamsImpl.get (T := Q) "speed" p' = None ->
   st' !! Scenario.speed_variable = snd Scenario.bound_speed !! Scenario.speed_variable).
Proof.
  intros o p' st' HT.
  apply (update_sets_bound_variable (H := DecimalPlatform.decimal) (T := Q) (HT := HT)
           1%nat (fst Scenario.bound_speed) (snd Scenario.bound_speed) o p' st'
           [ParamsImpl.EvBindingUpdate "speed" true]
           "speed" Scenario.speed_variable 1%Q).
  - reflexivity.
  - reflexivity.
  - reflexivity.
  - apply singleton_binding_frame.
Defined.

(** X17.  After [unbind(name)] the variable is out of reach: whatever
    [update()] reads and however it ends, a variable that only the binding
    of [name] wrote keeps its content, and [name] stays unbound. *)
Theorem update_leaves_unbound_variable `{LibC}
    thread p st o out p' st' ev name a :
  ParamsImpl.update thread (ParamsImpl.unbind name p) st o = Some (out, p', st', ev) ->
  ParamsImpl.on_change_callback_ p = None ->
  (forall n b, n <> name -> ParamsImpl.bindings_ p !! n = Some b -> ParamsImpl.leaves b a) ->
  st' !! a = st !! a /\ ParamsImpl.bindings_ p' !! name = None.
Proof.
  intros E Hcb Hl.
  destruct (update_without_callback _ _ _ _ _ _ _ _ E Hcb)
    as [(_ & -> & ->)|[(b & p1 & ev1 & El & _ & ->)|(_ & -> & ->)]].
  - split; [reflexivity|]. cbn. apply lookup_delete_eq.
  - destruct (load_file_frame _ _ _ _ _ _ _ El) as (Hbs & _).
    split.
    + destruct b.
      * destruct (load_file_true _ _ _ _ _ _ El) as (nv & _ & -> & _).
        apply update_bindings_leaves. intros n b Hn.
        cbn in Hn. apply lookup_delete_Some in Hn as (Hne & Hn). eauto.
      * now destruct (load_file_false _ _ _ _ _ _ El) as (-> & _).
    + cbn. rewrite Hbs. cbn. apply lookup_delete_eq.
  - split; [reflexivity|]. cbn. apply lookup_delete_eq.
Qed.

Lemma update_leaves_unbound_variable_witness :
  let o := Scenario.saved "speed=2.5" 1000000 100 in
  let unbound := (ParamsImpl.unbind "speed" (fst Scenario.bound_speed),
                  snd Scenario.bound_speed) in
  snd (Scenario.after_update unbound o) !! Scenario.speed_variable
  = snd Scenario.bound_speed !! Scenario.speed_variable /\
  ParamsImpl.bindings_ (fst (Scenario.after_update unbound o)) !! "speed" = None.
Proof.
  intros o unbound.
  apply (update_leaves_unbound_variable (H := DecimalPlatform.decimal)
           1%nat (fst Scenario.bound_speed) (snd Scenario.bound_speed) o
           (ParamsImpl.Returned true)
           (fst (Scenario.after_update unbound o))
           (snd (Scenario.after_update unbound o)) []
           "speed" Scenario.speed_variable).
  - reflexivity.
  - reflexivity.
  - apply singleton_binding_frame.
Defined.



(** X19.  The modify-time cache: after an [update()] that went to the
    file and was not ended by the parser's exception (it returned, or the
    change callback threw), another [update()] less than 10 ms later that
    finds the same modify-time returns [false] without reading the file,
    whatever the file now contains, and changes nothing. *)
Theorem update_twice_within_cache_duration `{LibC}
    thread p st o1 o2 out p1 st1 ev1 :
  ParamsImpl.in_callback_ p = false ->
  ParamsImpl.cache_fresh (ParamsImpl.file_cache_ p) (ParamsImpl.u_now o1)
    (ParamsImpl.u_modify_time o1) = false ->
  ParamsImpl.update thread p st o1 = Some (out, p1, st1, ev1) ->
  out <> ParamsImpl.ThrownByParser ->
  (ParamsImpl.u_now o2 - ParamsImpl.u_now o1 < ParamsImpl.cache_duration)%Z ->
  ParamsImpl.u_modify_time o2 = ParamsImpl.u_modify_time o1 ->
  ParamsImpl.u_exists o2 = true ->
  ParamsImpl.update thread p1 st1 o2 = Some (ParamsImpl.Returned false, p1, st1, []).
Proof.
  intros Hin Hc E Hout Hnow Hm Hex.
  destruct (update_refreshes_cache _ _ _ _ _ _ _ _ Hin Hc E Hout) as (Hfc & Hin1).
  unfold ParamsImpl.update. rewrite Hin1, Hfc. cbn [ParamsImpl.file_exists
    ParamsImpl.last_access ParamsImpl.last_modify_time].
  rewrite Hm, Z.eqb_refl. apply Z.ltb_lt in Hnow. rewrite Hnow. cbn.
  unfold ParamsImpl.ensure_file_exists. rewrite Hex. reflexivity.
Qed.

Lemma update_twice_within_cache_duration_witness :
  let o1 := Scenario.saved "speed=2.5" 1000000 100 in
  let o2 := Scenario.saved "speed=9" 5000000 100 in
  let p1 := fst (Scenario.after_update Scenario.bound_speed o1) in
  let st1 := snd (Scenario.after_update Scenario.bound_speed o1) in
  ParamsImpl.update 1%nat p1 st1 o2 = Some (ParamsImpl.Returned false, p1, st1, []).
Proof.
  intros o1 o2 p1 st1.
  apply (update_twice_within_cache_duration (H := DecimalPlatform.decimal)
           1%nat (fst Scenario.bound_speed) (snd Scenario.bound_speed) o1 o2
           (ParamsImpl.Returned true) p1 st1
           [ParamsImpl.EvBindingUpdate "speed" true]).
  - reflexivity.
  - reflexivity.
  - reflexivity.
  - discriminate.
  - reflexivity.
  - reflexivity.
  - reflexivity.
Defined.

(** X20.  [invalidate_cache()] forces the next [update()] to apply the
    file again: if the file reads and the parser returns a non-empty map
    for it, that [update()] applies it (it returns [true], or ends by the
    exception of the change callback) even when the content is the one
    already ingested; the map becomes the stored values, the last error is
    cleared, and (without a change callback) the bound variables are what
    the loop over the bindings makes of that map. *)
Theorem invalidate_cache_forces_reload `{LibC}
    thread p st o content parsed m msg :
  ParamsImpl.in_callback_ p = false ->
  Retry.rr_content (Retry.read_file_with_retry (ParamsImpl.file_path_ p)
                      (ParamsImpl.file_read_retry_config_ p) (ParamsImpl.u_reads o)) =
                        Some content ->
  ParamsImpl.parse_content (ParamsImpl.format_ p) content
  = Some (Returns (parsed, m, msg)) ->
  m <> ∅ ->
  exists out p' st' ev,
    ParamsImpl.update thread (fst (ParamsImpl.invalidate_cache p)) st o = Some (out, p', st', ev) /\
    (out = ParamsImpl.Returned true \/ out = ParamsImpl.Thrown) /\
    ParamsImpl.current_values_ p' = m /\
    ParamsImpl.has_error p' = false /\
    (ParamsImpl.on_change_callback_ p = None ->
     st' = fst (ParamsImpl.update_bindings (ParamsImpl.bindings_ p) m st)).
Proof.
  intros Hin Hr Hp Hm. unfold ParamsImpl.invalidate_cache. rewrite Hin. cbn [fst].
  unfold ParamsImpl.update. cbn [ParamsImpl.in_callback_ ParamsImpl.with_current_values
    ParamsImpl.with_file_cache ParamsImpl.file_cache_
                      ParamsImpl.FileCache_initial ParamsImpl.file_exists andb].
  rewrite Hin. cbn [andb].
  unfold ParamsImpl.load_file.
  cbn [ParamsImpl.file_path_ ParamsImpl.file_read_retry_config_ ParamsImpl.format_
    ParamsImpl.current_values_ ParamsImpl.bindings_
       ParamsImpl.with_current_values ParamsImpl.with_file_cache].
  rewrite Hr, Hp.
  replace (bool_decide (m = ∅)) with false by (symmetry; now apply bool_decide_eq_false).
  rewrite andb_false_r, any_changed_nonempty by exact Hm. cbn [negb andb].
  destruct (ParamsImpl.update_bindings (ParamsImpl.bindings_ p) m st) as [st1 evb] eqn:Eu.
  cbn [ParamsImpl.on_change_callback_ ParamsImpl.with_file_cache
    ParamsImpl.with_last_error ParamsImpl.with_current_values].
  destruct (ParamsImpl.on_change_callback_ p) as [cb|].
  - destruct (cb st1) as [st2 threw] eqn:Ecb.
    eexists _, _, _, _. split; [reflexivity|].
    split; [destruct threw; [right|left]; reflexivity|]. repeat split. discriminate.
  - eexists _, _, _, _. split; [reflexivity|].
    split; [left; reflexivity|]. repeat split.
Qed.

Lemma invalidate_cache_forces_reload_witness :
  let p := fst Scenario.speed_loaded in
  let st := snd Scenario.speed_loaded in
  let o := Scenario.saved "speed=2.5" 500000000 200 in
  exists out p' st' ev,
    ParamsImpl.update 1%nat (fst (ParamsImpl.invalidate_cache p)) st o
    = Some (out, p', st', ev) /\
    (out = ParamsImpl.Returned true \/ out = ParamsImpl.Thrown) /\
    ParamsImpl.current_values_ p' = {["speed" := "2.5"]} /\
    ParamsImpl.has_error p' = false /\
    (ParamsImpl.on_change_callback_ p = None ->
     st' = fst (ParamsImpl.update_bindings (ParamsImpl.bindings_ p)
                  {["speed" := "2.5"]} st)).
Proof.
  intros p st o.
  apply (invalidate_cache_forces_reload (H := DecimalPlatform.decimal)
           1%nat p st o "speed=2.5" true {["speed" := "2.5"]}
           "Failed to parse key-value format").
  - reflexivity.
  - reflexivity.
  - reflexivity.
  - apply insert_non_empty.
Defined.

(** X21.  Outside a callback, [reset_to_defaults()] puts the default of
    its binding back into a bound variable that no other binding writes. *)
Theorem reset_to_defaults_restores `{LibC} {T : Type} {HT : ParamsImpl.Tunable T}
    p st name target (d : T) :
  ParamsImpl.in_callback_ p = false ->
  ParamsImpl.bindings_ p !! name = Some (ParamsImpl.Binding target d) ->
  (forall n b, n <> name -> ParamsImpl.bindings_ p !! n = Some b -> ParamsImpl.leaves b target) ->
  fst (ParamsImpl.reset_to_defaults p st) !! target = Some (ParamsImpl.to_val d).
Proof.
  intros Hin Hb Hl. unfold ParamsImpl.reset_to_defaults. rewrite Hin. cbn [fst].
  apply (fold_apply_default_target name).
  - apply NoDup_fst_map_to_list.
  - intros n b Hi Hne. apply (Hl n b Hne). now apply elem_of_map_to_list.
  - intros b Hi. apply elem_of_map_to_list in Hi. congruence.
  - apply list_elem_of_fmap. exists (name, ParamsImpl.Binding target d). split; [reflexivity|].
    now apply elem_of_map_to_list.
Qed.

Lemma reset_to_defaults_restores_witness :
  let HT : ParamsImpl.Tunable (H := DecimalPlatform.decimal) Q :=
    ParamsImpl.Tunable_float in
  fst (ParamsImpl.reset_to_defaults (fst Scenario.speed_loaded)
         (snd Scenario.speed_loaded)) !! Scenario.speed_variable
  = Some (ParamsImpl.to_val 1%Q).
Proof.
  intros HT.
  apply (reset_to_defaults_restores (H := DecimalPlatform.decimal) (T := Q) (HT := HT)
           (fst Scenario.speed_loaded) (snd Scenario.speed_loaded)
           "speed" Scenario.speed_variable 1%Q).
  - reflexivity.
  - reflexivity.
  - change (ParamsImpl.bindings_ (fst Scenario.speed_loaded))
      with (<["speed" := ParamsImpl.Binding (H := DecimalPlatform.decimal) (T := Q)
                           (H0 := HT) Scenario.speed_variable 1%Q]>
              (∅ : gmap string ParamsImpl.BindingBase)).
    apply singleton_binding_frame.
Defined.

Section TunerFacts.
Import Err Parsers Tuner.
Context `{LibC}.

Lemma scan_lines_skip {T : Type} {HT : ParamsImpl.Tunable T} (pre : list string) :
  forall rest f e,
    Forall (gives_no_value (T := T)) pre ->
    exists f' e',
      scan_lines (T := T) (pre ++ rest) f e = scan_lines rest f' e' /\
      (f', e') = match last_candidate pre with
                 | Some l => (trim l, true)
                 | None => (f, e)
                 end.
Proof.
  induction pre as [|l pre IH]; intros rest f e Hp.
  - exists f, e. split; reflexivity.
  - inversion Hp as [|? ? Hl Hpre]; subst.
    change ((l :: pre) ++ rest)%list with (l :: (pre ++ rest))%list.
    cbn [scan_lines last_candidate]. fold (candidate l).
    destruct (candidate l) eqn:Ec.
    + rewrite (Hl Ec).
      destruct (IH rest (trim l) true Hpre) as (f' & e' & E1 & E2).
      exists f', e'. split; [exact E1|]. rewrite E2.
      destruct (last_candidate pre); reflexivity.
    + destruct (IH rest f e Hpre) as (f' & e' & E1 & E2).
      exists f', e'. split; [exact E1|]. rewrite E2.
      destruct (last_candidate pre); reflexivity.
Qed.

Lemma scan_lines_first {T : Type} {HT : ParamsImpl.Tunable T} pre line post f e (v : T) :
  Forall (gives_no_value (T := T)) pre ->
  candidate line = true ->
  ParamsImpl.parse_value (trim line) = Some v ->
  fst (fst (scan_lines (pre ++ line :: post) f e)) = Some v.
Proof.
  intros Hp Hc Hv.
  destruct (scan_lines_skip (T := T) pre (line :: post) f e Hp) as (f' & e' & -> & _).
  cbn [scan_lines]. fold (candidate line). rewrite Hc, Hv. reflexivity.
Qed.

Lemma scan_lines_none {T : Type} {HT : ParamsImpl.Tunable T} lines f e :
  Forall (gives_no_value (T := T)) lines ->
  scan_lines (T := T) lines f e
  = match last_candidate lines with
    | Some l => (None, trim l, true)
    | None => (None, f, e)
    end.
Proof.
  intros Hp.
  destruct (scan_lines_skip (T := T) lines [] f e Hp) as (f' & e' & E1 & E2).
  rewrite app_nil_r in E1. rewrite E1. cbn [scan_lines].
  destruct (last_candidate lines); inversion E2; reflexivity.
Qed.

Lemma try_get_cases {T : Type} {HT : ParamsImpl.Tunable T} t o :
  let r := try_get (T := T) t o in
  (tg_result r = true <-> tg_value r <> None) /\
  (tg_result r = true -> Err.has_error (last_error_ (tg_tuner r)) = false) /\
  input_file_path_ (tg_tuner r) = input_file_path_ t /\
  file_read_retry_config_ (tg_tuner r) = file_read_retry_config_ t.
Proof.
  unfold try_get.
  destruct (ParamsImpl.file_exists (file_cache_ t) && _ && _).
  - cbn. repeat split; try discriminate; congruence.
  - destruct (Retry.rr_content _) as [content|].
    + destruct (scan_lines _ _ _) as [[[v|] fl] pe]; cbn; repeat split;
        try discriminate; congruence.
    + cbn. repeat split; try discriminate; congruence.
Qed.

Lemma try_get_finds_value {T : Type} {HT : ParamsImpl.Tunable T}
    t o content pre line post (v : T) :
  ParamsImpl.cache_fresh (Tuner.file_cache_ t) (ParamsImpl.u_now o)
    (ParamsImpl.u_modify_time o) = false ->
  Retry.rr_content (Retry.read_file_with_retry (Tuner.input_file_path_ t)
                      (Tuner.file_read_retry_config_ t) (ParamsImpl.u_reads o)) = Some content ->
  Parsers.getlines "" content = (pre ++ line :: post)%list ->
  Forall (Tuner.gives_no_value (T := T)) pre ->
  Tuner.candidate line = true ->
  ParamsImpl.parse_value (Parsers.trim line) = Some v ->
  let r := Tuner.try_get (T := T) t o in
  Tuner.tg_result r = true /\ Tuner.tg_value r = Some v /\
  Tuner.last_error_ (Tuner.tg_tuner r) = Err.ErrorInfo_default /\
  Tuner.file_cache_ (Tuner.tg_tuner r)
  = ParamsImpl.mkFileCache (ParamsImpl.u_modify_time o) (ParamsImpl.u_now o) true.
Proof.
  intros Hc Hr Hl Hp Hcand Hv. unfold ParamsImpl.cache_fresh in Hc.
  unfold Tuner.try_get. rewrite Hc, Hr, Hl.
  pose proof (scan_lines_first pre line post "" false v Hp Hcand Hv) as E.
  destruct (Tuner.scan_lines (pre ++ line :: post) "" false) as [[[v'|] fl] pe];
    cbn in E; [|discriminate].
  injection E as ->. cbn. auto.
Qed.

End TunerFacts.

(** X22.  [try_get] takes the first line that parses.  When the cache
    does not cut the call short and the file reads, with a line that is
    not blank, not a comment and parses as a [T], before which every such
    line fails to parse, [try_get] returns [true], assigns the value of
    that line, clears the last error and refreshes the cache; what follows
    the line is not looked at. *)
Theorem try_get_first_parsable_line `{LibC} {T : Type} {HT : ParamsImpl.Tunable T}
    t o content pre line post (v : T) :
  ParamsImpl.cache_fresh (Tuner.file_cache_ t) (ParamsImpl.u_now o)
    (ParamsImpl.u_modify_time o) = false ->
  Retry.rr_content (Retry.read_file_with_retry (Tuner.input_file_path_ t)
                      (Tuner.file_read_retry_config_ t) (ParamsImpl.u_reads o)) = Some content ->
  Parsers.getlines "" content = (pre ++ line :: post)%list ->
  Forall (Tuner.gives_no_value (T := T)) pre ->
  Tuner.candidate line = true ->
  ParamsImpl.parse_value (Parsers.trim line) = Some v ->
  let r := Tuner.try_get (T := T) t o in
  Tuner.tg_result r = true /\ Tuner.tg_value r = Some v /\
  Tuner.last_error_ (Tuner.tg_tuner r) = Err.ErrorInfo_default /\
  Tuner.file_cache_ (Tuner.tg_tuner r)
  = ParamsImpl.mkFileCache (ParamsImpl.u_modify_time o) (ParamsImpl.u_now o) true.
Proof. apply try_get_finds_value. Qed.

Lemma try_get_first_parsable_line_witness :
  let HT : ParamsImpl.Tunable (H := DecimalPlatform.decimal) Q :=
    ParamsImpl.Tunable_float in
  let o := Scenario.saved Scenario.commented_value 1000000 100 in
  let r := Tuner.try_get (H := DecimalPlatform.decimal) (HT := HT) Scenario.fresh_tuner o in
  Tuner.tg_result r = true /\ Tuner.tg_value r = Some (5 # 2)%Q /\
  Tuner.last_error_ (Tuner.tg_tuner r) = Err.ErrorInfo_default /\
  Tuner.file_cache_ (Tuner.tg_tuner r)
  = ParamsImpl.mkFileCache (ParamsImpl.u_modify_time o) (ParamsImpl.u_now o) true.
Proof.
  intros HT o.
  apply (try_get_first_parsable_line (H := DecimalPlatform.decimal) (T := Q) (HT := HT)
           Scenario.fresh_tuner o Scenario.commented_value
           ["# speed"; ""; "fast"] " 2.5 " ["7"] (5 # 2)%Q).
  - reflexivity.
  - reflexivity.
  - reflexivity.
  - repeat constructor; intros Hc; try discriminate Hc; reflexivity.
  - reflexivity.
  - reflexivity.
Defined.

(** X23.  [try_get] assigns the caller's variable exactly when it returns
    [true], and then no error is left; it never changes the path or the
    retry settings. *)
Theorem try_get_writes_only_on_true `{LibC} {T : Type} {HT : ParamsImpl.Tunable T}
    t o :
  let r := Tuner.try_get (T := T) t o in
  (Tuner.tg_result r = true <-> Tuner.tg_value r <> None) /\
  (Tuner.tg_result r = true -> Err.has_error (Tuner.last_error_ (Tuner.tg_tuner r)) = false) /\
  Tuner.input_file_path_ (Tuner.tg_tuner r) = Tuner.input_file_path_ t /\
  Tuner.file_read_retry_config_ (Tuner.tg_tuner r) = Tuner.file_read_retry_config_ t.
Proof. apply try_get_cases. Qed.

(** X24.  When the file reads but none of its value lines parses,
    [try_get] returns [false] without writing the variable and leaves a
    [ParseError]: its message quotes the last value line (trimmed), or says
    that no valid value was found when every line is blank or a comment.
    The cache is refreshed all the same. *)
Theorem try_get_reports_last_failed_line `{LibC} {T : Type} {HT : ParamsImpl.Tunable T}
    t o content :
  ParamsImpl.cache_fresh (Tuner.file_cache_ t) (ParamsImpl.u_now o)
    (ParamsImpl.u_modify_time o) = false ->
  Retry.rr_content (Retry.read_file_with_retry (Tuner.input_file_path_ t)
                      (Tuner.file_read_retry_config_ t) (ParamsImpl.u_reads o)) = Some content ->
  Forall (Tuner.gives_no_value (T := T)) (Parsers.getlines "" content) ->
  let r := Tuner.try_get (T := T) t o in
  Tuner.tg_result r = false /\ Tuner.tg_value r = None /\
  Err.type (Tuner.last_error_ (Tuner.tg_tuner r)) = Err.ParseError /\
  Err.message (Tuner.last_error_ (Tuner.tg_tuner r))
  = match Tuner.last_candidate (Parsers.getlines "" content) with
    | Some l => "Failed to parse value from line: '" ++ Parsers.trim l ++ "'"
    | None => "No valid value found in file"
    end /\
  Tuner.file_cache_ (Tuner.tg_tuner r)
  = ParamsImpl.mkFileCache (ParamsImpl.u_modify_time o) (ParamsImpl.u_now o) true.
Proof.
  intros Hc Hr Hp. unfold ParamsImpl.cache_fresh in Hc.
  unfold Tuner.try_get. rewrite Hc, Hr.
  rewrite (scan_lines_none (T := T) _ "" false Hp).
  destruct (Tuner.last_candidate (Parsers.getlines "" content)); cbn; auto.
Qed.

Lemma try_get_reports_last_failed_line_witness :
  let HT : ParamsImpl.Tunable (H := DecimalPlatform.decimal) Q :=
    ParamsImpl.Tunable_float in
  let o := Scenario.saved Scenario.no_number 1000000 100 in
  let r := Tuner.try_get (H := DecimalPlatform.decimal) (HT := HT) Scenario.fresh_tuner o in
  Tuner.tg_result r = false /\ Tuner.tg_value r = None /\
  Err.type (Tuner.last_error_ (Tuner.tg_tuner r)) = Err.ParseError /\
  Err.message (Tuner.last_error_ (Tuner.tg_tuner r))
  = match Tuner.last_candidate (Parsers.getlines "" Scenario.no_number) with
    | Some l => "Failed to parse value from line: '" ++ Parsers.trim l ++ "'"
    | None => "No valid value found in file"
    end /\
  Tuner.file_cache_ (Tuner.tg_tuner r)
  = ParamsImpl.mkFileCache (ParamsImpl.u_modify_time o) (ParamsImpl.u_now o) true.
Proof.
  intros HT o.
  apply (try_get_reports_last_failed_line (H := DecimalPlatform.decimal) (T := Q)
           (HT := HT) Scenario.fresh_tuner o Scenario.no_number).
  - reflexivity.
  - reflexivity.
  - repeat constructor; intros Hc; try discriminate Hc; reflexivity.
Defined.

(** The message of that run. *)
Example try_get_quotes_trimmed_line :
  match Tuner.last_candidate (Parsers.getlines "" Scenario.no_number) with
  | Some l => "Failed to parse value from line: '" ++ Parsers.trim l ++ "'"
  | None => "No valid value found in file"
  end = "Failed to parse value from line: 'very fast'".
Proof. reflexivity. Qed.





Section PicojsonParserFacts.
Context `{LibC}.

Lemma add_member_other (r : gmap string string) n v k :
  n <> k -> PicojsonParser.add_member r (n, v) !! k = r !! k.
Proof.
  intros Hne. unfold PicojsonParser.add_member. cbn.
  destruct v; cbn; rewrite ?lookup_insert_ne by exact Hne; reflexivity.
Qed.

Lemma add_member_same (r : gmap string string) k v :
  PicojsonParser.add_member r (k, v) !! k
  = match PicojsonParser.member_text v with
    | Some s => Some s
    | None => r !! k
    end.
Proof.
  unfold PicojsonParser.add_member, PicojsonParser.member_text. cbn.
  destruct v; cbn; rewrite ?lookup_insert_eq; reflexivity.
Qed.

Lemma fold_add_member_absent (l : list (string * picojson.value)) k :
  k ∉ l.*1 ->
  forall r : gmap string string,
    fold_left PicojsonParser.add_member l r !! k = r !! k.
Proof.
  induction l as [|[n v] l IH]; intros Hk r; [reflexivity|].
  rewrite fmap_cons in Hk. apply not_elem_of_cons in Hk as (Hne & Hk).
  cbn [fold_left]. rewrite (IH Hk). apply add_member_other. cbn in Hne. congruence.
Qed.

Lemma fold_add_member_present (l : list (string * picojson.value)) k v :
  NoDup (l.*1) -> (k, v) ∈ l ->
  forall r : gmap string string,
    fold_left PicojsonParser.add_member l r !! k
    = match PicojsonParser.member_text v with
      | Some s => Some s
      | None => r !! k
      end.
Proof.
  induction l as [|[n v0] l IH]; intros Hnd Hin r; [inversion Hin|].
  rewrite fmap_cons in Hnd. apply NoDup_cons in Hnd as (Hn & Hnd).
  cbn [fold_left].
  apply elem_of_cons in Hin as [Hin|Hin].
  - injection Hin as <- <-.
    rewrite fold_add_member_absent by exact Hn. apply add_member_same.
  - rewrite (IH Hnd Hin).
    assert (Hne : n <> k).
    { intros ->. apply Hn. apply list_elem_of_fmap. now exists (k, v). }
    now rewrite add_member_other.
Qed.

Lemma add_members_lookup (obj : gmap string picojson.value) k :
  fold_left PicojsonParser.add_member (map_to_list obj) ∅ !! k
  = match obj !! k with
    | Some v => PicojsonParser.member_text v
    | None => None
    end.
Proof.
  destruct (obj !! k) as [v|] eqn:Ek.
  - rewrite (fold_add_member_present _ k v).
    + rewrite lookup_empty. now destruct (PicojsonParser.member_text v).
    + apply NoDup_fst_map_to_list.
    + now apply elem_of_map_to_list.
  - rewrite fold_add_member_absent; [apply lookup_empty|].
    intros Hin. apply list_elem_of_fmap in Hin as ([n v] & -> & Hin).
    apply elem_of_map_to_list in Hin. cbn in Ek. congruence.
Qed.

End PicojsonParserFacts.

(** X27.  [PicojsonParser::parse] ends the way [picojson::parse] does.
    When picojson throws ([value(double)] has been given an infinity or a
    NaN, as for a number too large for a [double]), the exception leaves
    [PicojsonParser::parse] too.  When picojson returns,
    [PicojsonParser::parse] keeps exactly the scalar members of a JSON
    object: a string as it is, a number through [std::to_string], a
    boolean as [true] or [false], [null] as the empty text; members that
    are arrays or objects are left out.  A document that picojson rejects,
    or that is not an object, gives the empty map.  The flag tells whether
    the map is non-empty. *)
Theorem picojson_parser_keeps_scalars `{LibC}
    (content : string) (c : Completion (string * picojson.value)) :
  picojson.parse content = Some c ->
  match c with
  | Throws => PicojsonParser.parse content = Some Throws
  | Returns (err, v) =>
      exists parsed m,
        PicojsonParser.parse content = Some (Returns (parsed, m)) /\
        (forall k,
           m !! k = match v with
                    | picojson.object obj =>
                        if String.eqb err "" then
                          match obj !! k with
                          | Some member => PicojsonParser.member_text member
                          | None => None
                          end
                        else None
                    | _ => None
                    end) /\
        parsed = negb (bool_decide (m = ∅))
  end.
Proof.
  intros E. unfold PicojsonParser.parse. rewrite E.
  destruct c as [[err v]|]; [|reflexivity].
  destruct v as [| | | | |obj];
    try (exists false, ∅; split; [reflexivity|]; split; [|reflexivity];
         intros; apply lookup_empty).
  destruct (String.eqb err "") eqn:Ee; cbn.
  - eexists _, _. split; [reflexivity|]. split; [|reflexivity].
    intros k. apply add_members_lookup.
  - exists false, ∅. split; [reflexivity|]. split; [|reflexivity].
    intros; apply lookup_empty.
Qed.

Lemma picojson_parser_keeps_scalars_witness :
  exists parsed m,
    PicojsonParser.parse (H := DecimalPlatform.decimal) Scenario.json_document
    = Some (Returns (parsed, m)) /\
    (forall k,
       m !! k = match Scenario.json_document_value with
                | picojson.object obj =>
                    if String.eqb "" "" then
                      match obj !! k with
                      | Some member => PicojsonParser.member_text member
                      | None => None
                      end
                    else None
                | _ => None
                end) /\
    parsed = negb (bool_decide (m = ∅)).
Proof.
  apply (picojson_parser_keeps_scalars (H := DecimalPlatform.decimal)
           Scenario.json_document (Returns ("", Scenario.json_document_value))).
  reflexivity.
Defined.

Example picojson_parser_on_document :
  PicojsonParser.parse (H := DecimalPlatform.decimal) Scenario.json_document
  = Some (Returns (true, <["speed" := "2.500000"]>
                           (<["name" := "Hero"]> {["debug" := "true"]}))).
Proof. reflexivity. Qed.

(** A number too large for a [double]: [strtod] gives an infinity,
    [value(double)] throws, and the exception leaves [picojson::parse],
    [PicojsonParser::parse] and [update()].  Nothing of the [Params] has
    changed then, the cache included, no variable has been written and the
    registered callback has not been invoked. *)
Example update_on_overflow_document :
  let ps := Scenario.bound_speed_json in
  picojson.parse (H := DecimalPlatform.decimal) Scenario.overflow_document
  = Some Throws /\
  PicojsonParser.parse (H := DecimalPlatform.decimal) Scenario.overflow_document
  = Some Throws /\
  ParamsImpl.on_change_callback_ (fst ps) = Some Scenario.raise_flag /\
  ParamsImpl.update (H := DecimalPlatform.decimal) 1%nat (fst ps) (snd ps)
    (Scenario.saved Scenario.overflow_document 1000000 100)
  = Some (ParamsImpl.ThrownByParser, fst ps, snd ps, []).
Proof. repeat split; reflexivity. Qed.

Section ParserMore.
Import Parsers Parsers.SimpleKeyValueParser.

Lemma getlines_last_line line :
  find newline line = None -> line <> "" ->
  forall content acc,
    exists L, getlines acc (content ++ String newline line) = (L ++ [line])%list.
Proof.
  intros Hn Hne. induction content as [|d c IH]; intros acc.
  - change ("" ++ String newline line) with (String newline line).
    cbn [getlines]. rewrite code_newline, Ascii.eqb_refl.
    rewrite (getlines_single line "" Hn) by exact Hne.
    exists [acc]. reflexivity.
  - change (String d c ++ String newline line) with (String d (c ++ String newline line)).
    cbn [getlines]. destruct (code d =? 10)%Z.
    + destruct (IH "") as (L & ->). exists (acc :: L). reflexivity.
    + apply IH.
Qed.

End ParserMore.

(** X28.  The last assignment wins: when the last line of the content is
    a well-formed [key <sep> value] line, the map holds its value for the
    key, whatever the lines before it give, and [parse] returns [true]. *)
Theorem simple_parser_last_assignment_wins
    (yaml_style : bool) (content w1 k w2 rest : string) :
  Parsers.SimpleKeyValueParser.good_key yaml_style k ->
  Parsers.is_char "["%char (Parsers.front k) = false ->
  Parsers.all_trim_chars w1 = true -> Parsers.all_trim_chars w2 = true ->
  Parsers.find Parsers.newline
    (w1 ++ k ++ w2 ++ String (Parsers.SimpleKeyValueParser.separator yaml_style) rest)
  = None ->
  let r := Parsers.SimpleKeyValueParser.parse
             (content ++ String Parsers.newline
                (w1 ++ k ++ w2
                 ++ String (Parsers.SimpleKeyValueParser.separator yaml_style) rest))
             yaml_style in
  fst r = true /\ snd r !! k = Some (Parsers.unquote (Parsers.trim rest)).
Proof.
  intros Hk Hb Hw1 Hw2 Hn. unfold Parsers.SimpleKeyValueParser.parse.
  destruct (getlines_last_line _ Hn) with (content := content) (acc := "")
    as (L & ->).
  { destruct w1; [|discriminate]. destruct Hk as (Hk & _).
    destruct k; [congruence|discriminate]. }
  rewrite fold_left_app. cbn [fold_left]. rewrite parse_line_pair by assumption.
  cbn [fst snd]. split; [|apply lookup_insert_eq].
  apply negb_true_iff, bool_decide_eq_false. apply insert_non_empty.
Qed.

Lemma simple_parser_last_assignment_wins_witness :
  let r := Parsers.SimpleKeyValueParser.parse
             ("speed = 1
# faster
speed: 2" ++ String Parsers.newline
                ("" ++ "speed" ++ " " ++ String (Parsers.SimpleKeyValueParser.separator false)
                                             " 3"))
             false in
  fst r = true /\ snd r !! "speed" = Some (Parsers.unquote (Parsers.trim " 3")).
Proof.
  apply (simple_parser_last_assignment_wins false "speed = 1
# faster
speed: 2" "" "speed" " " " 3").
  - repeat split; (discriminate || reflexivity).
  - reflexivity.
  - reflexivity.
  - reflexivity.
  - reflexivity.
Defined.

(** X29.  On a watcher that is not running, [wait_for_change(timeout)]
    does not block: a thread entering it, or blocked in it when the
    watcher stops, returns at its next step, with [true] exactly when a
    change was pending, and leaves the flag cleared. *)
Theorem wait_for_change_returns_at_once_when_stopped (s : Watcher.Sys) (t : bool) :
  Watcher.f_running (Watcher.flags s) = false ->
  Watcher.waiter s = Watcher.WEntry \/ Watcher.waiter s = Watcher.WBlocked ->
  Watcher.step (Watcher.WaiterStep t) s
  = Some (Watcher.mkSys (Watcher.mkFlags false false)
            (Watcher.WReturned (Watcher.f_change_detected (Watcher.flags s)))
            (Watcher.stopper s)).
Proof.
  destruct s as [[r c] pc st]. cbn. intros -> [-> | ->]; destruct c, t; reflexivity.
Qed.

Lemma wait_for_change_returns_at_once_when_stopped_witness :
  Watcher.step (Watcher.WaiterStep false)
    (Watcher.mkSys (Watcher.mkFlags false false) Watcher.WBlocked Watcher.SReturned)
  = Some (Watcher.mkSys (Watcher.mkFlags false false) (Watcher.WReturned false)
            Watcher.SReturned).
Proof.
  apply (wait_for_change_returns_at_once_when_stopped
           (Watcher.mkSys (Watcher.mkFlags false false) Watcher.WBlocked
              Watcher.SReturned) false).
  - reflexivity.
  - right. reflexivity.
Defined.

Section SerializeFacts.
Import picojson.
Context `{LibC}.

Lemma to_char_code (c : ascii) : to_char (code c) = c.
Proof.
  unfold to_char, code. rewrite Z.mod_small.
  - rewrite N2Z.id. apply ascii_N_embedding.
  - pose proof (N_ascii_bounded c). lia.
Qed.

Lemma code_lt_256 (c : ascii) : (code c < 256)%Z.
Proof. unfold code. pose proof (N_ascii_bounded c). lia. Qed.

(** [getc] hands out the first pending character. *)
Lemma getc_pending i c rest :
  wf i -> pending i = c :: rest ->
  exists l, getc i = (code c, mkInput (c :: rest) true l).
Proof.
  unfold wf, pending, getc. destruct i as [cur [|] line]; cbn.
  - intros Hwf E. destruct cur as [|c0 cur]; [now exfalso; apply Hwf|].
    cbn in E. subst cur. cbn. eauto.
  - intros _ ->. cbn. eauto.
Qed.

Lemma wf_consumed c rest l : wf (mkInput (c :: rest) true l).
Proof. unfold wf. cbn. discriminate. Qed.

Lemma pending_consumed c rest l : pending (mkInput (c :: rest) true l) = rest.
Proof. reflexivity. Qed.

Local Ltac first_getc Hwf Hp :=
  let l := fresh "l" in
  let Hg := fresh "Hg" in
  destruct (getc_pending _ _ _ Hwf Hp) as (l & Hg);
  cbn [_parse_string_loop]; rewrite Hg.

Local Ltac found :=
  eexists; split; [|split; [|reflexivity]]; [apply wf_consumed|reflexivity].

(** The round for the character of code [k], a literal. *)
Local Ltac round c k Hwf Hp :=
  assert (c = to_char k) by (rewrite <- (to_char_code c); f_equal; lia);
  subst c;
  cbv -[pending] in Hp;
  first_getc Hwf Hp;
  cbv -[_parse_string_loop push_back wf pending];
  found.

(** One round of the loop of [_parse_string] reads back what
    [serialize_str_char] wrote for one character. *)
Lemma parse_string_step c f out i rest :
  wf i ->
  pending i = (list_ascii_of_string (serialize_str_char c) ++ rest)%list ->
  exists i',
    wf i' /\ pending i' = rest /\
    _parse_string_loop (S f) out i = _parse_string_loop f (push_back out c) i'.
Proof.
  intros Hwf Hp. unfold serialize_str_char in Hp.
  pose proof (code_nonneg c) as H0. pose proof (code_lt_256 c) as H256.
  destruct (Z.eqb_spec (code c) 34) as [E|N34]; [round c 34%Z Hwf Hp|].
  destruct (Z.eqb_spec (code c) 92) as [E|N92]; [round c 92%Z Hwf Hp|].
  destruct (Z.eqb_spec (code c) 47) as [E|N47]; [round c 47%Z Hwf Hp|].
  destruct (Z.eqb_spec (code c) 8) as [E|N8]; [round c 8%Z Hwf Hp|].
  destruct (Z.eqb_spec (code c) 12) as [E|N12]; [round c 12%Z Hwf Hp|].
  destruct (Z.eqb_spec (code c) 10) as [E|N10]; [round c 10%Z Hwf Hp|].
  destruct (Z.eqb_spec (code c) 13) as [E|N13]; [round c 13%Z Hwf Hp|].
  destruct (Z.eqb_spec (code c) 9) as [E|N9]; [round c 9%Z Hwf Hp|].
  destruct ((code c <? 32)%Z || (code c =? 127)%Z) eqn:Eu.
  - assert (Hn : (code c = 0 \/ code c = 1 \/ code c = 2 \/ code c = 3 \/ code c = 4
                 \/ code c = 5 \/ code c = 6 \/ code c = 7 \/ code c = 11
                 \/ code c = 14 \/ code c = 15 \/ code c = 16 \/ code c = 17
                 \/ code c = 18 \/ code c = 19 \/ code c = 20 \/ code c = 21
                 \/ code c = 22 \/ code c = 23 \/ code c = 24 \/ code c = 25
                 \/ code c = 26 \/ code c = 27 \/ code c = 28 \/ code c = 29
                 \/ code c = 30 \/ code c = 31 \/ code c = 127)%Z).
    { apply orb_true_iff in Eu as [Eu|Eu]; [apply Z.ltb_lt in Eu|apply Z.eqb_eq in Eu];
        lia. }
    clear Eu N34 N92 N47 N8 N12 N10 N13 N9 H0 H256.
    repeat (destruct Hn as [Hn|Hn];
            [match type of Hn with (code c = ?k)%Z => round c k Hwf Hp end|]).
    match type of Hn with (code c = ?k)%Z => round c k Hwf Hp end.
  - apply orb_false_iff in Eu as (E32 & _). apply Z.ltb_ge in E32.
    cbn [list_ascii_of_string app] in Hp.
    first_getc Hwf Hp.
    replace (code c <? 32)%Z with false by lia.
    replace (code c =? 34)%Z with false by lia.
    replace (code c =? 92)%Z with false by lia.
    rewrite to_char_code. found.
Qed.

Lemma list_ascii_of_string_app (a b : string) :
  list_ascii_of_string (a ++ b) = (list_ascii_of_string a ++ list_ascii_of_string b)%list.
Proof.
  induction a as [|c a IH]; [reflexivity|].
  change (String c a ++ b) with (String c (a ++ b)). cbn. now rewrite IH.
Qed.

Lemma serialize_str_char_nonempty c : serialize_str_char c <> "".
Proof.
  unfold serialize_str_char, backslashed.
  repeat match goal with |- context [if ?b then _ else _] => destruct b end;
    discriminate.
Qed.

Lemma serialize_str_chars_length s :
  (String.length s <= length (list_ascii_of_string (serialize_str_chars s)))%nat.
Proof.
  induction s as [|c s IH]; [cbn; lia|]. cbn [serialize_str_chars].
  rewrite list_ascii_of_string_app, length_app.
  pose proof (serialize_str_char_nonempty c) as Hc.
  destruct (serialize_str_char c) as [|d t]; [congruence|]. cbn. lia.
Qed.

(** The loop of [_parse_string] reads back a serialised string up to and
    including the closing quote. *)
Lemma parse_string_loop_serialized s :
  forall fuel out i rest,
    (String.length s < fuel)%nat -> wf i ->
    pending i
    = (list_ascii_of_string (serialize_str_chars s) ++ to_char 34 :: rest)%list ->
    exists i',
      _parse_string_loop fuel out i = Some (true, out ++ s, i') /\
      wf i' /\ pending i' = rest.
Proof.
  induction s as [|c s IH]; intros fuel out i rest Hf Hwf Hp.
  - destruct fuel as [|f]; [inversion Hf|].
    cbn [serialize_str_chars list_ascii_of_string app] in Hp.
    destruct (getc_pending _ _ _ Hwf Hp) as (l & Hg).
    cbn [_parse_string_loop]. rewrite Hg.
    cbv -[_parse_string_loop push_back wf pending String.append].
    eexists. split; [|split; [apply wf_consumed|reflexivity]].
    f_equal. f_equal. f_equal. clear. induction out as [|d out IH]; [reflexivity|].
    change (String d out ++ "") with (String d (out ++ "")). now rewrite <- IH.
  - destruct fuel as [|f]; [inversion Hf|].
    cbn [serialize_str_chars] in Hp.
    rewrite list_ascii_of_string_app, <- app_assoc in Hp.
    destruct (parse_string_step c f out i _ Hwf Hp) as (i1 & Hwf1 & Hp1 & ->).
    destruct (IH f (push_back out c) i1 rest) as (i' & E & Hwf' & Hp');
      [cbn in Hf; lia|exact Hwf1|exact Hp1|].
    exists i'. split; [|auto]. rewrite E. f_equal. f_equal. f_equal.
    unfold push_back. clear. induction out as [|d out IH]; [reflexivity|].
    change (String d out ++ String c "") with (String d (out ++ String c "")).
    change (String d out ++ String c s) with (String d (out ++ String c s)).
    change (String d (out ++ String c "") ++ s)
      with (String d ((out ++ String c "") ++ s)).
    now rewrite IH.
Qed.

End SerializeFacts.

(** X30.  Reading back what was written: for every string [s], picojson
    parses the text that [serialize_str] writes for [s] (quotes, the
    two-character escapes, [\u00XX] for the other control characters and
    DEL, everything else as it is) without an error, as the string value
    [s]. *)
Theorem picojson_parses_serialized_string `{LibC} (s : string) :
  picojson.parse (picojson.serialize_str s)
  = Some (Returns ("", picojson.string_ s)).
Proof.
  unfold picojson.parse, picojson.serialize_str, picojson.input_new.
  cbn [list_ascii_of_string String.length picojson._parse].
  set (body := list_ascii_of_string (picojson.serialize_str_chars s ++ String (to_char 34) "")).
  unfold picojson.skip_ws. cbn [picojson.cur_ length picojson.skip_ws_loop].
  cbv -[picojson._parse_string body picojson._parse_array picojson._parse_object
        picojson._parse_number picojson._parse picojson.near_loop pretty
        String.append].
  unfold picojson._parse_string. cbn [picojson.cur_ length].
  destruct (parse_string_loop_serialized s (S (S (length body))) ""
              (picojson.mkInput (to_char 34 :: body) true 1) [])
    as (i' & E & _).
  - unfold body. rewrite list_ascii_of_string_app, length_app.
    pose proof (serialize_str_chars_length s). lia.
  - apply wf_consumed.
  - unfold body. rewrite list_ascii_of_string_app. reflexivity.
  - match goal with
    | |- context [picojson._parse_string_loop ?a ?b ?c] =>
        change (picojson._parse_string_loop a b c = Some (true, "" ++ s, i')) in E
    end.
    rewrite E. reflexivity.
Qed.
